(** * AutoGrad: a symbolic differentiator (AutoGrad.cpp)

    A shallow embedding of the parts of AutoGrad.cpp that its specification
    makes claims about: tokens and expression nodes, the structural hash,
    the rational coefficients, the lexer, the tree construction, the
    differentiation rules, the driver of the simplifier and the round
    performed by [main] for one input line.

    Conventions.
    - A C++ [int] is a [Z] in the range of [Int32]; arithmetic on it is
      wrapped by [wrap32].  An [ExprHash] ([unsigned long long]) is a [Z]
      wrapped by [wrap64].
    - A pointer to a node is the node itself; the null pointer is [None].
      The arena ([Nodes], [UnusedNode]) only recycles storage and is not
      modelled.
    - A [std::vector] used as a stack is a list whose head is [back()].
    - Standard output is the list of the lines printed so far. *)

From Stdlib Require Import ZArith Lia List Bool Ascii String Sorted QArith Qcanon.
From stdpp Require Import base decidable option list gmap pretty.
Import ListNotations.
#[local] Set Warnings "-register-all".
Open Scope string_scope.
Open Scope list_scope.
Open Scope Z_scope.

(** ** Machine integers *)

Definition Int32_min : Z := - 2 ^ 31.
Definition Int32_max : Z := 2 ^ 31 - 1.
Definition Int32 (z : Z) : Prop := Int32_min <= z <= Int32_max.

(** Two's complement wrap-around of a 32-bit [int]. *)
Definition wrap32 (z : Z) : Z := (z + 2 ^ 31) mod 2 ^ 32 - 2 ^ 31.

(** Wrap-around of the 64-bit unsigned [ExprHash]. *)
Definition wrap64 (z : Z) : Z := z mod 2 ^ 64.

(** [ExprHash TransformHash(ExprHash H)]: [H * 6364136223846793005 + 7]. *)
Definition TransformHash (H : Z) : Z := wrap64 (H * 6364136223846793005 + 7).

(** ** Tokens *)

(** [enum Token::Type { Int, Variable, Function, Operator }]. *)
Inductive TokenType : Set :=
| Token_Int
| Token_Variable
| Token_Function
| Token_Operator.

(** The value of the enumerator. *)
Definition TokenType_code (t : TokenType) : Z :=
  match t with
  | Token_Int => 0
  | Token_Variable => 1
  | Token_Function => 2
  | Token_Operator => 3
  end.

Definition TokenType_eqb (a b : TokenType) : bool :=
  TokenType_code a =? TokenType_code b.

(** [struct Token { Type Ty{Int}; int ID{0}; }]. *)
Record Token : Set := mkToken { Ty : TokenType; ID : Z }.

(** [Token()]: the default token is the integer 0. *)
Definition Token_default : Token := mkToken Token_Int 0.

(** The code of a character as the [int] stored in an operator token. *)
Definition char_code (c : ascii) : Z := Z.of_N (N_of_ascii c).

(** The four constructors of [Token]. *)
Definition Token_of_int (v : Z) : Token := mkToken Token_Int v.
Definition Token_of_char (Opr : ascii) : Token := mkToken Token_Operator (char_code Opr).
Definition Token_of_func (FuncID : Z) : Token := mkToken Token_Function FuncID.
Definition Token_of_var (VarID : Z) : Token := mkToken Token_Variable VarID.

(** [bool operator==(const Token& R)]: same kind and same id. *)
Definition Token_eqb (a b : Token) : bool :=
  TokenType_eqb (Ty a) (Ty b) && (ID a =? ID b).

(** The global operator tokens [ADD], [SUB], [MUL], [DIV], [POW]. *)
Definition ADD : Token := Token_of_char "+".
Definition SUB : Token := Token_of_char "-".
Definition MUL : Token := Token_of_char "*".
Definition DIV : Token := Token_of_char "/".
Definition POW : Token := Token_of_char "^".

Definition IsLBK (T : Token) : bool := Token_eqb T (Token_of_char "(").
Definition IsRBK (T : Token) : bool := Token_eqb T (Token_of_char ")").
Definition IsCOM (T : Token) : bool := Token_eqb T (Token_of_char ",").
Definition IsSUB (T : Token) : bool := Token_eqb T SUB.
Definition IsIgnoredSymbol (T : Token) : bool := IsLBK T || IsRBK T || IsCOM T.

(** The 64 bits that [Token::Hash] reads through
    [reinterpret_cast<const ExprHash*>(this)]: the two 32-bit members, [Ty]
    in the low half and [ID] in the high half (little-endian layout). *)
Definition Token_bits (T : Token) : Z :=
  TokenType_code (Ty T) + 2 ^ 32 * (ID T mod 2 ^ 32).

(** [ExprHash Token::Hash() const]. *)
Definition Token_Hash (T : Token) : Z := TransformHash (Token_bits T).

(** ** Expression nodes *)

(** [struct ExprNode { Token V; ExprNode* Prev, *Next; ExprNode* Operand[2]; }].
    [Prev] and [Next] chain the nodes of the token list during parsing; the
    chain is a Rocq list here.  [L] and [R] are [Operand[0]] and
    [Operand[1]]. *)
Inductive ExprNode : Set :=
| Node (V : Token) (L R : option ExprNode).

Definition ExprNode_V (p : ExprNode) : Token := match p with Node V _ _ => V end.
Definition ExprNode_L (p : ExprNode) : option ExprNode := match p with Node _ L _ => L end.
Definition ExprNode_R (p : ExprNode) : option ExprNode := match p with Node _ _ R => R end.

(** [CreateNode(Token T)] and [CreateNode(Token T, Op1, Op2)]. *)
Definition CreateNode (T : Token) : ExprNode := Node T None None.
Definition CreateNode2 (T : Token) (Op1 Op2 : option ExprNode) : ExprNode := Node T Op1 Op2.

(** [Const(x)]. *)
Definition Const (x : Z) : ExprNode := CreateNode (Token_of_int x).

(** [Op1 Add Op2] and the like ([operator<] followed by [operator>]). *)
Definition BinOp (T : Token) (Op1 Op2 : ExprNode) : ExprNode :=
  CreateNode2 T (Some Op1) (Some Op2).

(** ** Traversal of a chain of one operator *)

(** [TraverseTreeNodes_Impl]: the nodes reached from [pNode] through nodes
    whose token is [RequiredParentType], left to right. *)
Fixpoint TraverseTreeNodes_Impl (pNode : ExprNode) (RequiredParentType : Token)
  : list ExprNode :=
  match pNode with
  | Node V L R =>
      if Token_eqb V RequiredParentType then
        match L with
        | Some l => TraverseTreeNodes_Impl l RequiredParentType
        | None => []
        end ++
        match R with
        | Some r => TraverseTreeNodes_Impl r RequiredParentType
        | None => []
        end
      else [pNode]
  end.

(** [TraverseTreeNodes(Series, pNode, RequiredParentType)], as the value
    [Series] has afterwards. *)
Definition TraverseTreeNodes (pNode : option ExprNode) (RequiredParentType : Token)
  : list ExprNode :=
  match pNode with
  | Some p => TraverseTreeNodes_Impl p RequiredParentType
  | None => []
  end.

(** ** The structural hash *)

(** [ExprHash ExprNode::Hash() const].  Under [+] and [*] the hash adds the
    transformed hashes of the nodes of [TraverseTypeLocal(C, this, V, p)];
    the local [terms] walks the chain as [TraverseTreeNodes_Impl] does (see
    [Hash_chain]).  The source initialises [p] with [C[0]] also when [C] is
    empty, which happens only when the chain of a [+] or [*] node has no
    node (a childless [+] or [*]): the program does not return there, and
    the value given here, with an empty sum, is that of no run.
    [Hash_defined] says where the program returns. *)
Fixpoint Hash (n : ExprNode) : Z :=
  match n with
  | Node V L R =>
      if Token_eqb V ADD || Token_eqb V MUL then
        let terms :=
          fix terms (q : ExprNode) : Z :=
            match q with
            | Node V' L' R' =>
                if Token_eqb V' V then
                  match L' with Some l => terms l | None => 0 end +
                  match R' with Some r => terms r | None => 0 end
                else TransformHash (Hash q)
            end in
        wrap64 (Token_Hash V
                + (match L with Some l => terms l | None => 0 end
                   + match R with Some r => terms r | None => 0 end))
      else
        wrap64 (Token_Hash V
                + match L with Some l => TransformHash (Hash l) | None => 0 end
                + match R with Some r => TransformHash (Hash r) | None => 0 end)
  end.

(** [bool Equal(const ExprNode* L, const ExprNode* R)]: equality of hashes. *)
Definition Equal (L R : option ExprNode) : bool :=
  match L with Some l => Hash l | None => 0 end
  =? match R with Some r => Hash r | None => 0 end.

(** The contribution of the chain below [q] to the hash of a [V] node: the
    sum over [TraverseTreeNodes_Impl q V]. *)
Fixpoint Hash_terms (V : Token) (q : ExprNode) : Z :=
  match q with
  | Node V' L' R' =>
      if Token_eqb V' V then
        match L' with Some l => Hash_terms V l | None => 0 end +
        match R' with Some r => Hash_terms V r | None => 0 end
      else TransformHash (Hash q)
  end.

(** The loop [H += TransformHash(p->Hash())] over the nodes of [C]. *)
Definition Hash_loop (H : Z) (C : list ExprNode) : Z :=
  fold_left (fun H p => wrap64 (H + TransformHash (Hash p))) C H.

Definition Hash_opt_terms (V : Token) (c : option ExprNode) : Z :=
  match c with Some l => Hash_terms V l | None => 0 end.

(** The exact sum that the loop accumulates modulo [2 ^ 64]. *)
Definition Hash_sum (C : list ExprNode) : Z :=
  fold_right (fun p s => TransformHash (Hash p) + s) 0 C.


(** ** The process-wide state of a round *)

(** The global variables that the modelled functions read or write:
    the variable table ([VarMaxID], [Vars], [VarMap]), the hashes recorded
    by [RotateCoefficient] ([Extracted]), the two error flags, and the lines
    written to standard output.  [VarMap] is a [std::map<std::string, int>]:
    its entries are kept in ascending order of the key, which is the order
    in which a range-for visits them.  [ZeroDenominators] is no variable of
    the program: it counts how many of the constructions of a fraction and
    of the extractions of a common factor made by the passes of the
    simplifier have met a zero denominator (the program only keeps the
    flag), so that statements can speak of what was detected. *)
Record Globals : Type := mkGlobals {
  VarMaxID : Z;
  Vars : list string;
  VarMap : list (string * Z);
  Extracted : gset Z;
  FailedToParse : bool;
  DividedbyZero : bool;
  Output : list string;
  ZeroDenominators : nat
}.

Definition set_VarTable (n : Z) (vs : list string) (vm : list (string * Z))
  (g : Globals) : Globals :=
  mkGlobals n vs vm (Extracted g) (FailedToParse g) (DividedbyZero g) (Output g)
    (ZeroDenominators g).
Definition set_Extracted (e : gset Z) (g : Globals) : Globals :=
  mkGlobals (VarMaxID g) (Vars g) (VarMap g) e (FailedToParse g) (DividedbyZero g) (Output g)
    (ZeroDenominators g).
Definition set_FailedToParse (b : bool) (g : Globals) : Globals :=
  mkGlobals (VarMaxID g) (Vars g) (VarMap g) (Extracted g) b (DividedbyZero g) (Output g)
    (ZeroDenominators g).
Definition set_DividedbyZero (b : bool) (g : Globals) : Globals :=
  mkGlobals (VarMaxID g) (Vars g) (VarMap g) (Extracted g) (FailedToParse g) b (Output g)
    (ZeroDenominators g).
Definition set_Output (o : list string) (g : Globals) : Globals :=
  mkGlobals (VarMaxID g) (Vars g) (VarMap g) (Extracted g) (FailedToParse g) (DividedbyZero g) o
    (ZeroDenominators g).
Definition count_ZeroDenominators (n : nat) (g : Globals) : Globals :=
  mkGlobals (VarMaxID g) (Vars g) (VarMap g) (Extracted g) (FailedToParse g) (DividedbyZero g)
    (Output g) (n + ZeroDenominators g).

(** The state at the head of a round: what the constructor of [RoundGuard]
    and the destructor of the previous one leave, with nothing printed yet. *)
Definition Globals_fresh : Globals := mkGlobals 0 [] [] ∅ false false [] 0.

(** Code that reads and writes the globals. *)
Definition State (A : Type) : Type := Globals -> A * Globals.

#[global] Instance State_ret : MRet State := fun A a g => (a, g).
#[global] Instance State_bind : MBind State :=
  fun A B f m g => let (a, g') := m g in f a g'.

Definition get_Globals : State Globals := fun g => (g, g).
Definition modify_Globals (f : Globals -> Globals) : State unit := fun g => (tt, f g).

(** Code that may also have no result: a loop of the source that does not
    end within the iterations allowed, or a dereference of a null or
    dangling pointer. *)
Definition Run (A : Type) : Type := Globals -> option (A * Globals).

#[global] Instance Run_ret : MRet Run := fun A a g => Some (a, g).
#[global] Instance Run_bind : MBind Run :=
  fun A B f m g => match m g with Some (a, g') => f a g' | None => None end.

Definition lift {A : Type} (m : State A) : Run A := fun g => Some (m g).
Definition no_result {A : Type} : Run A := fun _ => None.

(** [puts(s)]: one more line on standard output. *)
Definition puts (s : string) : State unit :=
  modify_Globals (fun g => set_Output (Output g ++ [s]) g).

(** The line that reports a zero denominator. *)
Definition RuntimeError : string := "Runtime Error: Divided by 0".

(** The two statements with which both [Fraction::Simplify] and
    [FinalFold_GCDPoly] report a zero denominator:
    [if(!DividedbyZero)puts("Runtime Error: Divided by 0"); DividedbyZero = true;] *)
Definition ReportDividedbyZero : State unit :=
  g ← get_Globals;
  (if DividedbyZero g then mret tt else puts RuntimeError);;
  modify_Globals (set_DividedbyZero true).

(** ** Rational coefficients *)

(** [struct Fraction { int N, D; }]. *)
Record Fraction : Set := mkFraction { Fraction_N : Z; Fraction_D : Z }.

(** [std::gcd] and [std::lcm] on [int]: the non-negative result, as an
    [int]. *)
Definition std_gcd (m n : Z) : Z := wrap32 (Z.gcd m n).
Definition std_lcm (m n : Z) : Z := wrap32 (Z.lcm m n).

(** Division of [int]s truncates towards zero. *)
Definition int_div (a b : Z) : Z := wrap32 (Z.quot a b).

(** [void Fraction::Simplify()]. *)
Definition Fraction_Simplify (F : Fraction) : State Fraction :=
  if Fraction_D F =? 0 then
    ReportDividedbyZero;; mret F
  else if Fraction_N F =? 0 then
    mret (mkFraction (Fraction_N F) 1)
  else
    let G := std_gcd (Fraction_N F) (Fraction_D F) in
    mret (mkFraction (int_div (Fraction_N F) G) (int_div (Fraction_D F) G)).

(** [Fraction(int N, int D)] and [Fraction(int N)]. *)
Definition Fraction_make (N D : Z) : State Fraction := Fraction_Simplify (mkFraction N D).
Definition Fraction_of_int (N : Z) : Fraction := mkFraction N 1.

(** The four arithmetic operators of [Fraction]. *)
Inductive FractionOp : Set := Fraction_plus | Fraction_minus | Fraction_times | Fraction_over.

(** The numerator and the denominator that an operator hands to the
    constructor: [N * R.D + R.N * D] over [D * R.D] for [+], and so on. *)
Definition Fraction_raw (op : FractionOp) (L R : Fraction) : Z * Z :=
  let (N, D) := (Fraction_N L, Fraction_D L) in
  match op with
  | Fraction_plus =>
      (wrap32 (wrap32 (N * Fraction_D R) + wrap32 (Fraction_N R * D)), wrap32 (D * Fraction_D R))
  | Fraction_minus =>
      (wrap32 (wrap32 (N * Fraction_D R) - wrap32 (Fraction_N R * D)), wrap32 (D * Fraction_D R))
  | Fraction_times =>
      (wrap32 (N * Fraction_N R), wrap32 (D * Fraction_D R))
  | Fraction_over =>
      (wrap32 (N * Fraction_D R), wrap32 (D * Fraction_N R))
  end.

(** [operator+], [operator-], [operator*], [operator/]. *)
Definition Fraction_apply (op : FractionOp) (L R : Fraction) : State Fraction :=
  Fraction_make (fst (Fraction_raw op L R)) (snd (Fraction_raw op L R)).

(** [bool operator==(const Fraction& R)] and [bool operator==(int R)]. *)
Definition Fraction_eqb (L R : Fraction) : bool :=
  (Fraction_N L =? Fraction_N R) && (Fraction_D L =? Fraction_D R).
Definition Fraction_eqb_int (L : Fraction) (R : Z) : bool :=
  (Fraction_N L =? R) && (Fraction_D L =? 1).

(** [ExprNode* Fraction::ToNode() const]. *)
Definition Fraction_ToNode (F : Fraction) : ExprNode :=
  if Fraction_D F =? 1 then Const (Fraction_N F)
  else BinOp DIV (Const (Fraction_N F)) (Const (Fraction_D F)).

(** [Fraction ExtractGCD(It Begin, Se End)] over a non-empty range: the
    greatest common divisor of the numerators over the least common
    multiple of the denominators.  (The source reads [Begin->N] before it
    looks at [End]; there is no value for an empty range.) *)
Definition ExtractGCD (Coefficients : list Fraction) : option (State Fraction) :=
  match Coefficients with
  | [] => None
  | Begin :: _ =>
      let '(n0, d0) :=
        fold_left (fun '(n0, d0) p => (std_gcd n0 (Fraction_N p), std_lcm d0 (Fraction_D p)))
          Coefficients (Fraction_N Begin, Fraction_D Begin) in
      Some (Fraction_make (wrap32 (Z.abs n0)) (wrap32 (Z.abs d0)))
  end.

(** What the constructor leaves for a numerator [N] and a denominator [D]
    handed to it in state [g]: [r] is the fraction built and the state
    afterwards.  With a zero denominator the pair is kept as it is and the
    flag is raised; otherwise the state is untouched and the fraction is the
    same rational in lowest terms; zero is [0/1]; the denominator is
    positive when [D] is, and negative when [D] is negative and [N] is not
    zero, but for the least [int] over itself, which is [1/1]. *)
Definition Fraction_constructed (N D : Z) (g : Globals) (r : Fraction * Globals) : Prop :=
  (D = 0 -> r.1 = mkFraction N 0 /\ DividedbyZero r.2 = true) /\
  (D <> 0 ->
   r.2 = g /\
   Z.gcd (Fraction_N r.1) (Fraction_D r.1) = 1 /\
   N * Fraction_D r.1 = Fraction_N r.1 * D /\
   (N = 0 -> r.1 = mkFraction 0 1) /\
   (0 < D -> 0 < Fraction_D r.1) /\
   (D < 0 -> N <> 0 -> ~ (N = Int32_min /\ D = Int32_min) -> Fraction_D r.1 < 0) /\
   (N = Int32_min -> D = Int32_min -> r.1 = mkFraction 1 1)).

(** ** The built-in functions *)

(** [FUNC_ln] ... [FUNC_cosh]: the indices into [Funcs]. *)
Definition FUNC_ln : Z := 0.
Definition FUNC_log : Z := 1.
Definition FUNC_cos : Z := 2.
Definition FUNC_sin : Z := 3.
Definition FUNC_tan : Z := 4.
Definition FUNC_pow : Z := 5.
Definition FUNC_exp : Z := 6.
Definition FUNC_sinh : Z := 7.
Definition FUNC_cosh : Z := 8.

(** [Ln(Op1)], [Sin(Op1)], ...: a function node with one operand
    ([FuncTokenHelper::operator()]). *)
Definition FuncNode (FuncID : Z) (Op1 : option ExprNode) : ExprNode :=
  CreateNode2 (Token_of_func FuncID) Op1 None.
Definition Ln := FuncNode FUNC_ln.
Definition Cos := FuncNode FUNC_cos.
Definition Sin := FuncNode FUNC_sin.
Definition Exp := FuncNode FUNC_exp.
Definition Sinh := FuncNode FUNC_sinh.
Definition Cosh := FuncNode FUNC_cosh.

(** ** Differentiation rules *)

(** The rules [DX_add] ... [DX_cosh].  In the source a rule receives the
    operands [Op1] and [Op2] (possibly null) and the variable, and reaches
    the derivative of an operand through the macros [DF] and [DG]; here it
    receives those derivatives as [DF] and [DG].  [F] and [G] stand for the
    copies [Op1->Duplicate()] and [Op2->Duplicate()].  A rule has no value
    ([None]) where the source dereferences a null operand. *)
Definition DXRule : Set :=
  option ExprNode -> option ExprNode -> option ExprNode -> option ExprNode -> option ExprNode.

Definition DX_add : DXRule := fun Op1 Op2 DF DG =>
  df ← DF; dg ← DG; Some (BinOp ADD df dg).

Definition DX_sub : DXRule := fun Op1 Op2 DF DG =>
  df ← DF; dg ← DG; Some (BinOp SUB df dg).

Definition DX_mul : DXRule := fun Op1 Op2 DF DG =>
  F ← Op1; G ← Op2; df ← DF; dg ← DG;
  Some (BinOp ADD (BinOp MUL df G) (BinOp MUL F dg)).

Definition DX_div : DXRule := fun Op1 Op2 DF DG =>
  F ← Op1; G ← Op2; df ← DF; dg ← DG;
  Some (BinOp DIV (BinOp SUB (BinOp MUL df G) (BinOp MUL F dg)) (BinOp POW G (Const 2))).

Definition DX_ln : DXRule := fun Op1 Op2 DF DG =>
  F ← Op1; df ← DF; Some (BinOp DIV df F).

(** [DX_div(Ln(Op2), Ln(Op1), DX)]: the derivatives of the two [ln] nodes
    are those of [DX_ln]. *)
Definition DX_log : DXRule := fun Op1 Op2 DF DG =>
  DX_div (Some (Ln Op2)) (Some (Ln Op1)) (DX_ln Op2 None DG None) (DX_ln Op1 None DF None).

Definition DX_cos : DXRule := fun Op1 Op2 DF DG =>
  F ← Op1; df ← DF; Some (BinOp SUB (Const 0) (BinOp MUL df (Sin (Some F)))).

Definition DX_sin : DXRule := fun Op1 Op2 DF DG =>
  F ← Op1; df ← DF; Some (BinOp MUL df (Cos (Some F))).

Definition DX_tan : DXRule := fun Op1 Op2 DF DG =>
  F ← Op1; df ← DF; Some (BinOp DIV df (BinOp POW (Cos (Some F)) (Const 2))).

Definition DX_exp : DXRule := fun Op1 Op2 DF DG =>
  F ← Op1; df ← DF; Some (BinOp MUL df (Exp (Some F))).

(** [DX_exp(Op2 Mul Ln(Op1), nullptr, DX)]: the derivative of the product
    is that of [DX_mul] on [Op2] and [Ln(Op1)]. *)
Definition DX_pow : DXRule := fun Op1 Op2 DF DG =>
  DX_exp (Some (CreateNode2 MUL Op2 (Some (Ln Op1)))) None
    (DX_mul Op2 (Some (Ln Op1)) DG (DX_ln Op1 None DF None)) None.

Definition DX_sinh : DXRule := fun Op1 Op2 DF DG =>
  F ← Op1; df ← DF; Some (BinOp MUL df (Cosh (Some F))).

Definition DX_cosh : DXRule := fun Op1 Op2 DF DG =>
  F ← Op1; df ← DF; Some (BinOp MUL df (Sinh (Some F))).

(** [struct Function { const char* Name; int NParam; Derivative }]. *)
Record Function : Set := mkFunction {
  Name : string;
  NParam : Z;
  Derivative : DXRule
}.

(** [Function Funcs[]]. *)
Definition Funcs : list Function := [
  mkFunction "ln" 1 DX_ln;
  mkFunction "log" 2 DX_log;
  mkFunction "cos" 1 DX_cos;
  mkFunction "sin" 1 DX_sin;
  mkFunction "tan" 1 DX_tan;
  mkFunction "pow" 2 DX_pow;
  mkFunction "exp" 1 DX_exp;
  mkFunction "sinh" 1 DX_sinh;
  mkFunction "cosh" 1 DX_cosh
].

(** [Funcs[ID]]; there is no value outside the table. *)
Definition Funcs_at (FuncID : Z) : option Function :=
  if FuncID <? 0 then None else Funcs !! Z.to_nat FuncID.

(** [ExprNode* ExprNode::PartialOpr(int DX) const], given the derivatives of
    the operands; an unknown operator is duplicated. *)
Definition PartialOpr (p : ExprNode) (DF DG : option ExprNode) : option ExprNode :=
  let c := ID (ExprNode_V p) in
  if c =? char_code "+" then DX_add (ExprNode_L p) (ExprNode_R p) DF DG
  else if c =? char_code "-" then DX_sub (ExprNode_L p) (ExprNode_R p) DF DG
  else if c =? char_code "*" then DX_mul (ExprNode_L p) (ExprNode_R p) DF DG
  else if c =? char_code "/" then DX_div (ExprNode_L p) (ExprNode_R p) DF DG
  else if c =? char_code "^" then DX_pow (ExprNode_L p) (ExprNode_R p) DF DG
  else Some p.

(** [ExprNode* ExprNode::Partial(int DX) const]. *)
Fixpoint Partial (p : ExprNode) (DX : Z) : option ExprNode :=
  match p with
  | Node V L R =>
      let DF := match L with Some l => Partial l DX | None => None end in
      let DG := match R with Some r => Partial r DX | None => None end in
      match Ty V with
      | Token_Int => Some (Const 0)
      | Token_Variable => Some (if ID V =? DX then Const 1 else Const 0)
      | Token_Operator => PartialOpr p DF DG
      | Token_Function => F ← Funcs_at (ID V); Derivative F L R DF DG
      end
  end.

(** ** The lexer *)

(** [enum class TokCond]. *)
Inductive TokCond : Set := TokCond_Null | TokCond_Operator | TokCond_Symbol | TokCond_Number.

Definition TokCond_eqb (a b : TokCond) : bool :=
  match a, b with
  | TokCond_Null, TokCond_Null | TokCond_Operator, TokCond_Operator
  | TokCond_Symbol, TokCond_Symbol | TokCond_Number, TokCond_Number => true
  | _, _ => false
  end.

(** [isdigit] and [isalpha] of the C locale; a [char] outside the ASCII
    range (for which the calls of the source, on a negative [char], are
    not defined) is taken as neither. *)
Definition isdigit (c : ascii) : bool :=
  (char_code "0" <=? char_code c) && (char_code c <=? char_code "9").
Definition isalpha (c : ascii) : bool :=
  ((char_code "A" <=? char_code c) && (char_code c <=? char_code "Z"))
  || ((char_code "a" <=? char_code c) && (char_code c <=? char_code "z")).

(** [char Operators[] = "+-*/^,()"] and [bool IsOpr(char c)]. *)
Definition Operators : string := "+-*/^,()".
Definition IsOpr (c : ascii) : bool :=
  existsb (Ascii.eqb c) (list_ascii_of_string Operators).

(** [TokCond Judge(char c)]. *)
Definition Judge (c : ascii) : TokCond :=
  if isdigit c then TokCond_Number
  else if isalpha c then TokCond_Symbol
  else if IsOpr c then TokCond_Operator
  else TokCond_Null.

(** [int StrToIntEx(const char* Begin, const char* End)]. *)
Definition StrToIntEx (s : string) : Z :=
  fold_left (fun Value c => wrap32 (wrap32 (Value * 10) + (char_code c - char_code "0")))
    (list_ascii_of_string s) 0.

(** [int GetFuncID(const char* Name)]: the first index with that name, or -1. *)
Fixpoint GetFuncID_from (i : Z) (fs : list Function) (s : string) : Z :=
  match fs with
  | [] => -1
  | f :: fs' => if String.eqb (Name f) s then i else GetFuncID_from (i + 1) fs' s
  end.
Definition GetFuncID (s : string) : Z := GetFuncID_from 0 Funcs s.

(** [VarMap.find(Name)] and [VarMap[Name] = ID] on the entries in ascending
    order of the key ([std::less<std::string>] compares bytes). *)
Fixpoint VarMap_find (k : string) (m : list (string * Z)) : option Z :=
  match m with
  | [] => None
  | (k', v) :: m' => if String.eqb k k' then Some v else VarMap_find k m'
  end.

Fixpoint VarMap_insert (k : string) (v : Z) (m : list (string * Z)) : list (string * Z) :=
  match m with
  | [] => [(k, v)]
  | (k', v') :: m' =>
      match String.compare k k' with
      | Lt => (k, v) :: m
      | Eq => (k', v) :: m'
      | Gt => (k', v') :: VarMap_insert k v m'
      end
  end.

(** [int GetVarID(const char* Name)]. *)
Definition GetVarID (s : string) : State Z := fun g =>
  match VarMap_find s (VarMap g) with
  | Some id => (id, g)
  | None =>
      (VarMaxID g,
       set_VarTable (wrap32 (VarMaxID g + 1)) (Vars g ++ [s])
         (VarMap_insert s (VarMaxID g) (VarMap g)) g)
  end.

(** [*Begin]: the first character of the segment. *)
Definition first_char (s : string) : ascii :=
  match s with String c _ => c | EmptyString => Ascii.zero end.

(** [void ParseToken(TokCond Type, const char* Begin, const char* Idx, Toks)]
    on the segment [[Begin, Idx)]; the value is [Toks] afterwards. *)
Definition ParseToken (Type_ : TokCond) (segment : string) (Toks : list Token)
  : State (list Token) :=
  match Type_ with
  | TokCond_Null => mret Toks
  | TokCond_Operator => mret (Toks ++ [Token_of_char (first_char segment)])
  | TokCond_Number => mret (Toks ++ [Token_of_int (StrToIntEx segment)])
  | TokCond_Symbol =>
      let FuncID := GetFuncID segment in
      if FuncID =? -1 then
        VarID ← GetVarID segment; mret (Toks ++ [Token_of_var VarID])
      else mret (Toks ++ [Token_of_func FuncID])
  end.

(** The loop of [GenerateTokens] over the characters from [Idx] on:
    [segment] is [[Begin, Idx)]. *)
Fixpoint GenerateTokens_from (rest : string) (segment : string) (LastType : TokCond)
  (Toks : list Token) : State (list Token) :=
  match rest with
  | EmptyString => ParseToken LastType segment Toks
  | String c rest' =>
      let CurType := Judge c in
      if TokCond_eqb LastType CurType then
        if TokCond_eqb CurType TokCond_Operator then
          GenerateTokens_from rest' (String c EmptyString) LastType
            (Toks ++ [Token_of_char (first_char segment)])
        else GenerateTokens_from rest' (segment ++ String c EmptyString)%string LastType Toks
      else
        Toks' ← ParseToken LastType segment Toks;
        GenerateTokens_from rest' (String c EmptyString) CurType Toks'
  end.

(** [void GenerateTokens(const std::string& Str, std::vector<Token>& Toks)]
    on an empty [Toks]. *)
Definition GenerateTokens (Str : string) : State (list Token) :=
  GenerateTokens_from Str EmptyString TokCond_Null [].

(** ** Tree construction *)

(** [int ExprNode::OprLevel(bool ConsiderUsedNode) const]. *)
Definition OprLevel (p : ExprNode) (ConsiderUsedNode : bool) : Z :=
  let V := ExprNode_V p in
  if TokenType_eqb (Ty V) Token_Operator then
    if bool_decide (is_Some (ExprNode_L p)) && negb ConsiderUsedNode then 0
    else if (ID V =? char_code "+") || (ID V =? char_code "-") then 1
    else if (ID V =? char_code "*") || (ID V =? char_code "/") then 2
    else if ID V =? char_code "^" then 3
    else 114514
  else 0.

(** [bool TriggerMerge(const ExprNode* Back, int CurLevel)]. *)
Definition TriggerMerge (Back : ExprNode) (CurLevel : Z) : bool :=
  if TokenType_eqb (Ty (ExprNode_V Back)) Token_Operator
     && ((ID (ExprNode_V Back) =? char_code "-") || (ID (ExprNode_V Back) =? char_code "/"))
  then CurLevel <=? OprLevel Back false
  else CurLevel <? OprLevel Back false.

(** [*pNode] with its operands set to [l] and [r]. *)
Definition with_operands (p : ExprNode) (l r : option ExprNode) : ExprNode :=
  Node (ExprNode_V p) l r.

(** [bool MergeTop(int CurLevel)] on the stacks [OprV] and [ExprV] (heads
    are [back()]); the value is the result with the stacks afterwards. *)
Fixpoint MergeTop (CurLevel : Z) (OprV ExprV : list ExprNode)
  : State (bool * list ExprNode * list ExprNode) :=
  match OprV with
  | [] => mret (true, OprV, ExprV)
  | Back :: OprV' =>
      if TriggerMerge Back CurLevel then
        match ExprV with
        | r :: l :: ExprV' =>
            MergeTop CurLevel OprV' (with_operands Back (Some l) (Some r) :: ExprV')
        | _ =>
            puts "Syntax Error: missing operand.";;
            modify_Globals (set_FailedToParse true);;
            mret (false, OprV, ExprV)
        end
      else mret (true, OprV, ExprV)
  end.

(** The [for] loop of [CreateTree] over the nodes of the range; [None] when
    [MergeTop] failed and the function returned. *)
Fixpoint CreateTree_scan (range : list ExprNode) (OprV ExprV : list ExprNode)
  (LastHasLevel : bool) : State (option (list ExprNode * list ExprNode)) :=
  match range with
  | [] => mret (Some (OprV, ExprV))
  | pNode :: range' =>
      if IsIgnoredSymbol (ExprNode_V pNode) then
        CreateTree_scan range' OprV ExprV LastHasLevel
      else
        let Level := OprLevel pNode false in
        if Level =? 0 then
          if negb LastHasLevel then
            '(ok, OprV1, ExprV1) ← MergeTop 2 OprV ExprV;
            if ok : bool then
              CreateTree_scan range' (CreateNode MUL :: OprV1) (pNode :: ExprV1) false
            else mret None
          else CreateTree_scan range' OprV (pNode :: ExprV) false
        else
          '(ok, OprV1, ExprV1) ← MergeTop Level OprV ExprV;
          if ok : bool then CreateTree_scan range' (pNode :: OprV1) ExprV1 true
          else mret None
  end.

(** [while (!OprV.empty()) if (!MergeTop(0)) return CreateNode();] run for at
    most [fuel] iterations; the inner [None] is the early return. *)
Fixpoint CreateTree_merge (fuel : nat) (OprV ExprV : list ExprNode)
  : Run (option (list ExprNode)) :=
  match OprV with
  | [] => mret (Some ExprV)
  | _ :: _ =>
      match fuel with
      | O => no_result
      | S fuel' =>
          '(ok, OprV1, ExprV1) ← lift (MergeTop 0 OprV ExprV);
          if ok : bool then CreateTree_merge fuel' OprV1 ExprV1 else mret None
      end
  end.

(** [ExprNode* CreateTree(ExprNode* Begin, ExprNode* End)] on the nodes of
    [[Begin, End)].  Every iteration of the last loop that does not return
    pops an operator or repeats for ever, so [length OprV] iterations are
    all that a run that ends can take. *)
Definition CreateTree (range : list ExprNode) : Run ExprNode :=
  match range with
  | [] => mret (CreateNode Token_default)
  | Begin :: _ =>
      let range1 :=
        if negb (OprLevel Begin false =? 0) && IsSUB (ExprNode_V Begin)
        then Const 0 :: range else range in
      scanned ← lift (CreateTree_scan range1 [] [] true);
      match scanned with
      | None => mret (CreateNode Token_default)
      | Some (OprV, ExprV) =>
          merged ← CreateTree_merge (length OprV) OprV ExprV;
          match merged with
          | None => mret (CreateNode Token_default)
          | Some ExprV' =>
              match last ExprV' with
              | Some root => mret root
              | None => no_result
              end
          end
      end
  end.

(** [bool CheckArgument(const ExprNode* E)]. *)
Fixpoint CheckArgument (E : ExprNode) : Run bool :=
  match E with
  | Node V L R =>
      if TokenType_eqb (Ty V) Token_Function then
        let NArg := match L with Some _ => 1 | None => 0 end
                    + match R with Some _ => 1 | None => 0 end in
        match Funcs_at (ID V) with
        | None => no_result
        | Some F =>
            if negb (NArg =? NParam F) then
              lift (puts ("Syntax Error: Function " ++ Name F ++ " expected "
                          ++ pretty (NParam F) ++ " Arguments, Found "
                          ++ pretty NArg ++ " Arguments")%string);;
              mret false
            else mret true
        end
      else
        OK1 ← match L with Some l => CheckArgument l | None => mret true end;
        OK2 ← match R with Some r => CheckArgument r | None => mret true end;
        mret (OK1 && OK2)
  end.

(** [struct BracketPtr { ExprNode* Left; ExprNode* Comma; }]: the positions
    of the two nodes in the chain of nodes. *)
Record BracketPtr : Set := mkBracketPtr { Left : nat; Comma : option nat }.

(** The nodes of the chain from position [a] up to position [b], excluded. *)
Definition chain_range (chain : list ExprNode) (a b : nat) : list ExprNode :=
  take (b - a) (drop a chain).

Definition quote : string := String "034" EmptyString.

Definition SyntaxError (msg : string) : State unit :=
  puts ("Syntax Error: " ++ msg)%string;; modify_Globals (set_FailedToParse true).

(** The branch of the constructor of [Expr] for a [)]: [chain] ends with the
    node of the [)], [B] is [Brackets.back()].  The value is the chain
    afterwards, up to [pCur]; [None] when the constructor returns. *)
Definition Expr_close (chain : list ExprNode) (B : BracketPtr)
  : Run (option (list ExprNode)) :=
  let pCur := (length chain - 1)%nat in
  (* [Brackets.back().Left->Prev]: the sentinel [M] before the first node *)
  let pTok := match Left B with
              | O => CreateNode Token_default
              | S i => default (CreateNode Token_default) (chain !! i)
              end in
  match Comma B with
  | Some pCom =>
      T1 ← CreateTree (chain_range chain (S (Left B)) pCom);
      T2 ← CreateTree (chain_range chain (S pCom) pCur);
      g ← lift get_Globals;
      if FailedToParse g then mret None
      else if TokenType_eqb (Ty (ExprNode_V pTok)) Token_Function then
        mret (Some (take (Left B - 1) chain ++ [with_operands pTok (Some T1) (Some T2)]))
      else
        lift (SyntaxError (quote ++ "," ++ quote ++ " is only for functions."));;
        mret None
  | None =>
      T1 ← CreateTree (chain_range chain (S (Left B)) pCur);
      g ← lift get_Globals;
      if FailedToParse g then mret None
      else if TokenType_eqb (Ty (ExprNode_V pTok)) Token_Function then
        mret (Some (take (Left B - 1) chain
                    ++ [with_operands pTok (Some T1) (ExprNode_R pTok)]))
      else mret (Some (take (Left B) chain ++ [T1]))
  end.

(** The loop of the constructor of [Expr] over the tokens, with the check
    that follows it; the value is the chain from [M.Next] to [pCur]. *)
Fixpoint Expr_scan (Toks : list Token) (chain : list ExprNode) (Brackets : list BracketPtr)
  : Run (option (list ExprNode)) :=
  match Toks with
  | [] =>
      match Brackets with
      | [] => mret (Some chain)
      | _ :: _ =>
          lift (SyntaxError ("expected " ++ quote ++ ")" ++ quote ++ "for a lonely "
                             ++ quote ++ "(" ++ quote ++ " qwq. "));;
          mret None
      end
  | T :: Toks' =>
      let pCur := length chain in
      let chain1 := chain ++ [CreateNode T] in
      if IsLBK T then Expr_scan Toks' chain1 (mkBracketPtr pCur None :: Brackets)
      else if IsCOM T then
        match Brackets with
        | B :: Brackets' =>
            match Comma B with
            | Some _ => lift (SyntaxError "Too many arguments.");; mret None
            | None => Expr_scan Toks' chain1 (mkBracketPtr (Left B) (Some pCur) :: Brackets')
            end
        | [] =>
            lift (SyntaxError (quote ++ "," ++ quote ++ "is not in a "
                               ++ quote ++ "()" ++ quote ++ "."));;
            mret None
        end
      else if IsRBK T then
        match Brackets with
        | [] => lift (SyntaxError (quote ++ ")" ++ quote ++ "is lonely."));; mret None
        | B :: Brackets' =>
            closed ← Expr_close chain1 B;
            match closed with
            | None => mret None
            | Some chain2 => Expr_scan Toks' chain2 Brackets'
            end
        end
      else Expr_scan Toks' chain1 Brackets
  end.

(** The constructor [Expr::Expr(const std::vector<Token>& Toks)] up to the
    call of [Simplify]: the value is [Root] and whether the constructor goes
    on to simplify it. *)
Definition Expr_build (Toks : list Token) : Run (option ExprNode * bool) :=
  lift (modify_Globals (set_DividedbyZero false));;
  scanned ← Expr_scan Toks [] [];
  match scanned with
  | None => mret (None, false)
  | Some chain =>
      Root ← CreateTree chain;
      ok ← CheckArgument Root;
      if ok : bool then mret (Some Root, true)
      else lift (modify_Globals (set_FailedToParse true));; mret (Some Root, false)
  end.

(** ** The simplifier *)

(** [bool ExprNode::IsConst() const]. *)
Fixpoint IsConst (p : ExprNode) : bool :=
  match p with
  | Node V L R =>
      match Ty V with
      | Token_Int => true
      | Token_Variable => false
      | Token_Function => false
      | Token_Operator =>
          match L with Some l => IsConst l | None => true end
          && match R with Some r => IsConst r | None => true end
      end
  end.

(** [bool Token::IsPOW() const]. *)
Definition IsPOW (T : Token) : bool :=
  Token_eqb T POW || Token_eqb T (Token_of_func FUNC_pow).

(** Every operator node of the tree has both operands. *)
Fixpoint operators_complete (p : ExprNode) : bool :=
  match p with
  | Node V L R =>
      (if TokenType_eqb (Ty V) Token_Operator
       then bool_decide (is_Some L) && bool_decide (is_Some R) else true)
      && match L with Some l => operators_complete l | None => true end
      && match R with Some r => operators_complete r | None => true end
  end.

(** *** The passes [Simplify_Rotate], [Simplify_01] and [Simplify_TopNeg] *)

(** The two passes of [Simplify_All01] and [Simplify_TopNeg], as the
    source has them.  A node pointer that a pass may leave null is an [option]; a pass
    has no value where the source dereferences a null operand. *)
Module Rewrites.

(** [void ReplaceInt(int x, ExprNode*& pNode)]: the node that [pNode]
    points to afterwards. *)
Definition ReplaceInt (x : Z) : ExprNode := CreateNode (Token_of_int x).

(** [pNode->HasOp0() && pNode->Ty0() == Token::Int && pNode->ID0() == x]
    on the operand [Op]. *)
Definition Op_is_Int (x : Z) (Op : option ExprNode) : bool :=
  match Op with
  | Some q => TokenType_eqb (Ty (ExprNode_V q)) Token_Int && (ID (ExprNode_V q) =? x)
  | None => false
  end.

(** [pNode->V.ID = c]. *)
Definition set_ID (V : Token) (c : ascii) : Token := mkToken (Ty V) (char_code c).

(** [bool Simplify_01Pwr(ExprNode*& pNode)]. *)
Definition Simplify_01Pwr (pNode : ExprNode) : option ExprNode * bool :=
  if Op_is_Int 0 (ExprNode_R pNode) then (Some (ReplaceInt 1), true)
  else if Op_is_Int 0 (ExprNode_L pNode) then (Some (ReplaceInt 0), true)
  else if Op_is_Int 1 (ExprNode_L pNode) then (Some (ReplaceInt 1), true)
  else if Op_is_Int 1 (ExprNode_R pNode) then (ExprNode_L pNode, true)
  else (Some pNode, false).

(** The [switch (pNode->V.Ty)] of [Simplify_01], on a node whose operands
    have been rewritten: [pNode] afterwards and whether it was changed. *)
Definition Simplify_01_switch (pNode : ExprNode) : option ExprNode * bool :=
  let V := ExprNode_V pNode in
  let L := ExprNode_L pNode in
  let R := ExprNode_R pNode in
  match Ty V with
  | Token_Int => (Some pNode, false)
  | Token_Variable => (Some pNode, false)
  | Token_Function =>
      if ID V =? FUNC_ln then
        if Op_is_Int 1 L then (Some (ReplaceInt 0), true) else (Some pNode, false)
      else if ID V =? FUNC_log then (Some pNode, false)
      else if (ID V =? FUNC_exp) || (ID V =? FUNC_cos) || (ID V =? FUNC_cosh) then
        if Op_is_Int 0 L then (Some (ReplaceInt 1), true) else (Some pNode, false)
      else if (ID V =? FUNC_sin) || (ID V =? FUNC_tan) || (ID V =? FUNC_sinh) then
        if Op_is_Int 0 L then (Some (ReplaceInt 0), true) else (Some pNode, false)
      else if ID V =? FUNC_pow then Simplify_01Pwr pNode
      else (Some pNode, false)
  | Token_Operator =>
      if ID V =? char_code "+" then
        if Op_is_Int 0 L then (R, true)
        else if Op_is_Int 0 R then (L, true)
        else (Some pNode, false)
      else if ID V =? char_code "-" then
        if Op_is_Int 0 R then (L, true)
        else if Op_is_Int 0 L then (Some (Node (set_ID V "*") (Some (ReplaceInt (-1))) R), true)
        else (Some pNode, false)
      else if ID V =? char_code "*" then
        if Op_is_Int 0 L || Op_is_Int 0 R then (Some (ReplaceInt 0), true)
        else if Op_is_Int 1 L then (R, true)
        else if Op_is_Int 1 R then (L, true)
        else (Some pNode, false)
      else if ID V =? char_code "/" then
        if Op_is_Int 0 L then (Some (ReplaceInt 0), true)
        else if Op_is_Int 1 R then (L, true)
        else (Some pNode, false)
      else if ID V =? char_code "^" then Simplify_01Pwr pNode
      else (Some pNode, false)
  end.

(** [bool Simplify_01(ExprNode*& pNode)] on a node that is not null. *)
Fixpoint Simplify_01 (pNode : ExprNode) : option ExprNode * bool :=
  match pNode with
  | Node V L R =>
      let '(L', ChangedL) :=
        match L with Some l => Simplify_01 l | None => (None, false) end in
      let '(R', ChangedR) :=
        match R with Some r => Simplify_01 r | None => (None, false) end in
      let '(q, Changed) := Simplify_01_switch (Node V L' R') in
      (q, ChangedL || ChangedR || Changed)
  end.

(** The chain of tests of [Simplify_Rotate] on a node whose operands have
    been rewritten: [pNode] afterwards and whether [Changed] was set.  [l]
    and [r] are the operands that the tests dereference. *)
Definition Simplify_Rotate_switch (pNode : ExprNode) : option (ExprNode * bool) :=
  let V := ExprNode_V pNode in
  let L := ExprNode_L pNode in
  let R := ExprNode_R pNode in
  if Token_eqb V ADD then
    l ← L; r ← R;
    if Token_eqb (ExprNode_V l) SUB && Token_eqb (ExprNode_V r) SUB then
      Some (Node (set_ID V "-")
              (Some (Node (set_ID (ExprNode_V l) "+") (ExprNode_L l) (ExprNode_L r)))
              (Some (Node (set_ID (ExprNode_V r) "+") (ExprNode_R l) (ExprNode_R r))),
            false)
    else if Token_eqb (ExprNode_V r) SUB then
      Some (Node (ExprNode_V r) (Some (Node V L (ExprNode_L r))) (ExprNode_R r), true)
    else if Token_eqb (ExprNode_V l) SUB then
      Some (Node (ExprNode_V l) (Some (Node V (ExprNode_L l) R)) (ExprNode_R l), true)
    else Some (pNode, false)
  else if Token_eqb V SUB then
    l ← L; r ← R;
    if Token_eqb (ExprNode_V l) SUB && Token_eqb (ExprNode_V r) SUB then
      Some (Node V
              (Some (Node (set_ID (ExprNode_V l) "+") (ExprNode_L l) (ExprNode_R r)))
              (Some (Node (set_ID (ExprNode_V r) "+") (ExprNode_L r) (ExprNode_R l))),
            false)
    else if Token_eqb (ExprNode_V r) SUB then
      Some (Node (ExprNode_V r) (Some (Node (set_ID V "+") L (ExprNode_R r))) (ExprNode_L r),
            true)
    else if Token_eqb (ExprNode_V l) SUB then
      Some (Node (ExprNode_V l) (ExprNode_L l) (Some (Node (set_ID V "+") (ExprNode_R l) R)),
            true)
    else Some (pNode, false)
  else if Token_eqb V MUL then
    l ← L; r ← R;
    if Token_eqb (ExprNode_V l) DIV && Token_eqb (ExprNode_V r) DIV then
      Some (Node (set_ID V "/")
              (Some (Node (set_ID (ExprNode_V l) "*") (ExprNode_L l) (ExprNode_L r)))
              (Some (Node (set_ID (ExprNode_V r) "*") (ExprNode_R l) (ExprNode_R r))),
            false)
    else if Token_eqb (ExprNode_V r) DIV then
      Some (Node (ExprNode_V r) (Some (Node V L (ExprNode_L r))) (ExprNode_R r), true)
    else if Token_eqb (ExprNode_V l) DIV then
      Some (Node (ExprNode_V l) (Some (Node V (ExprNode_L l) R)) (ExprNode_R l), true)
    else Some (pNode, false)
  else if Token_eqb V DIV then
    l ← L; r ← R;
    if Token_eqb (ExprNode_V l) DIV && Token_eqb (ExprNode_V r) DIV then
      Some (Node V
              (Some (Node (set_ID (ExprNode_V l) "*") (ExprNode_L l) (ExprNode_R r)))
              (Some (Node (set_ID (ExprNode_V r) "*") (ExprNode_L r) (ExprNode_R l))),
            false)
    else if Token_eqb (ExprNode_V r) DIV then
      Some (Node (ExprNode_V r) (Some (Node (set_ID V "*") L (ExprNode_R r))) (ExprNode_L r),
            true)
    else if Token_eqb (ExprNode_V l) DIV then
      Some (Node (ExprNode_V l) (ExprNode_L l) (Some (Node (set_ID V "*") (ExprNode_R l) R)),
            true)
    else Some (pNode, false)
  else if IsPOW V then
    l ← L;
    if IsPOW (ExprNode_V l) then
      Some (Node (ExprNode_V l) (ExprNode_L l) (Some (Node (set_ID V "*") (ExprNode_R l) R)),
            true)
    else Some (pNode, false)
  else if Token_eqb V (Token_of_func FUNC_pow) then Some (Node POW L R, true)
  else if Token_eqb V (Token_of_func FUNC_log) then Some (BinOp DIV (Ln R) (Ln L), true)
  else Some (pNode, false).

(** [bool Simplify_Rotate(ExprNode*& pNode)] on a node that is not null. *)
Fixpoint Simplify_Rotate (pNode : ExprNode) : option (ExprNode * bool) :=
  match pNode with
  | Node V L R =>
      '(L', ChangedL) ←
        match L with
        | Some l => '(l', c) ← Simplify_Rotate l; Some (Some l', c)
        | None => Some (None, false)
        end;
      '(R', ChangedR) ←
        match R with
        | Some r => '(r', c) ← Simplify_Rotate r; Some (Some r', c)
        | None => Some (None, false)
        end;
      '(q, Changed) ← Simplify_Rotate_switch (Node V L' R');
      Some (q, ChangedL || ChangedR || Changed)
  end.

(** The tree [pNode] once the nodes that [TraverseTreeNodes_Impl] collects
    from it are the nodes [Series], in order: what the tree is after a loop
    has written to the nodes of [TraverseSeries] through their pointers.
    The second component is what is left of [Series]. *)
Fixpoint chain_store (pNode : ExprNode) (RequiredParentType : Token)
  (Series : list ExprNode) : ExprNode * list ExprNode :=
  match pNode with
  | Node V L R =>
      if Token_eqb V RequiredParentType then
        let '(L', Series1) :=
          match L with
          | Some l =>
              let '(l', s) := chain_store l RequiredParentType Series in (Some l', s)
          | None => (None, Series)
          end in
        let '(R', Series2) :=
          match R with
          | Some r =>
              let '(r', s) := chain_store r RequiredParentType Series1 in (Some r', s)
          | None => (None, Series1)
          end in
        (Node V L' R', Series2)
      else
        match Series with
        | q :: Series' => (q, Series')
        | [] => (pNode, [])
        end
  end.

(** [p->V.ID = x]. *)
Definition set_ID_int (p : ExprNode) (x : Z) : ExprNode :=
  match p with Node V L R => Node (mkToken (Ty V) x) L R end.

(** The loop of [Simplify_TopNeg] over [TraverseSeries] from the index
    [_I] on, with the locals [Neg], [FirstNeg] and [Changed]: the nodes and
    the locals afterwards. *)
Fixpoint TopNeg_loop (_I : nat) (Series : list ExprNode) (Neg FirstNeg Changed : bool)
  : list ExprNode * (bool * bool * bool) :=
  match Series with
  | [] => ([], (Neg, FirstNeg, Changed))
  | p :: Series' =>
      if TokenType_eqb (Ty (ExprNode_V p)) Token_Int && (ID (ExprNode_V p) =? -1) then
        match _I with
        | S _ =>
            let '(s, locals) := TopNeg_loop (S _I) Series' (negb Neg) FirstNeg true in
            (set_ID_int p 1 :: s, locals)
        | O =>
            let '(s, locals) := TopNeg_loop (S _I) Series' Neg true Changed in
            (p :: s, locals)
        end
      else
        let '(s, locals) := TopNeg_loop (S _I) Series' Neg FirstNeg Changed in
        (p :: s, locals)
  end.

(** [bool Simplify_TopNeg(ExprNode*& pNode)] on a node that is not null:
    [pNode] afterwards and the value returned.  There is no value where the
    source reads [TraverseSeries[0]] of an empty series. *)
Definition Simplify_TopNeg (pNode : ExprNode) : option (ExprNode * bool) :=
  if Token_eqb (ExprNode_V pNode) MUL then
    match TraverseTreeNodes_Impl pNode MUL with
    | [] => None
    | Series =>
        let '(Series', (Neg, FirstNeg, Changed)) := TopNeg_loop 0 Series false false false in
        if Neg then
          if FirstNeg then
            match Series' with
            | first :: rest =>
                Some ((chain_store pNode MUL (set_ID_int first 1 :: rest)).1, Changed)
            | [] => None
            end
          else Some (BinOp MUL (Const (-1)) (chain_store pNode MUL Series').1, Changed)
        else Some ((chain_store pNode MUL Series').1, Changed)
    end
  else Some (pNode, false).

End Rewrites.

(** *** The passes kept as parameters *)

(** What the code kept as a parameter does with fractions, in the order in
    which it does it: a call [Fraction(N, D)] of the constructor, or the
    extraction [ExtractGCD(Coefficients.begin(), Coefficients.end())] of
    the common factor [Tg] in [FinalFold_GCDPoly], with the test [Tg == 0]
    that follows it. *)
Inductive Arithmetic : Type :=
| Constructs (N D : Z)
| ExtractsFactor (Coefficients : list Fraction).

(** [Constructs N D] as the source runs it: the constructor. *)
Definition Fraction_construct (N D : Z) : State unit :=
  Fraction_make N D;; mret tt.

(** [ExtractsFactor Coefficients] as the source runs it:
    [auto Tg = ExtractGCD(...); ... if (Tg == 0) { if(!DividedbyZero)puts(...);
    DividedbyZero = true; return; }].  There is no value for an empty
    range. *)
Definition Factor_extract (Coefficients : list Fraction) : Run unit :=
  match ExtractGCD Coefficients with
  | Some make =>
      lift (Tg ← make;
            if Fraction_eqb_int Tg 0 then ReportDividedbyZero else mret tt)
  | None => no_result
  end.

Definition perform (a : Arithmetic) : Run unit :=
  match a with
  | Constructs N D => lift (Fraction_construct N D)
  | ExtractsFactor Coefficients => Factor_extract Coefficients
  end.

Fixpoint perform_all (l : list Arithmetic) : Run unit :=
  match l with
  | [] => mret tt
  | a :: l' => perform a;; perform_all l'
  end.

(** Whether [a] meets a zero denominator: the constructor is handed the
    denominator 0, or the common factor extracted is 0 (every coefficient
    is 0) or has the denominator 0 (the least common multiple of the
    denominators is 0 as an [int]).  This looks at the numbers only, not at
    what is reported. *)
Definition detects (a : Arithmetic) : bool :=
  match a with
  | Constructs N D => D =? 0
  | ExtractsFactor Coefficients =>
      match ExtractGCD Coefficients with
      | Some make =>
          let Tg := (make Globals_fresh).1 in
          Fraction_eqb_int Tg 0 || (Fraction_D Tg =? 0)
      | None => false
      end
  end.

(** What a pass that touches the globals yields: the tree, the value it
    returns ([Changed]), the set [Extracted] afterwards, and what it does
    with fractions. *)
Record Rewritten : Type := mkRewritten {
  tree : ExprNode;
  changed : bool;
  extracted : gset Z;
  arithmetic : list Arithmetic
}.

(** The code of the passes that is kept as a parameter: what
    [Simplify_SpecialFuncs], [Simplify_Neg] and [FinalFold_Neg] do to an
    operator or function node once its operands are rewritten, what
    [Simplify_FoldConst] does to an operator node once its operands are
    rewritten, what [Simplify_Polynomial] does to a sum with a term that is
    not a constant with all its operands, and what [FinalFold_GCDPoly] does
    to a tree other than the integer 0.  A rule has no value where that
    code does not return: it dereferences a null pointer, or a loop of it,
    or the call of [Simplify] in [Simplify_Polynomial], does not end.  None
    of this code leaves the pointer it is given null (it assigns to it only
    nodes it has made or has dereferenced).  The traversals, the tests that
    select the rules, [Simplify_Rotate], [Simplify_01], [Simplify_TopNeg],
    the driver and the finalisation are those of the source.  The last
    three rules build fractions and use [Extracted]; this code reads and
    writes no other global, and [DividedbyZero] and the output only by
    building fractions and extracting the common factor. *)
Record RewriteRules : Type := mkRewriteRules {
  SpecialFuncs_rule : ExprNode -> option (ExprNode * bool);
  Neg_rule : ExprNode -> option (ExprNode * bool);
  FinalFold_Neg_rule : ExprNode -> option (ExprNode * bool);
  FoldConst_rule : ExprNode -> gset Z -> option Rewritten;
  Polynomial_rule : ExprNode -> gset Z -> option Rewritten;
  GCDPoly_rule : ExprNode -> gset Z -> option Rewritten
}.

(** A value that may be missing, as code that may have no result. *)
Definition of_option {A : Type} (o : option A) : Run A :=
  fun g => match o with Some a => Some (a, g) | None => None end.

(** A rule that touches the globals, run in the state.  The count of the
    zero denominators met is taken from what the rule does with fractions,
    before it is done. *)
Definition run_rule (rule : ExprNode -> gset Z -> option Rewritten) (p : ExprNode)
  : Run (ExprNode * bool) :=
  g ← lift get_Globals;
  w ← of_option (rule p (Extracted g));
  lift (modify_Globals (set_Extracted (extracted w)));;
  lift (modify_Globals (count_ZeroDenominators (length (List.filter detects (arithmetic w)))));;
  perform_all (arithmetic w);;
  mret (tree w, changed w).

(** The shape shared by [Simplify_SpecialFuncs], [Simplify_Neg] and
    [FinalFold_Neg]: the left operand, the right operand, and then the node
    itself when [applies] selects its token (a null pointer is passed
    over). *)
Fixpoint bottom_up (applies : Token -> bool) (rule : ExprNode -> option (ExprNode * bool))
  (p : ExprNode) : option (ExprNode * bool) :=
  match p with
  | Node V L R =>
      '(L', ChangedL) ←
        match L with
        | Some l => '(l', c) ← bottom_up applies rule l; Some (Some l', c)
        | None => Some (None, false)
        end;
      '(R', ChangedR) ←
        match R with
        | Some r => '(r', c) ← bottom_up applies rule r; Some (Some r', c)
        | None => Some (None, false)
        end;
      if applies V then
        '(q, c) ← rule (Node V L' R'); Some (q, ChangedL || ChangedR || c)
      else Some (Node V L' R', ChangedL || ChangedR)
  end.

(** The [switch (pNode->V.Ty)] of these passes has cases for
    [Token::Function] and [Token::Operator] only. *)
Definition Function_or_Operator (V : Token) : bool :=
  TokenType_eqb (Ty V) Token_Function || TokenType_eqb (Ty V) Token_Operator.

(** *** The driver *)

(** Whether [ExprNode::Hash] returns on the tree [n]: under [+] and [*] it
    reads [C[0]] of the vector [C] of the nodes of the chain, which is
    empty when the chain has no node; it hashes every node of the chain,
    and both operands under any other token. *)
Fixpoint Hash_defined (n : ExprNode) : bool :=
  match n with
  | Node V L R =>
      if Token_eqb V ADD || Token_eqb V MUL then
        let terms :=
          fix terms (q : ExprNode) : bool * bool :=
            match q with
            | Node V' L' R' =>
                if Token_eqb V' V then
                  let l := match L' with Some l => terms l | None => (false, true) end in
                  let r := match R' with Some r => terms r | None => (false, true) end in
                  (l.1 || r.1, l.2 && r.2)
                else (true, Hash_defined q)
            end in
        let l := match L with Some l => terms l | None => (false, true) end in
        let r := match R with Some r => terms r | None => (false, true) end in
        (l.1 || r.1) && (l.2 && r.2)
      else
        match L with Some l => Hash_defined l | None => true end
        && match R with Some r => Hash_defined r | None => true end
  end.

Section Simplifier.

Variable rules : RewriteRules.

(** [bool Simplify_All01(ExprNode*& pNode)] on a node that is not null:
    [pNode] afterwards, which [Simplify_01] may leave null. *)
Definition Simplify_All01 (p : ExprNode) : option (option ExprNode * bool) :=
  '(p1, c1) ← Rewrites.Simplify_Rotate p;
  let '(p2, c2) := Rewrites.Simplify_01 p1 in
  Some (p2, c1 || c2).

(** [bool Simplify_SpecialFuncs(ExprNode*& pNode)]. *)
Definition Simplify_SpecialFuncs : ExprNode -> option (ExprNode * bool) :=
  bottom_up Function_or_Operator (SpecialFuncs_rule rules).

(** [bool Simplify_Neg(ExprNode*& pNode)]. *)
Definition Simplify_Neg : ExprNode -> option (ExprNode * bool) :=
  bottom_up Function_or_Operator (Neg_rule rules).

(** [bool FinalFold_Neg(ExprNode*& pNode)]. *)
Definition FinalFold_Neg : ExprNode -> option (ExprNode * bool) :=
  bottom_up Function_or_Operator (FinalFold_Neg_rule rules).

(** [bool Simplify_FoldConst(ExprNode*& pNode)] on a node that is not
    null: the operands first, then the node when it is an operator. *)
Fixpoint Simplify_FoldConst (p : ExprNode) : Run (ExprNode * bool) :=
  match p with
  | Node V L R =>
      '(L', ChangedL) ←
        match L with
        | Some l => '(l', c) ← Simplify_FoldConst l; mret (Some l', c)
        | None => mret (None, false)
        end;
      '(R', ChangedR) ←
        match R with
        | Some r => '(r', c) ← Simplify_FoldConst r; mret (Some r', c)
        | None => mret (None, false)
        end;
      if TokenType_eqb (Ty V) Token_Operator then
        '(q, c) ← run_rule (FoldConst_rule rules) (Node V L' R');
        mret (q, ChangedL || ChangedR || c)
      else mret (Node V L' R', ChangedL || ChangedR)
  end.

(** [bool Simplify_Polynomial(ExprNode*& pNode)] on a node that is not
    null.  It reads [C[0]] of the vector of the terms of the sum, which is
    empty when the sum has no term.  Each of its five stages skips the
    terms that are constant; on those it only computes their hashes and the
    hashes of their factors, for which every operator must have its
    operands. *)
Definition Simplify_Polynomial (p : ExprNode) : Run (ExprNode * bool) :=
  match TraverseTreeNodes_Impl p ADD with
  | [] => no_result
  | C =>
      if forallb (fun q => IsConst q && operators_complete q) C then mret (p, false)
      else run_rule (Polynomial_rule rules) p
  end.

(** [void FinalFold_GCDPoly(ExprNode*& pNode)] on a node that is not null:
    it returns at once on the integer 0. *)
Definition FinalFold_GCDPoly (p : ExprNode) : Run ExprNode :=
  if Token_eqb (ExprNode_V p) (Token_of_int 0) then mret p
  else '(q, _) ← run_rule (GCDPoly_rule rules) p; mret q.

(** The loop of [FinalFold]:
    [do { Changed = false; Changed |= Simplify_FoldConst(pNode);
          Changed |= Simplify_All01(pNode); } while (Changed);]
    for at most [fuel] iterations.  Both passes return false on a null
    pointer. *)
Fixpoint FinalFold_loop (fuel : nat) (p : option ExprNode) : Run (option ExprNode) :=
  match fuel with
  | O => no_result
  | S fuel' =>
      match p with
      | None => mret None
      | Some q =>
          '(p1, c1) ← Simplify_FoldConst q;
          '(p2, c2) ← of_option (Simplify_All01 p1);
          if c1 || c2 then FinalFold_loop fuel' p2 else mret p2
      end
  end.

(** [void FinalFold(ExprNode*& pNode)] on a node that is not null. *)
Definition FinalFold (fuel : nat) (p : ExprNode) : Run (option ExprNode) :=
  p1 ← FinalFold_GCDPoly p;
  '(p2, _) ← of_option (FinalFold_Neg p1);
  '(p3, _) ← of_option (Rewrites.Simplify_TopNeg p2);
  FinalFold_loop fuel (Some p3).

(** The body of the loop of [Simplify] on a node that is not null: the
    six passes in order.  When [Simplify_All01] leaves the pointer null,
    [Simplify_Neg] returns at once and [Simplify_TopNeg] dereferences
    it. *)
Definition Simplify_passes (p : ExprNode) : Run ExprNode :=
  '(p1, _) ← of_option (Simplify_All01 p);
  match p1 with
  | None => no_result
  | Some q1 =>
      '(p2, _) ← of_option (Simplify_Neg q1);
      '(p3, _) ← of_option (Rewrites.Simplify_TopNeg p2);
      '(p4, _) ← of_option (Simplify_SpecialFuncs p3);
      '(p5, _) ← Simplify_Polynomial p4;
      '(p6, _) ← Simplify_FoldConst p5;
      mret p6
  end.

(** The loop of [Simplify]:
    [do { ... } while (Occurred.insert(pNode->Hash()).second);]
    for at most [fuel] iterations.  The value is the tree and the set
    [Occurred] when the loop is left. *)
Fixpoint Simplify_loop (fuel : nat) (Occurred : gset Z) (p : ExprNode)
  : Run (ExprNode * gset Z) :=
  match fuel with
  | O => no_result
  | S fuel' =>
      p' ← Simplify_passes p;
      if Hash_defined p' then
        if decide (Hash p' ∈ Occurred) then mret (p', Occurred)
        else Simplify_loop fuel' ({[Hash p']} ∪ Occurred) p'
      else no_result
  end.

(** [void Simplify(ExprNode*& pNode)] on a node that is not null; each of
    its two loops may take [fuel] iterations.  The value is [pNode]
    afterwards, which the loop of [FinalFold] may leave null. *)
Definition Simplify (fuel : nat) (p : ExprNode) : Run (option ExprNode) :=
  '(p', _) ← Simplify_loop fuel ∅ p;
  FinalFold fuel p'.

End Simplifier.

(** ** Printing *)

(** [putchar(V.ID)]: the character with that code. *)
Definition char_of_code (z : Z) : string :=
  String (ascii_of_N (Z.to_N (z mod 256))) EmptyString.

(** [void ExprNode::PrintTree(const ExprNode* Parent, int& PrintedCount,
    bool IsLeft) const]: the text printed and [PrintedCount] afterwards.
    [Parent] is the token of the parent; [vars] is [Vars].  There is no
    value where the source dereferences a null operand or reads outside
    [Vars] or [Funcs]. *)
Fixpoint PrintTree (vars : list string) (p : ExprNode) (Parent : option Token)
  (PrintedCount : Z) (IsLeft : bool) : option (string * Z) :=
  match p with
  | Node V L R =>
      let tpc := PrintedCount in
      match Ty V with
      | Token_Int =>
          if (0 <=? ID V) || negb (bool_decide (is_Some Parent))
          then Some (pretty (ID V), wrap32 (PrintedCount + 1))
          else Some ("(" ++ pretty (ID V) ++ ")", wrap32 (PrintedCount + 1))%string
      | Token_Variable =>
          if ID V <? 0 then None
          else text ← vars !! Z.to_nat (ID V); Some (text, wrap32 (PrintedCount + 1))
      | Token_Operator =>
          l ← L; r ← R;
          let Neg := (ID V =? char_code "*") && Token_eqb (ExprNode_V l) (Token_of_int (-1)) in
          let NeedsBracket0 :=
            match Parent with
            | Some PV =>
                if TokenType_eqb (Ty PV) Token_Operator then
                  let PL := OprLevel (CreateNode PV) true in
                  let ML := OprLevel p true in
                  (ML <? PL)
                  || ((PL =? ML) && negb (PL =? 0)
                      && (((ID PV =? char_code "-") && negb IsLeft)
                          || ((ID PV =? char_code "/") && negb IsLeft)
                          || ((ID PV =? char_code "^") && IsLeft)))
                else false
            | None => false
            end in
          let NeedsBracket :=
            negb (Neg && (tpc =? 0))
            && (NeedsBracket0 || (bool_decide (is_Some Parent) && Neg)) in
          '(left_text, count1) ←
            (if Neg then Some ("-", PrintedCount)
             else
               '(t, c) ← PrintTree vars l (Some V) PrintedCount true;
               if negb ((ID V =? char_code "*")
                        && TokenType_eqb (Ty (ExprNode_V l)) Token_Int
                        && negb (TokenType_eqb (Ty (ExprNode_V r)) Token_Int))
               then Some (t ++ char_of_code (ID V), c)%string
               else Some (t, c));
          '(right_text, count2) ← PrintTree vars r (Some V) count1 false;
          Some ((if NeedsBracket then "(" else "") ++ left_text ++ right_text
                ++ (if NeedsBracket then ")" else ""), wrap32 (count2 + 1))%string
      | Token_Function =>
          F ← Funcs_at (ID V);
          l ← L;
          '(left_text, count1) ← PrintTree vars l (Some V) PrintedCount true;
          if NParam F =? 2 then
            r ← R;
            '(right_text, count2) ← PrintTree vars r (Some V) count1 false;
            Some (Name F ++ "(" ++ left_text ++ "," ++ right_text ++ ")",
                  wrap32 (count2 + 1))%string
          else Some (Name F ++ "(" ++ left_text ++ ")", wrap32 (count1 + 1))%string
      end
  end.

(** The line that [Root->PrintTree(); putchar('\n');] completes. *)
Definition PrintTree_text (vars : list string) (Root : ExprNode) : option string :=
  '(text, _) ← PrintTree vars Root None 0 false; Some text.

(** ** A round of [main] *)

Section Round.

Variable rules : RewriteRules.

(** [Expr::Expr(const std::vector<Token>& Toks)]; the value is [Root]. *)
Definition Expr_of_tokens (fuel : nat) (Toks : list Token) : Run (option ExprNode) :=
  '(Root, go) ← Expr_build Toks;
  match Root with
  | Some root => if go : bool then Simplify rules fuel root else mret Root
  | None => mret None
  end.

(** [Expr::Expr(const Expr& F, int DX)]; [F] is the root of the expression
    differentiated and the value is [Root].  There is no value where
    [F.Root->Partial(DX)] dereferences a null root. *)
Definition Expr_partial (fuel : nat) (F : option ExprNode) (DX : Z)
  : Run (option ExprNode) :=
  lift (modify_Globals (set_DividedbyZero false));;
  f ← of_option F;
  Root ← of_option (Partial f DX);
  Simplify rules fuel Root.

(** What [Expr::Print] prints before the end of the line:
    [if (Root) Root->PrintTree(); else printf("NULL");] *)
Definition Print_text (vars : list string) (Root : option ExprNode) : option string :=
  match Root with
  | Some root => PrintTree_text vars root
  | None => Some "NULL"
  end.

(** The body of the loop of [main] over the entries of [VarMap]:
    [Expr Partial(Original, ID); if (DividedbyZero) continue;
     printf("%s: ", Name.c_str()); Partial.Print();] *)
Definition main_derivative (fuel : nat) (Original : option ExprNode)
  (entry : string * Z) : Run unit :=
  let (Name, VarID) := entry in
  Root ← Expr_partial fuel Original VarID;
  g ← lift get_Globals;
  if DividedbyZero g then mret tt
  else
    text ← of_option (Print_text (Vars g) Root);
    lift (puts (Name ++ ": " ++ text)%string).

(** [for (auto [Name, ID] : VarMap) ...] over the entries [entries]. *)
Fixpoint main_derivatives (fuel : nat) (Original : option ExprNode)
  (entries : list (string * Z)) : Run unit :=
  match entries with
  | [] => mret tt
  | entry :: entries' =>
      main_derivative fuel Original entry;;
      main_derivatives fuel Original entries'
  end.

(** One iteration of the loop of [main] on the line [Expression], from
    the state that [RoundGuard] sets up to the one its destructor finds.
    The lines printed are in [Output]. *)
Definition main_round (fuel : nat) (Expression : string) : option Globals :=
  let run : Run unit :=
    Toks ← lift (GenerateTokens Expression);
    Original ← Expr_of_tokens fuel Toks;
    g ← lift get_Globals;
    if FailedToParse g || DividedbyZero g then mret tt
    else main_derivatives fuel Original (VarMap g) in
  match run Globals_fresh with
  | Some (_, g) => Some g
  | None => None
  end.

End Round.

(** The rules that rewrite nothing.  They stand for [RewriteRules] where a
    statement is run on an input on which no rule is consulted. *)
Definition no_rewrite : RewriteRules :=
  mkRewriteRules
    (fun p => Some (p, false)) (fun p => Some (p, false)) (fun p => Some (p, false))
    (fun p e => Some (mkRewritten p false e []))
    (fun p e => Some (mkRewritten p false e []))
    (fun p e => Some (mkRewritten p false e [])).


(** ** Statements *)

(** A node that [CreateTree] takes for an operand: it has no precedence
    level of its own and is no bracket or comma. *)
Definition IsOperand (p : ExprNode) : bool :=
  (OprLevel p false =? 0) && negb (IsIgnoredSymbol (ExprNode_V p)).

(** The five binary operators, as the lexer makes their tokens. *)
Definition binary_operators : list Token := [ADD; SUB; MUL; DIV; POW].

(** The line [Expression] lexed in a fresh round and handed to the
    constructor of [Expr], up to the call of [Simplify]: the value is
    [Root] and [Vars]. *)
Definition parse_line (Expression : string) : option (option ExprNode * list string) :=
  let (Toks, g) := GenerateTokens Expression Globals_fresh in
  match Expr_build Toks g with
  | Some ((Root, _), g') => Some (Root, Vars g')
  | None => None
  end.

(** The variable with id [VarID]. *)
Definition Var (VarID : Z) : ExprNode := CreateNode (Token_of_var VarID).

(** A run of letters. *)
Definition all_alpha (s : string) : bool := forallb isalpha (list_ascii_of_string s).

(** Whether [CreateTree] merges the operator [op1] on top of the stack
    before it pushes the incoming operator [op2]: when [op1] binds strictly
    tighter, or as tight and is [-] or [/]. *)
Definition merges_first (op1 op2 : Token) : bool :=
  let l1 := OprLevel (CreateNode op1) false in
  let l2 := OprLevel (CreateNode op2) false in
  (l2 <? l1) || ((l2 =? l1) && (Token_eqb op1 SUB || Token_eqb op1 DIV)).

(** The loop of [Simplify], started with the set [Occurred], is decided in
    the iteration [n]: with fewer iterations allowed it has no result, and
    with [n] or more it has the outcome it has with [n], which is a result,
    or none when a pass of the iteration [n] does not return. *)
Definition decided_in (rules : RewriteRules) (Occurred : gset Z) (p : ExprNode)
  (g : Globals) (n : nat) : Prop :=
  (forall m, (n <= m)%nat ->
     Simplify_loop rules m Occurred p g = Simplify_loop rules n Occurred p g) /\
  (forall m, (m < n)%nat -> Simplify_loop rules m Occurred p g = None).

(** The lines that the derivation for the variable [Name] adds to the
    output: the report of a zero denominator when the derivation ends with
    the flag raised, and the derivative, printed as [text], otherwise. *)
Definition derivation_lines (Name : string) (raised : bool) (text : string) : list string :=
  if raised then [RuntimeError] else [(Name ++ ": " ++ text)%string].

(** A line that the loop of [main] may print for the entry [entry] of
    [VarMap]. *)
Definition derivation_line (entry : string * Z) (line : string) : Prop :=
  exists raised text, [line] = derivation_lines entry.1 raised text.

(** The order of [std::less<std::string>]. *)
Definition String_lt (a b : string) : Prop := String.compare a b = Lt.

(** What the simplifier may do to the globals: it leaves the variable
    table and [FailedToParse] alone; [DividedbyZero] is raised afterwards if
    it was raised before or a zero denominator has been met; and one line,
    the report, is printed if the flag was down and a zero denominator has
    been met, however many times. *)
Definition simplifies (g g' : Globals) : Prop :=
  VarMaxID g' = VarMaxID g /\ Vars g' = Vars g /\ VarMap g' = VarMap g /\
  FailedToParse g' = FailedToParse g /\
  (ZeroDenominators g <= ZeroDenominators g')%nat /\
  DividedbyZero g'
  = DividedbyZero g || (ZeroDenominators g <? ZeroDenominators g')%nat /\
  Output g'
  = Output g ++ (if negb (DividedbyZero g)
                    && (ZeroDenominators g <? ZeroDenominators g')%nat
                 then [RuntimeError] else []).

(** What the construction of the tree may do to the globals: it leaves
    the variable table, [Extracted] and [DividedbyZero] alone, it never
    lowers [FailedToParse], and it prints only when it raises that flag. *)
Definition parses (g g' : Globals) : Prop :=
  VarMaxID g' = VarMaxID g /\ Vars g' = Vars g /\ VarMap g' = VarMap g /\
  Extracted g' = Extracted g /\ DividedbyZero g' = DividedbyZero g /\
  (FailedToParse g = true -> FailedToParse g' = true) /\
  (FailedToParse g' = false -> Output g' = Output g).

(** A line whose characters are no tokens. *)
Definition no_token_characters (s : string) : Prop :=
  forall c, In c (list_ascii_of_string s) -> Judge c = TokCond_Null.

(** Code whose every run takes a state to one related to it by [R]. *)
Definition State_ok (R : Globals -> Globals -> Prop) {A : Type} (m : State A) : Prop :=
  forall g, R g (m g).2.
Definition Run_ok (R : Globals -> Globals -> Prop) {A : Type} (m : Run A) : Prop :=
  forall g a g', m g = Some (a, g') -> R g g'.

(** The variable table is in order: the keys of [VarMap] ascend, and they
    are the names in [Vars], which lists them as they first occurred. *)
Definition VarTable_ok (g : Globals) : Prop :=
  Sorted String_lt (map fst (VarMap g)) /\ Permutation (map fst (VarMap g)) (Vars g).

(** What the lexer may do to the globals: nothing but to the variable
    table. *)
Definition lexes (g g' : Globals) : Prop :=
  Extracted g' = Extracted g /\ FailedToParse g' = FailedToParse g /\
  DividedbyZero g' = DividedbyZero g /\ Output g' = Output g.


(** ** Further statements about the lexer *)

(** A run of digits, and a run of operator characters. *)
Definition all_digits (s : string) : bool := forallb isdigit (list_ascii_of_string s).
Definition all_operators (s : string) : bool := forallb IsOpr (list_ascii_of_string s).

(** The variable table is indexed: [VarMaxID] is the number of names in
    [Vars], and [VarMap] sends a name to the position it has in [Vars]. *)
Definition VarTable_indexed (g : Globals) : Prop :=
  VarMaxID g = Z.of_nat (length (Vars g)) /\
  forall s id, VarMap_find s (VarMap g) = Some id ->
    0 <= id /\ Vars g !! Z.to_nat id = Some s.

(** A token that, if it is a variable, has its name in [vars]. *)
Definition Token_in_table (vars : list string) (T : Token) : Prop :=
  Ty T = Token_Variable -> 0 <= ID T /\ is_Some (vars !! Z.to_nat (ID T)).

(** The loop of [StrToIntEx] entered with [Value]. *)
Definition StrToIntEx_from (Value : Z) (s : string) : Z :=
  fold_left (fun Value c => wrap32 (wrap32 (Value * 10) + (char_code c - char_code "0")))
    (list_ascii_of_string s) Value.


(** What the lexer leaves when it has made at most [n] more tokens from
    the state [g]: an indexed table that only grew, by [n] names at most,
    and tokens whose variables are in it. *)
Definition lexed (n : nat) (g : Globals) (r : list Token * Globals) : Prop :=
  VarTable_indexed r.2 /\ Forall (Token_in_table (Vars r.2)) r.1 /\
  exists new, Vars r.2 = Vars g ++ new /\ (length new <= n)%nat.


(** ** Further statements about the construction of the tree *)

(** The state in which [MergeTop] leaves the globals [g] when an operand is
    missing: the line of the error is printed and [FailedToParse] is
    raised. *)
Definition missing_operand (g : Globals) : Globals :=
  set_FailedToParse true (set_Output (Output g ++ ["Syntax Error: missing operand."]) g).

(** The number of brackets left open after the tokens [Toks], read with
    [depth] brackets open; there is none when a [)] has no [(] to close. *)
Fixpoint bracket_depth (Toks : list Token) (depth : nat) : option nat :=
  match Toks with
  | [] => Some depth
  | T :: Toks' =>
      if IsLBK T then bracket_depth Toks' (S depth)
      else if IsRBK T then
        match depth with
        | O => None
        | S depth' => bracket_depth Toks' depth'
        end
      else bracket_depth Toks' depth
  end.

(** The function nodes of a tree that are not inside an argument of a
    function, from left to right. *)
Fixpoint outer_functions (E : ExprNode) : list ExprNode :=
  match E with
  | Node V L R =>
      if TokenType_eqb (Ty V) Token_Function then [E]
      else match L with Some l => outer_functions l | None => [] end
           ++ match R with Some r => outer_functions r | None => [] end
  end.

(** The number of operands of a node ([!!(E->L()) + !!(E->R())]). *)
Definition NArg (E : ExprNode) : Z :=
  match ExprNode_L E with Some _ => 1 | None => 0 end
  + match ExprNode_R E with Some _ => 1 | None => 0 end.

(** Whether a function node has as many operands as its function has
    parameters, and the line that [CheckArgument] prints when it has not. *)
Definition arity_ok (E : ExprNode) : bool :=
  match Funcs_at (ID (ExprNode_V E)) with
  | Some F => NArg E =? NParam F
  | None => false
  end.
Definition arity_error (E : ExprNode) : list string :=
  match Funcs_at (ID (ExprNode_V E)) with
  | Some F =>
      if NArg E =? NParam F then []
      else [("Syntax Error: Function " ++ Name F ++ " expected "
             ++ pretty (NParam F) ++ " Arguments, Found "
             ++ pretty (NArg E) ++ " Arguments")%string]
  | None => []
  end.


(** A node of the chain of the constructor of [Expr]: as [CreateNode(T)]
    made it, or a tree already built. *)
Definition chain_node (p : ExprNode) : Prop :=
  (ExprNode_L p = None /\ ExprNode_R p = None) \/ operators_complete p = true.

(** The trees on the stack [ExprV] have all their operators complete. *)
Definition all_complete (ExprV : list ExprNode) : Prop :=
  Forall (fun p => operators_complete p = true) ExprV.


(** ** Further statements about differentiation and printing *)

(** A tree in which the differentiation rules and [PrintTree] find every
    operand they dereference and every name they read: an operator has both
    operands, a function is one of [Funcs], has its first operand, and its
    second one when it takes two parameters, and a variable has its name
    among the first [nvars] of [Vars]. *)
Fixpoint WellFormed (nvars : nat) (p : ExprNode) : bool :=
  match p with
  | Node V L R =>
      match Ty V with
      | Token_Int => true
      | Token_Variable => (0 <=? ID V) && (ID V <? Z.of_nat nvars)
      | Token_Operator =>
          match L, R with
          | Some l, Some r => WellFormed nvars l && WellFormed nvars r
          | _, _ => false
          end
      | Token_Function =>
          match Funcs_at (ID V), L with
          | Some F, Some l =>
              WellFormed nvars l
              && (if NParam F =? 2
                  then match R with Some r => WellFormed nvars r | None => false end
                  else true)
          | _, _ => false
          end
      end
  end.


(** ** The value of an arithmetic tree *)

(** The rational value of a tree made of integers and variables without
    operands and of the operators [+], [-], [*] and [/] with both operands,
    under the valuation [rho] of the variables; there is none when a
    divisor is zero, or for any other tree. *)
Fixpoint value (rho : Z -> Qc) (p : ExprNode) : option Qc :=
  match p with
  | Node V L R =>
      match Ty V with
      | Token_Int =>
          match L, R with
          | None, None => Some (Q2Qc (inject_Z (ID V)))
          | _, _ => None
          end
      | Token_Variable =>
          match L, R with
          | None, None => Some (rho (ID V))
          | _, _ => None
          end
      | Token_Function => None
      | Token_Operator =>
          match L, R with
          | Some l, Some r =>
              a ← value rho l; b ← value rho r;
              if ID V =? char_code "+" then Some (a + b)%Qc
              else if ID V =? char_code "-" then Some (a - b)%Qc
              else if ID V =? char_code "*" then Some (a * b)%Qc
              else if ID V =? char_code "/" then
                if Qc_eq_dec b (Q2Qc 0) then None else Some (a / b)%Qc
              else None
          | _, _ => None
          end
      end
  end.

(** The number of nodes of a tree, and of the tree behind a pointer. *)
Fixpoint nodes (p : ExprNode) : nat :=
  match p with
  | Node V L R =>
      S (match L with Some l => nodes l | None => O end
         + match R with Some r => nodes r | None => O end)
  end.
Definition nodes_opt (p : option ExprNode) : nat :=
  match p with Some q => nodes q | None => O end.

(** What the [switch] of [Simplify_01] does to [pNode]: the tree does not
    grow; it is left as it is when [Changed] is not set; and when it is
    set, the tree has become smaller or its token another one. *)
Definition switch_ok (pNode : ExprNode) (r : option ExprNode * bool) : Prop :=
  (nodes_opt r.1 <= nodes pNode)%nat /\
  (r.2 = false -> r.1 = Some pNode) /\
  (r.2 = true ->
   (nodes_opt r.1 < nodes pNode)%nat \/
   exists q, r.1 = Some q /\ ExprNode_V q <> ExprNode_V pNode).

(** ** Further statements about a round *)

(** A line that reports a syntax error. *)
Definition syntax_error (line : string) : Prop :=
  exists msg, line = ("Syntax Error: " ++ msg)%string.

(** What the construction of the tree prints: reports of syntax errors
    only, and at least one when it raises [FailedToParse]. *)
Definition complains (g g' : Globals) : Prop :=
  exists errs, Output g' = Output g ++ errs /\ Forall syntax_error errs /\
    (FailedToParse g' = true -> FailedToParse g = true \/ errs <> []).

(** ** Constants and counting *)

(** [Fraction ExtractConst(const ExprNode* pNode)].  The source does not
    fix the order in which the two operands of an operator are taken; they
    are taken from left to right here, and the reports of a zero
    denominator, the only effect, end in the same state either way.  There
    is no value where the source dereferences a null operand. *)
Fixpoint ExtractConst (pNode : ExprNode) : Run Fraction :=
  match pNode with
  | Node V L R =>
      if TokenType_eqb (Ty V) Token_Operator then
        let operands (op : FractionOp) : Run Fraction :=
          match L, R with
          | Some l, Some r =>
              a ← ExtractConst l; b ← ExtractConst r; lift (Fraction_apply op a b)
          | _, _ => no_result
          end in
        if ID V =? char_code "+" then operands Fraction_plus
        else if ID V =? char_code "-" then operands Fraction_minus
        else if ID V =? char_code "*" then operands Fraction_times
        else if ID V =? char_code "/" then operands Fraction_over
        else mret (Fraction_of_int 0)
      else mret (Fraction_of_int (ID V))
  end.

(** [void TraverseCountTreeNodes_Impl(int& Result, const ExprNode* pNode,
    Token RequiredParentType)] on a node that is not null: [Result]
    afterwards. *)
Fixpoint TraverseCountTreeNodes_Impl (Result : Z) (pNode : ExprNode)
  (RequiredParentType : Token) : Z :=
  match pNode with
  | Node V L R =>
      if Token_eqb V RequiredParentType then
        let Result1 :=
          match L with
          | Some l => TraverseCountTreeNodes_Impl Result l RequiredParentType
          | None => Result
          end in
        match R with
        | Some r => TraverseCountTreeNodes_Impl Result1 r RequiredParentType
        | None => Result1
        end
      else wrap32 (Result + 1)
  end.

(** [int TraverseCountTreeNodes(const ExprNode* pNode, Token
    RequiredParentType)]. *)
Definition TraverseCountTreeNodes (pNode : option ExprNode) (RequiredParentType : Token) : Z :=
  match pNode with
  | Some p => TraverseCountTreeNodes_Impl 0 p RequiredParentType
  | None => 0
  end.

(** [bool ExprNode::IsConstII() const]. *)
Fixpoint IsConstII (p : ExprNode) : bool :=
  match p with
  | Node V L R =>
      match Ty V with
      | Token_Int => true
      | Token_Variable => false
      | Token_Function => false
      | Token_Operator =>
          if ID V =? char_code "^" then false
          else match L with Some l => IsConstII l | None => true end
               && match R with Some r => IsConstII r | None => true end
      end
  end.

(** A bound on the numerators and denominators that [ExtractConst] works
    with on the tree [p]: the absolute value of an integer (at least 1),
    the product of the bounds of the operands under [*] and [/], twice that
    product under [+] and [-]. *)
Fixpoint magnitude (p : ExprNode) : Z :=
  match p with
  | Node V L R =>
      if TokenType_eqb (Ty V) Token_Operator then
        let l := match L with Some l => magnitude l | None => 1 end in
        let r := match R with Some r => magnitude r | None => 1 end in
        if (ID V =? char_code "+") || (ID V =? char_code "-") then 2 * l * r else l * r
      else Z.max 1 (Z.abs (ID V))
  end.

(** The rational number that is the integer [z]. *)
Definition Qc_of_int (z : Z) : Qc := Q2Qc (inject_Z z).

(** The fraction [F] stands for the rational number [v], within the bound
    [B]. *)
Definition Fraction_is (v : Qc) (B : Z) (F : Fraction) : Prop :=
  Fraction_D F <> 0 /\ Z.abs (Fraction_N F) <= B /\ Z.abs (Fraction_D F) <= B /\
  (v * Qc_of_int (Fraction_D F))%Qc = Qc_of_int (Fraction_N F).

(** The greatest common divisor of [n0] and the numerators of [l], and the
    least common multiple of [d0] and the denominators of [l], as integers
    of any size: what the loop of [ExtractGCD] computes while nothing
    overflows. *)
Definition gcd_of (l : list Fraction) (n0 : Z) : Z :=
  fold_left (fun a p => Z.gcd a (Fraction_N p)) l n0.
Definition lcm_of (l : list Fraction) (d0 : Z) : Z :=
  fold_left (fun a p => Z.lcm a (Fraction_D p)) l d0.

(** The product of the values of the trees [l]. *)
Fixpoint chain_value (rho : Z -> Qc) (l : list ExprNode) : option Qc :=
  match l with
  | [] => Some 1%Qc
  | p :: l' => a ← value rho p; b ← chain_value rho l'; Some (a * b)%Qc
  end.

(** The node [p] is the integer constant -1. *)
Definition is_minus_one (p : ExprNode) : bool :=
  TokenType_eqb (Ty (ExprNode_V p)) Token_Int && (ID (ExprNode_V p) =? -1).

(** The node [p] is a sum or a difference of two differences, or a product
    or a quotient of two quotients. *)
Definition double_inverse (p : ExprNode) : bool :=
  match ExprNode_L p, ExprNode_R p with
  | Some l, Some r =>
      (Token_eqb (ExprNode_V p) ADD || Token_eqb (ExprNode_V p) SUB)
      && Token_eqb (ExprNode_V l) SUB && Token_eqb (ExprNode_V r) SUB
      || (Token_eqb (ExprNode_V p) MUL || Token_eqb (ExprNode_V p) DIV)
         && Token_eqb (ExprNode_V l) DIV && Token_eqb (ExprNode_V r) DIV
  | _, _ => false
  end.

(** Some node of the tree [p] is one of these. *)
Fixpoint has_double_inverse (p : ExprNode) : bool :=
  match p with
  | Node V L R =>
      double_inverse p
      || match L with Some l => has_double_inverse l | None => false end
      || match R with Some r => has_double_inverse r | None => false end
  end.
(** * Properties *)

(** ** Induction on expression trees *)

(** Structural induction that reaches through the optional children. *)
Lemma ExprNode_tree_ind (P : ExprNode -> Prop) :
  (forall V L R,
      (forall l, L = Some l -> P l) ->
      (forall r, R = Some r -> P r) ->
      P (Node V L R)) ->
  forall n, P n.
Proof.
  intros step. fix IH 1. intros [V L R].
  apply step.
  - destruct L as [l|]; intros x E; [|discriminate E].
    injection E as <-. apply IH.
  - destruct R as [r|]; intros x E; [|discriminate E].
    injection E as <-. apply IH.
Qed.

(** ** The structural hash *)

Lemma Hash_commutative_node V L R :
  Token_eqb V ADD || Token_eqb V MUL = true ->
  Hash (Node V L R) = wrap64 (Token_Hash V + (Hash_opt_terms V L + Hash_opt_terms V R)).
Proof.
  intros Hc. cbn [Hash]. rewrite Hc.
  set (terms := fix terms (q : ExprNode) : Z :=
         match q with
         | Node V' L' R' =>
             if Token_eqb V' V then
               match L' with Some l => terms l | None => 0 end +
               match R' with Some r => terms r | None => 0 end
             else TransformHash (Hash q)
         end).
  assert (E : forall q, terms q = Hash_terms V q).
  { induction q as [V' L' R' IHl IHr] using ExprNode_tree_ind.
    cbn [terms Hash_terms]. destruct (Token_eqb V' V); [|reflexivity].
    destruct L' as [l|], R' as [r|]; cbn;
      rewrite ?(IHl _ eq_refl), ?(IHr _ eq_refl); reflexivity. }
  unfold Hash_opt_terms. destruct L as [l|], R as [r|]; rewrite ?E; reflexivity.
Qed.

Lemma Hash_positional_node V L R :
  Token_eqb V ADD || Token_eqb V MUL = false ->
  Hash (Node V L R) =
  wrap64 (Token_Hash V
          + match L with Some l => TransformHash (Hash l) | None => 0 end
          + match R with Some r => TransformHash (Hash r) | None => 0 end).
Proof. intros Hc. cbn [Hash]. rewrite Hc. reflexivity. Qed.

Lemma wrap64_idem z : wrap64 (wrap64 z) = wrap64 z.
Proof. unfold wrap64. apply Z.mod_mod. lia. Qed.

Lemma wrap64_add_l a b : wrap64 (wrap64 a + b) = wrap64 (a + b).
Proof. unfold wrap64. apply Zplus_mod_idemp_l. Qed.

Lemma wrap64_range z : 0 <= wrap64 z < 2 ^ 64.
Proof. unfold wrap64. apply Z.mod_pos_bound. lia. Qed.

Lemma Hash_range n : 0 <= Hash n < 2 ^ 64.
Proof. destruct n as [V L R]. cbn [Hash]. destruct (_ || _); apply wrap64_range. Qed.

Lemma Hash_sum_app C1 C2 : Hash_sum (C1 ++ C2) = Hash_sum C1 + Hash_sum C2.
Proof.
  unfold Hash_sum. induction C1 as [|c C1 IH]; cbn [app fold_right]; [lia|].
  rewrite IH. lia.
Qed.

Lemma Hash_loop_sum C : forall H,
  wrap64 H = H -> Hash_loop H C = wrap64 (H + Hash_sum C).
Proof.
  unfold Hash_loop, Hash_sum.
  induction C as [|p C IH]; intros H HH; cbn [fold_left fold_right].
  - rewrite Z.add_0_r. symmetry. exact HH.
  - rewrite IH by apply wrap64_idem. rewrite wrap64_add_l. f_equal. lia.
Qed.

Lemma Hash_terms_traverse V q :
  Hash_terms V q = Hash_sum (TraverseTreeNodes_Impl q V).
Proof.
  induction q as [V' L' R' IHl IHr] using ExprNode_tree_ind.
  cbn [Hash_terms TraverseTreeNodes_Impl].
  destruct (Token_eqb V' V).
  - rewrite Hash_sum_app.
    destruct L' as [l|], R' as [r|];
      rewrite ?(IHl _ eq_refl), ?(IHr _ eq_refl); reflexivity.
  - unfold Hash_sum. cbn [fold_right]. lia.
Qed.

Lemma Token_eqb_refl V : Token_eqb V V = true.
Proof. unfold Token_eqb, TokenType_eqb. rewrite !Z.eqb_refl. reflexivity. Qed.

(** The hash of a [+] or [*] node is the loop of the source over the nodes
    of its chain, started at the hash of its token. *)
Lemma Hash_chain V L R :
  Token_eqb V ADD || Token_eqb V MUL = true ->
  Hash (Node V L R) = Hash_loop (Token_Hash V) (TraverseTreeNodes_Impl (Node V L R) V).
Proof.
  intros Hc. rewrite Hash_commutative_node by exact Hc.
  rewrite Hash_loop_sum by apply wrap64_idem.
  rewrite <- Hash_terms_traverse. cbn [Hash_terms]. rewrite Token_eqb_refl.
  reflexivity.
Qed.

(** C2.  The structural hash is commutative under [+] and under [*]: for
    all expression trees [a] and [b], the hash of [a + b] is the hash of
    [b + a], and the hash of [a * b] is the hash of [b * a]. *)
Theorem Hash_commutative_add_mul (a b : ExprNode) :
  Hash (BinOp ADD a b) = Hash (BinOp ADD b a) /\
  Hash (BinOp MUL a b) = Hash (BinOp MUL b a).
Proof.
  unfold BinOp, CreateNode2.
  split; rewrite !Hash_commutative_node by reflexivity;
    cbn [Hash_opt_terms]; f_equal; lia.
Qed.

(** The variables [x] and [y] with ids 0 and 1. *)
Example Hash_add_x_y :
  Hash (BinOp ADD (CreateNode (Token_of_var 0)) (CreateNode (Token_of_var 1)))
  = 10150113820975877604.
Proof. vm_compute. reflexivity. Qed.

(** Under every other token the hash adds the transformed hashes of the two
    children to the hash of the token, so it does not see which child is the
    left one. *)
Lemma Hash_positional_swap V (a b : ExprNode) :
  Token_eqb V ADD || Token_eqb V MUL = false ->
  Hash (BinOp V a b) = Hash (BinOp V b a).
Proof.
  intros Hc. unfold BinOp, CreateNode2.
  rewrite !Hash_positional_node by exact Hc. f_equal. lia.
Qed.

(** C3.  The hash of [x - y] is the hash of [y - x] for the distinct
    variables [x] (id 0) and [y] (id 1), and likewise under [/] and [^]:
    swapping the children of such a node leaves the hash unchanged. *)
Theorem Hash_sub_div_pow_swap :
  let x := CreateNode (Token_of_var 0) in
  let y := CreateNode (Token_of_var 1) in
  (Hash x =? Hash y) = false /\
  Hash (BinOp SUB x y) = Hash (BinOp SUB y x) /\
  Hash (BinOp DIV x y) = Hash (BinOp DIV y x) /\
  Hash (BinOp POW x y) = Hash (BinOp POW y x) /\
  Equal (Some (BinOp SUB x y)) (Some (BinOp SUB y x)) = true.
Proof. vm_compute. repeat split; reflexivity. Qed.

(** ** Rational coefficients *)

Lemma wrap32_Int32 z : Int32 (wrap32 z).
Proof.
  unfold Int32, Int32_min, Int32_max, wrap32.
  pose proof (Z.mod_pos_bound (z + 2 ^ 31) (2 ^ 32)). lia.
Qed.

Lemma wrap32_id z : Int32 z -> wrap32 z = z.
Proof.
  unfold Int32, Int32_min, Int32_max, wrap32. intros H.
  rewrite Z.mod_small by lia. lia.
Qed.

(** Unfolding of the state combinators. *)
Ltac state_unfold :=
  unfold mbind, mret, State_bind, State_ret, get_Globals, modify_Globals, puts in *.

Lemma ReportDividedbyZero_flag g : DividedbyZero (ReportDividedbyZero g).2 = true.
Proof.
  unfold ReportDividedbyZero. state_unfold. destruct (DividedbyZero g); reflexivity.
Qed.

Lemma Nat_ltb_succ n : (n <? S n)%nat = true.
Proof. apply Nat.ltb_lt. lia. Qed.

(** The reduction of a pair of non-zero [int]s by their greatest common
    divisor, in exact arithmetic. *)
Lemma gcd_reduce_exact (N D : Z) :
  D <> 0 ->
  let G := Z.gcd N D in
  0 < G /\ N = Z.quot N G * G /\ D = Z.quot D G * G /\
  Z.gcd (Z.quot N G) (Z.quot D G) = 1.
Proof.
  intros HD G.
  assert (HG : 0 < G).
  { pose proof (Z.gcd_nonneg N D). assert (G <> 0); [|unfold G in *; lia].
    unfold G. intros E. apply Z.gcd_eq_0_r in E. contradiction. }
  destruct (Z.gcd_divide_l N D) as [a Ha], (Z.gcd_divide_r N D) as [b Hb].
  fold G in Ha, Hb.
  assert (Ea : Z.quot N G = a) by (rewrite Ha; apply Z.quot_mul; lia).
  assert (Eb : Z.quot D G = b) by (rewrite Hb; apply Z.quot_mul; lia).
  rewrite Ea, Eb. repeat split; try assumption.
  pose proof (Z.gcd_div_gcd N D G ltac:(lia) eq_refl) as H1.
  rewrite Ha in H1 at 1. rewrite Hb in H1 at 1. rewrite !Z.div_mul in H1 by lia.
  exact H1.
Qed.

Lemma Fraction_make_constructed (N D : Z) (g : Globals) :
  Int32 N -> Int32 D -> Fraction_constructed N D g (Fraction_make N D g).
Proof.
  intros HN HD. unfold Fraction_constructed, Fraction_make, Fraction_Simplify.
  cbn [Fraction_N Fraction_D]. split.
  - intros ->. cbn. state_unfold.
    pose proof (ReportDividedbyZero_flag g) as Hf.
    destruct (ReportDividedbyZero g) as [[] g']. split; [reflexivity|exact Hf].
  - intros HD0. destruct (Z.eqb_spec D 0) as [|_]; [contradiction|].
    destruct (Z.eqb_spec N 0) as [->|HN0]; cbn.
    + repeat split; lia.
    + destruct (gcd_reduce_exact N D HD0) as (HG & Ha & Hb & Hg).
      remember (Z.gcd N D) as G eqn:EG.
      remember (Z.quot N G) as a eqn:Ea. remember (Z.quot D G) as b eqn:Eb.
      unfold Int32, Int32_min, Int32_max in HN, HD.
      assert (HGle : G <= 2 ^ 31).
      { assert (G <= Z.abs D); [|lia].
        assert (Z.abs G <= Z.abs D); [|lia].
        rewrite EG. apply Z.absle_divide; [apply Z.gcd_divide_r|exact HD0]. }
      unfold std_gcd. rewrite <- EG.
      destruct (Z.eq_dec G (2 ^ 31)) as [E|NE].
      * (* both are the least [int] *)
        assert (EN : N = - 2 ^ 31) by nia. assert (ED : D = - 2 ^ 31) by nia.
        clear - E EN ED. subst G N D.
        split; [reflexivity|]. split; [reflexivity|]. split; [reflexivity|].
        split; [intros H; discriminate H|]. split; [intros H; discriminate H|].
        split; [|reflexivity].
        intros _ _ H. exfalso. apply H. split; reflexivity.
      * rewrite (wrap32_id G) by (unfold Int32, Int32_min, Int32_max; lia).
        unfold int_div. rewrite <- Ea, <- Eb.
        assert (Int32 a /\ Int32 b) as [Ia Ib].
        { unfold Int32, Int32_min, Int32_max. nia. }
        rewrite !wrap32_id by assumption.
        split; [reflexivity|]. split; [exact Hg|]. split; [nia|].
        split; [intros; contradiction|]. split; [nia|]. split; [nia|].
        unfold Int32_min. intros E1 E2. exfalso. apply NE.
        rewrite EG, E1, E2. reflexivity.
Qed.

(** C6 (amended).  Every [Fraction] produced by the two-argument
    constructor or by one of the operators [+], [-], [*], [/] is as
    [Fraction_constructed] says for the numerator and the denominator handed
    to the constructor.  With a zero denominator the pair stays unreduced
    and the divided-by-zero flag is set.  Otherwise nothing is reported and
    the fraction is the same rational in lowest terms: it is 0/1 when the
    numerator is zero; its denominator is positive when the denominator
    handed in is positive, and negative when that one is negative and the
    numerator is not zero, except that the constructor handed the least
    [int] as numerator and as denominator makes 1/1. *)
Theorem Fraction_produced_constructed :
  (forall N D g, Int32 N -> Int32 D ->
     Fraction_constructed N D g (Fraction_make N D g)) /\
  (forall op L R g,
     Fraction_constructed (Fraction_raw op L R).1 (Fraction_raw op L R).2 g
       (Fraction_apply op L R g)).
Proof.
  split.
  - intros N D g HN HD. apply Fraction_make_constructed; assumption.
  - intros op L R g. unfold Fraction_apply.
    apply Fraction_make_constructed; destruct op; cbn; apply wrap32_Int32.
Qed.

(** The constructor at 6 over -4 and the quotient of 3/2 by -9/4. *)
Lemma Fraction_produced_constructed_witness :
  (Int32 6 /\ Int32 (-4)) /\
  Fraction_constructed 6 (-4) Globals_fresh (Fraction_make 6 (-4) Globals_fresh) /\
  Fraction_constructed 12 (-18) Globals_fresh
    (Fraction_apply Fraction_over (mkFraction 3 2) (mkFraction (-9) 4) Globals_fresh).
Proof.
  assert (H6 : Int32 6) by (unfold Int32, Int32_min, Int32_max; lia).
  assert (H4 : Int32 (-4)) by (unfold Int32, Int32_min, Int32_max; lia).
  split; [split; assumption|]. split.
  - exact (proj1 Fraction_produced_constructed 6 (-4) Globals_fresh H6 H4).
  - exact (proj2 Fraction_produced_constructed Fraction_over
             (mkFraction 3 2) (mkFraction (-9) 4) Globals_fresh).
Defined.

Example Fraction_make_0_m3 :
  Fraction_make 0 (-3) Globals_fresh = (mkFraction 0 1, Globals_fresh).
Proof. vm_compute. reflexivity. Qed.

Example Fraction_make_least_least :
  Fraction_make Int32_min Int32_min Globals_fresh = (mkFraction 1 1, Globals_fresh).
Proof. vm_compute. reflexivity. Qed.

Example Fraction_make_least_m1 :
  Fraction_make Int32_min (-1) Globals_fresh
  = (mkFraction Int32_min (-1), Globals_fresh).
Proof. vm_compute. reflexivity. Qed.

Example Fraction_make_6_m4 :
  Fraction_make 6 (-4) Globals_fresh = (mkFraction 3 (-2), Globals_fresh).
Proof. vm_compute. reflexivity. Qed.

Example Fraction_make_1_0 :
  let r := Fraction_make 1 0 Globals_fresh in
  r.1 = mkFraction 1 0 /\ DividedbyZero r.2 = true /\
  Output r.2 = ["Runtime Error: Divided by 0"].
Proof. vm_compute. repeat split; reflexivity. Qed.

(** C6 (as stated) fails: the quotient of 1 by -2 is the fraction 1/(-2),
    whose denominator is negative, and no flag is raised. *)
Lemma Fraction_over_negative_denominator :
  Fraction_apply Fraction_over (Fraction_of_int 1) (Fraction_of_int (-2)) Globals_fresh
  = (mkFraction 1 (-2), Globals_fresh).
Proof. vm_compute. reflexivity. Qed.

(** ** Differentiation *)

(** C9.  For every variable id [x]: the partial derivative of a node that
    holds an integer literal is the constant 0; the partial derivative of a
    node that holds the variable [y] is the constant 1 if [y] is [x] and the
    constant 0 otherwise. *)
Theorem Partial_leaf (x c y : Z) (L R : option ExprNode) :
  Partial (Node (Token_of_int c) L R) x = Some (Const 0) /\
  Partial (Node (Token_of_var x) L R) x = Some (Const 1) /\
  Partial (Node (Token_of_var y) L R) x = Some (Const (if y =? x then 1 else 0)).
Proof.
  cbn [Partial Token_of_int Token_of_var Ty ID]. rewrite Z.eqb_refl.
  destruct (y =? x); repeat split; reflexivity.
Qed.

Example Partial_pow_x_3 :
  Partial (BinOp POW (Var 0) (Const 3)) 0
  = Some (BinOp MUL
            (BinOp ADD (BinOp MUL (Const 0) (Ln (Some (Var 0))))
                       (BinOp MUL (Const 3) (BinOp DIV (Const 1) (Var 0))))
            (Exp (Some (CreateNode2 MUL (Some (Const 3)) (Some (Ln (Some (Var 0)))))))).
Proof. reflexivity. Qed.

(** ** Tree construction *)

Lemma IsOperand_level p : IsOperand p = true -> OprLevel p false = 0.
Proof. unfold IsOperand. intros H. apply andb_prop in H as [H _]. lia. Qed.

Lemma IsOperand_kept p : IsOperand p = true -> IsIgnoredSymbol (ExprNode_V p) = false.
Proof.
  unfold IsOperand. intros H. apply andb_prop in H as [_ H].
  destruct (IsIgnoredSymbol _); [discriminate H|reflexivity].
Qed.

(** An operand that follows an operator is pushed on [ExprV]. *)
Lemma CreateTree_scan_operand p range OprV ExprV :
  IsOperand p = true ->
  CreateTree_scan (p :: range) OprV ExprV true
  = CreateTree_scan range OprV (p :: ExprV) false.
Proof.
  intros H. cbn [CreateTree_scan].
  rewrite (IsOperand_kept p H), (IsOperand_level p H). reflexivity.
Qed.

(** The tree that [CreateTree] builds for [a op1 b op2 c]: the operator on
    top of the stack is merged first exactly when [TriggerMerge] says so. *)
Lemma CreateTree_two_operators (a b c : ExprNode) (op1 op2 : Token) (g : Globals) :
  IsOperand a = true -> IsOperand b = true -> IsOperand c = true ->
  In op1 binary_operators -> In op2 binary_operators ->
  CreateTree [a; CreateNode op1; b; CreateNode op2; c] g
  = Some (if TriggerMerge (CreateNode op1) (OprLevel (CreateNode op2) false)
          then BinOp op2 (BinOp op1 a b) c
          else BinOp op1 a (BinOp op2 b c), g).
Proof.
  intros Ha Hb Hc H1 H2.
  pose proof (IsOperand_kept a Ha) as Ka. pose proof (IsOperand_level a Ha) as La.
  pose proof (IsOperand_kept b Hb) as Kb. pose proof (IsOperand_level b Hb) as Lb.
  pose proof (IsOperand_kept c Hc) as Kc. pose proof (IsOperand_level c Hc) as Lc.
  unfold binary_operators in H1, H2. cbn [In] in H1, H2.
  unfold CreateTree, lift, mbind, Run_bind, State_bind.
  destruct H1 as [<-|[<-|[<-|[<-|[<-|[]]]]]];
  destruct H2 as [<-|[<-|[<-|[<-|[<-|[]]]]]];
    rewrite La; cbn;
    rewrite Ka, La; cbn; rewrite Kb, Lb; cbn; rewrite Kc, Lc; cbn;
    reflexivity.
Qed.

(** C7 (amended).  In the construction of the tree for [a op1 b op2 c]
    the operator [op1] on top of the operator stack is merged before the
    incoming [op2] is pushed when its precedence is strictly greater, or
    equal and [op1] is [-] or [/]; so [a-b-c] builds [(a-b)-c] and [a/b/c]
    builds [(a/b)/c], while [+], [*] and [^] on top of the stack merge on
    strictly greater precedence only: [a+b+c] builds [a+(b+c)], [a*b*c]
    builds [a*(b*c)] and [a^b^c] builds [a^(b^c)]. *)
Theorem CreateTree_merge_order (a b c : ExprNode) (op1 op2 : Token) (g : Globals) :
  IsOperand a = true -> IsOperand b = true -> IsOperand c = true ->
  In op1 binary_operators -> In op2 binary_operators ->
  TriggerMerge (CreateNode op1) (OprLevel (CreateNode op2) false) = merges_first op1 op2 /\
  CreateTree [a; CreateNode op1; b; CreateNode op2; c] g
  = Some (if merges_first op1 op2
          then BinOp op2 (BinOp op1 a b) c
          else BinOp op1 a (BinOp op2 b c), g) /\
  (op1 = op2 ->
   merges_first op1 op2 = Token_eqb op1 SUB || Token_eqb op1 DIV).
Proof.
  intros Ha Hb Hc H1 H2.
  assert (E : TriggerMerge (CreateNode op1) (OprLevel (CreateNode op2) false)
              = merges_first op1 op2).
  { unfold binary_operators in H1, H2. cbn [In] in H1, H2.
    destruct H1 as [<-|[<-|[<-|[<-|[<-|[]]]]]];
    destruct H2 as [<-|[<-|[<-|[<-|[<-|[]]]]]]; reflexivity. }
  split; [exact E|]. split.
  - rewrite <- E. apply CreateTree_two_operators; assumption.
  - intros <-. unfold binary_operators in H1. cbn [In] in H1.
    destruct H1 as [<-|[<-|[<-|[<-|[<-|[]]]]]]; reflexivity.
Qed.

(** [a + b + c] on the variables with ids 0, 1 and 2. *)
Lemma CreateTree_merge_order_witness :
  (IsOperand (Var 0) = true /\ IsOperand (Var 1) = true /\ IsOperand (Var 2) = true /\
   In ADD binary_operators) /\
  TriggerMerge (CreateNode ADD) (OprLevel (CreateNode ADD) false) = merges_first ADD ADD /\
  CreateTree [Var 0; CreateNode ADD; Var 1; CreateNode ADD; Var 2] Globals_fresh
  = Some (if merges_first ADD ADD
          then BinOp ADD (BinOp ADD (Var 0) (Var 1)) (Var 2)
          else BinOp ADD (Var 0) (BinOp ADD (Var 1) (Var 2)), Globals_fresh) /\
  (ADD = ADD -> merges_first ADD ADD = Token_eqb ADD SUB || Token_eqb ADD DIV).
Proof.
  assert (HA : In ADD binary_operators) by (left; reflexivity).
  split; [repeat split; try reflexivity; exact HA|].
  exact (CreateTree_merge_order (Var 0) (Var 1) (Var 2) ADD ADD Globals_fresh
           eq_refl eq_refl eq_refl HA HA).
Defined.

(** C7 (as stated) fails: [+] on top of the stack is not merged by an
    incoming [+], and the line [a+b+c] builds the tree [a+(b+c)]. *)
Lemma CreateTree_add_nests_right :
  TriggerMerge (CreateNode ADD) (OprLevel (CreateNode ADD) false) = false /\
  parse_line "a+b+c"
  = Some (Some (BinOp ADD (Var 0) (BinOp ADD (Var 1) (Var 2))), ["a"; "b"; "c"]).
Proof. vm_compute. split; reflexivity. Qed.

Example parse_a_minus_b_minus_c :
  parse_line "a-b-c"
  = Some (Some (BinOp SUB (BinOp SUB (Var 0) (Var 1)) (Var 2)), ["a"; "b"; "c"]).
Proof. vm_compute. reflexivity. Qed.

Example parse_a_pow_b_pow_c :
  parse_line "a^b^c"
  = Some (Some (BinOp POW (Var 0) (BinOp POW (Var 1) (Var 2))), ["a"; "b"; "c"]).
Proof. vm_compute. reflexivity. Qed.

Example parse_unary_minus :
  parse_line "3*(-x)"
  = Some (Some (BinOp MUL (Const 3) (BinOp SUB (Const 0) (Var 0))), ["x"]).
Proof. vm_compute. reflexivity. Qed.

(** ** The lexer *)

Lemma isalpha_Judge c : isalpha c = true -> Judge c = TokCond_Symbol.
Proof.
  unfold Judge. intros H. rewrite H.
  replace (isdigit c) with false; [reflexivity|].
  symmetry. unfold isalpha, isdigit in *.
  change (char_code "0") with 48. change (char_code "9") with 57.
  change (char_code "A") with 65 in H. change (char_code "Z") with 90 in H.
  change (char_code "a") with 97 in H. change (char_code "z") with 122 in H.
  lia.
Qed.

Lemma string_app_nil_r (s : string) : (s ++ "")%string = s.
Proof.
  induction s as [|c s IH]; [reflexivity|].
  change (String c (s ++ "")%string = String c s). f_equal. exact IH.
Qed.

Lemma string_app_snoc (s : string) c (r : string) :
  ((s ++ String c "") ++ r)%string = (s ++ String c r)%string.
Proof.
  induction s as [|d s IH]; [reflexivity|].
  change (String d ((s ++ String c "") ++ r)%string = String d (s ++ String c r)%string).
  f_equal. exact IH.
Qed.

(** Inside a run of letters the lexer only extends the segment. *)
Lemma GenerateTokens_from_alpha rest : forall segment Toks g,
  all_alpha rest = true ->
  GenerateTokens_from rest segment TokCond_Symbol Toks g
  = ParseToken TokCond_Symbol (segment ++ rest)%string Toks g.
Proof.
  induction rest as [|c rest IH]; intros segment Toks g H.
  - cbn [GenerateTokens_from]. rewrite string_app_nil_r. reflexivity.
  - unfold all_alpha in H. cbn [list_ascii_of_string forallb] in H.
    apply andb_prop in H as [Hc Hr].
    cbn [GenerateTokens_from]. rewrite (isalpha_Judge c Hc). cbn [TokCond_eqb].
    rewrite IH by exact Hr. rewrite string_app_snoc. reflexivity.
Qed.

(** A line that is one run of letters, not the name of a function, is one
    token: the variable of that name. *)
Lemma GenerateTokens_alpha_run (s : string) :
  s <> "" -> all_alpha s = true -> GetFuncID s = -1 ->
  GenerateTokens s Globals_fresh
  = ([Token_of_var 0], set_VarTable 1 [s] [(s, 0)] Globals_fresh).
Proof.
  intros Hs Ha Hf. destruct s as [|c rest]; [contradiction|].
  unfold GenerateTokens. cbn [GenerateTokens_from].
  assert (Hc : isalpha c = true).
  { unfold all_alpha in Ha. cbn in Ha. apply andb_prop in Ha as [Hc _]. exact Hc. }
  assert (Hr : all_alpha rest = true).
  { unfold all_alpha in Ha. cbn in Ha. apply andb_prop in Ha as [_ Hr]. exact Hr. }
  rewrite (isalpha_Judge c Hc). cbn [TokCond_eqb ParseToken].
  unfold mbind, State_bind, mret, State_ret.
  rewrite GenerateTokens_from_alpha by exact Hr.
  change (String c "" ++ rest)%string with (String c rest).
  cbn [ParseToken]. rewrite Hf. reflexivity.
Qed.

(** C8 (amended).  A run of letters is one symbol: a line that is one run
    of letters and not the name of a function, such as [xy], is a single
    variable of that name and its tree is that variable alone.  Implicit
    multiplication joins operands that are separate tokens: [2x] and
    [3sin(x)] are products, and so is [x y], where a character that is no
    token stands between the two letters. *)
Theorem implicit_multiplication_of_tokens :
  (forall s : string,
     s <> "" -> all_alpha s = true -> GetFuncID s = -1 ->
     (GenerateTokens s Globals_fresh).1 = [Token_of_var 0] /\
     parse_line s = Some (Some (Var 0), [s])) /\
  parse_line "2x" = Some (Some (BinOp MUL (Const 2) (Var 0)), ["x"]) /\
  parse_line "3sin(x)" = Some (Some (BinOp MUL (Const 3) (Sin (Some (Var 0)))), ["x"]) /\
  parse_line "x y" = Some (Some (BinOp MUL (Var 0) (Var 1)), ["x"; "y"]).
Proof.
  split; [|vm_compute; repeat split; reflexivity].
  intros s Hs Ha Hf. unfold parse_line.
  rewrite (GenerateTokens_alpha_run s Hs Ha Hf). split; reflexivity.
Qed.

(** The line [xy]. *)
Lemma implicit_multiplication_of_tokens_witness :
  (("xy" : string) <> "" /\ all_alpha "xy" = true /\ GetFuncID "xy" = -1) /\
  (GenerateTokens "xy" Globals_fresh).1 = [Token_of_var 0] /\
  parse_line "xy" = Some (Some (Var 0), ["xy"]).
Proof.
  assert (Hs : ("xy" : string) <> "") by discriminate.
  split; [repeat split; try reflexivity; exact Hs|].
  exact (proj1 implicit_multiplication_of_tokens "xy" Hs eq_refl eq_refl).
Defined.

(** C8 (as stated) fails: the line [xy] is lexed as the one variable named
    [xy], and its tree is that variable, not a product of [x] and [y]. *)
Lemma xy_is_one_variable :
  (GenerateTokens "xy" Globals_fresh).1 = [Token_of_var 0] /\
  parse_line "xy" = Some (Some (Var 0), ["xy"]) /\
  parse_line "x*y" = Some (Some (BinOp MUL (Var 0) (Var 1)), ["x"; "y"]).
Proof. vm_compute. repeat split; reflexivity. Qed.

(** ** The driver of the simplifier *)

(** A set of numbers below [n] has at most [n] elements. *)
Lemma gset_size_below (X : gset Z) (n : nat) :
  (forall x, x ∈ X -> 0 <= x < Z.of_nat n) -> (size X <= n)%nat.
Proof.
  intros HX.
  change (size X) with (length (elements X)).
  assert (Hl : (length (Z.to_nat <$> elements X) <= length (seq 0 n))%nat).
  2: { rewrite length_fmap, length_seq in Hl. exact Hl. }
  apply submseteq_length, NoDup_submseteq.
  - apply NoDup_fmap_2_strong; [|apply NoDup_elements].
    intros x y Hx Hy E. apply elem_of_elements in Hx, Hy.
    specialize (HX x Hx) as Bx. specialize (HX y Hy) as By. lia.
  - intros k Hk. apply list_elem_of_fmap in Hk as (x & -> & Hx).
    apply elem_of_elements in Hx. specialize (HX x Hx).
    apply elem_of_seq. lia.
Qed.

Section SimplifyLoop.

Variable rules : RewriteRules.

(** One more iteration of the loop. *)
Lemma Simplify_loop_S fuel Occurred p g :
  Simplify_loop rules (S fuel) Occurred p g
  = match Simplify_passes rules p g with
    | Some (p', g') =>
        if Hash_defined p' then
          if decide (Hash p' ∈ Occurred) then Some ((p', Occurred), g')
          else Simplify_loop rules fuel ({[Hash p']} ∪ Occurred) p' g'
        else None
    | None => None
    end.
Proof.
  cbn [Simplify_loop]. unfold mbind, Run_bind.
  destruct (Simplify_passes rules p g) as [[p' g']|]; [|reflexivity].
  destruct (Hash_defined p'); [|reflexivity].
  destruct (decide (Hash p' ∈ Occurred)); reflexivity.
Qed.

Lemma decided_in_first Occurred p g :
  (forall fuel, Simplify_loop rules (S fuel) Occurred p g
                = Simplify_loop rules 1 Occurred p g) ->
  decided_in rules Occurred p g 1.
Proof.
  intros H. split.
  - intros [|m] Hm; [lia|]. apply H.
  - intros m Hm. replace m with 0%nat by lia. reflexivity.
Qed.

Variable bound : nat.
Hypothesis Hash_below : forall p, 0 <= Hash p < Z.of_nat bound.

(** The set of the hashes seen grows by one in every iteration but the
    last, and it has room for [bound] hashes. *)
Lemma Simplify_loop_decided_within : forall (k : nat) Occurred p g,
  (forall x, x ∈ Occurred -> 0 <= x < Z.of_nat bound) ->
  (bound - size Occurred <= k)%nat ->
  exists n, (1 <= n <= S k)%nat /\ decided_in rules Occurred p g n.
Proof.
  induction k as [|k IH]; intros Occurred p g Hin Hk;
    (destruct (Simplify_passes rules p g) as [[p' g']|] eqn:Ep;
     [destruct (Hash_defined p') eqn:Ed;
      [destruct (decide (Hash p' ∈ Occurred)) as [Hseen|Hnew]|]|]).
  1, 3, 4, 5, 7, 8:
    (exists 1%nat; split; [lia|]; apply decided_in_first; intros fuel;
     rewrite !Simplify_loop_S, Ep; try rewrite Ed;
     try (destruct (decide (Hash p' ∈ Occurred)); [|contradiction]); reflexivity).
  - (* no room is left for a new hash *)
    exfalso.
    assert (Hsize : size ({[Hash p']} ∪ Occurred) = S (size Occurred)).
    { rewrite size_union by (apply disjoint_singleton_l; exact Hnew).
      rewrite size_singleton. reflexivity. }
    assert (Hle : (size ({[Hash p']} ∪ Occurred) <= bound)%nat).
    { apply gset_size_below. intros x Hx.
      apply elem_of_union in Hx as [Hx|Hx]; [|auto].
      apply elem_of_singleton in Hx as ->. apply Hash_below. }
    lia.
  - assert (Hsize : size ({[Hash p']} ∪ Occurred) = S (size Occurred)).
    { rewrite size_union by (apply disjoint_singleton_l; exact Hnew).
      rewrite size_singleton. reflexivity. }
    destruct (IH ({[Hash p']} ∪ Occurred) p' g') as (n & Hn & Hm & Hl).
    + intros x Hx. apply elem_of_union in Hx as [Hx|Hx]; [|auto].
      apply elem_of_singleton in Hx as ->. apply Hash_below.
    + lia.
    + exists (S n). split; [lia|]. split.
      * intros [|m] Hle; [lia|]. rewrite !Simplify_loop_S, Ep, Ed.
        destruct (decide (Hash p' ∈ Occurred)); [contradiction|].
        apply Hm. lia.
      * intros [|m] Hlt; [reflexivity|]. rewrite Simplify_loop_S, Ep, Ed.
        destruct (decide (Hash p' ∈ Occurred)); [contradiction|].
        apply Hl. lia.
Qed.

End SimplifyLoop.

(** The loop of [Simplify] itself is bounded, whatever the passes do: it
    is decided not later than in the [2 ^ 64 + 1]-st iteration, by the
    first insertion into the set of the hashes seen that fails, or by a
    pass or a hash that does not return. *)
Lemma Simplify_loop_bounded (rules : RewriteRules) (p : ExprNode) (g : Globals) :
  exists n : nat, 1 <= Z.of_nat n <= 2 ^ 64 + 1 /\ decided_in rules ∅ p g n.
Proof.
  remember (Z.to_nat (2 ^ 64)) as bound eqn:Eb.
  assert (Hb : Z.of_nat bound = 2 ^ 64) by (rewrite Eb; apply Z2Nat.id; lia).
  clear Eb.
  destruct (Simplify_loop_decided_within rules bound) with (k := bound)
    (Occurred := (∅ : gset Z)) (p := p) (g := g) as (n & Hn & He).
  - intros q. rewrite Hb. apply Hash_range.
  - intros x Hx. apply not_elem_of_empty in Hx. contradiction.
  - lia.
  - exists n. split; [lia|exact He].
Qed.

(** C1.  [Simplify] does not return for every tree.  The line [sin(pow)]
    is lexed and parsed without an error into the function [sin] applied to
    the function [pow] without operands; on that tree the first pass of the
    first iteration, [Simplify_Rotate], dereferences the null first operand
    of [pow], so [Simplify] has no result, however many iterations are
    allowed and whatever the other passes do, and the round of [main] on
    that line has none either. *)
Theorem Simplify_sin_pow_no_result (rules : RewriteRules) (fuel : nat) (g : Globals) :
  Expr_build (GenerateTokens "sin(pow)" Globals_fresh).1
    (GenerateTokens "sin(pow)" Globals_fresh).2
  = Some ((Some (Sin (Some (CreateNode (Token_of_func FUNC_pow)))), true), Globals_fresh) /\
  Rewrites.Simplify_Rotate (Sin (Some (CreateNode (Token_of_func FUNC_pow)))) = None /\
  Simplify rules fuel (Sin (Some (CreateNode (Token_of_func FUNC_pow)))) g = None /\
  main_round rules fuel "sin(pow)" = None.
Proof.
  assert (Hs : forall g', Simplify rules fuel
                 (Sin (Some (CreateNode (Token_of_func FUNC_pow)))) g' = None).
  { intros g'. unfold Simplify, mbind, Run_bind.
    destruct fuel as [|fuel]; [reflexivity|].
    rewrite Simplify_loop_S. reflexivity. }
  split; [reflexivity|]. split; [reflexivity|]. split; [apply Hs|].
  unfold main_round, mbind, Run_bind, lift.
  change (GenerateTokens "sin(pow)" Globals_fresh)
    with ([Token_of_func FUNC_sin; Token_of_char "("; Token_of_func FUNC_pow;
           Token_of_char ")"], Globals_fresh).
  unfold Expr_of_tokens, mbind, Run_bind.
  change (Expr_build [Token_of_func FUNC_sin; Token_of_char "("; Token_of_func FUNC_pow;
                      Token_of_char ")"] Globals_fresh)
    with (Some ((Some (Sin (Some (CreateNode (Token_of_func FUNC_pow)))), true),
                Globals_fresh)).
  cbv beta iota. rewrite Hs. reflexivity.
Qed.

Example Simplify_loop_two_iterations :
  Simplify_loop no_rewrite 1 ∅ (Const 0) Globals_fresh = None /\
  Simplify_loop no_rewrite 2 ∅ (Const 0) Globals_fresh
  = Some (Const 0, {[Hash (Const 0)]}, Globals_fresh).
Proof. vm_compute. split; reflexivity. Qed.

(** ** A line without tokens *)

(** Characters that are no tokens only extend the segment, which is then
    dropped. *)
Lemma GenerateTokens_from_no_tokens rest : forall segment g,
  no_token_characters rest ->
  GenerateTokens_from rest segment TokCond_Null [] g = ([], g).
Proof.
  induction rest as [|c rest IH]; intros segment g H; [reflexivity|].
  cbn [GenerateTokens_from].
  rewrite (H c) by (left; reflexivity). cbn [TokCond_eqb].
  apply IH. intros d Hd. apply H. right. exact Hd.
Qed.

(** On the leaf that holds the integer 0 no pass of the simplifier consults
    a rule.  So when the first iteration of the loop of [Simplify] leaves
    that leaf, the loop ends in its second iteration, [FinalFold] returns
    at once from [FinalFold_GCDPoly] and leaves its loop after one
    iteration. *)
Lemma Simplify_to_zero_leaf (rules : RewriteRules) (fuel : nat) (p : ExprNode)
  (g : Globals) :
  (2 <= fuel)%nat ->
  Simplify_passes rules p g = Some (Const 0, g) ->
  Simplify rules fuel p g = Some (Some (Const 0), g).
Proof.
  intros Hf Hp1. destruct fuel as [|[|fuel]]; [lia|lia|].
  assert (Hp : Simplify_passes rules (Const 0) g = Some (Const 0, g)) by reflexivity.
  unfold Simplify, mbind, Run_bind.
  rewrite Simplify_loop_S, Hp1.
  change (Hash_defined (Const 0)) with true. cbv iota.
  destruct (decide (Hash (Const 0) ∈ (∅ : gset Z))) as [Hin|_].
  { apply not_elem_of_empty in Hin. contradiction. }
  rewrite Simplify_loop_S, Hp.
  change (Hash_defined (Const 0)) with true. cbv iota.
  destruct (decide (Hash (Const 0) ∈ ({[Hash (Const 0)]} ∪ ∅ : gset Z))) as [_|Hout].
  2: { exfalso. apply Hout. apply elem_of_union_l, elem_of_singleton. reflexivity. }
  reflexivity.
Qed.

Lemma Simplify_zero_leaf (rules : RewriteRules) (fuel : nat) (g : Globals) :
  (2 <= fuel)%nat ->
  Simplify rules fuel (Const 0) g = Some (Some (Const 0), g).
Proof. intros Hf. apply Simplify_to_zero_leaf; [exact Hf|reflexivity]. Qed.

(** C10.  For a line none of whose characters is a digit, a letter or an
    operator character, the round ends without an error: the lexer yields
    no token, the constructor of [Expr] builds the leaf with the integer 0,
    and the round ends in the state it began in, so nothing is printed
    (neither a syntax error, nor a runtime error, nor a derivative), no flag
    is raised and the variable table is empty. *)
Theorem main_round_no_tokens (rules : RewriteRules) (fuel : nat) (line : string) :
  no_token_characters line -> (2 <= fuel)%nat ->
  GenerateTokens line Globals_fresh = ([], Globals_fresh) /\
  Expr_build [] Globals_fresh = Some ((Some (Const 0), true), Globals_fresh) /\
  main_round rules fuel line = Some Globals_fresh.
Proof.
  intros Hl Hf.
  assert (Ht : GenerateTokens line Globals_fresh = ([], Globals_fresh)).
  { apply GenerateTokens_from_no_tokens. exact Hl. }
  split; [exact Ht|]. split; [reflexivity|].
  unfold main_round, mbind, Run_bind, lift. rewrite Ht.
  unfold Expr_of_tokens, mbind, Run_bind.
  change (Expr_build [] Globals_fresh)
    with (Some ((Some (Const 0), true), Globals_fresh)).
  cbv beta iota. rewrite (Simplify_zero_leaf rules fuel Globals_fresh Hf).
  reflexivity.
Qed.

(** A line of blanks and an equals sign, with the rules that rewrite
    nothing. *)
Lemma main_round_no_tokens_witness :
  (no_token_characters " = " /\ (2 <= 2)%nat) /\
  GenerateTokens " = " Globals_fresh = ([], Globals_fresh) /\
  Expr_build [] Globals_fresh = Some ((Some (Const 0), true), Globals_fresh) /\
  main_round no_rewrite 2 " = " = Some Globals_fresh.
Proof.
  assert (Hl : no_token_characters " = ").
  { intros c Hc. cbn in Hc. destruct Hc as [<-|[<-|[<-|[]]]]; reflexivity. }
  split; [split; [exact Hl|lia]|].
  exact (main_round_no_tokens no_rewrite 2 " = " Hl (le_n 2)).
Defined.

Example main_round_empty_line : main_round no_rewrite 2 "" = Some Globals_fresh.
Proof. vm_compute. reflexivity. Qed.

(** ** Effects on the globals *)

Lemma Run_bind_Some {A B : Type} (m : Run A) (f : A -> Run B) g r :
  (m ≫= f) g = Some r -> exists a g1, m g = Some (a, g1) /\ f a g1 = Some r.
Proof.
  unfold mbind, Run_bind. destruct (m g) as [[a g1]|]; [|discriminate].
  intros H. exists a, g1. split; [reflexivity|exact H].
Qed.

Lemma State_bind_eq {A B : Type} (m : State A) (f : A -> State B) g :
  (m ≫= f) g = f (m g).1 (m g).2.
Proof. unfold mbind, State_bind. destruct (m g) as [a g1]. reflexivity. Qed.

Section Effects.

Variable R : Globals -> Globals -> Prop.
Hypothesis R_refl : forall g, R g g.
Hypothesis R_trans : forall g1 g2 g3, R g1 g2 -> R g2 g3 -> R g1 g3.

Lemma State_ok_ret {A : Type} (a : A) : State_ok R (mret a).
Proof. intros g. apply R_refl. Qed.

Lemma State_ok_bind {A B : Type} (m : State A) (f : A -> State B) :
  State_ok R m -> (forall a, State_ok R (f a)) -> State_ok R (m ≫= f).
Proof.
  intros Hm Hf g. rewrite State_bind_eq.
  eapply R_trans; [apply Hm|apply Hf].
Qed.

Lemma State_ok_get : State_ok R get_Globals.
Proof. intros g. apply R_refl. Qed.

Lemma Run_ok_ret {A : Type} (a : A) : Run_ok R (mret a).
Proof. intros g a' g' [= _ <-]. apply R_refl. Qed.

Lemma Run_ok_bind {A B : Type} (m : Run A) (f : A -> Run B) :
  Run_ok R m -> (forall a, Run_ok R (f a)) -> Run_ok R (m ≫= f).
Proof.
  intros Hm Hf g b g' H. apply Run_bind_Some in H as (a & g1 & H1 & H2).
  eapply R_trans; [eapply Hm; exact H1|eapply Hf; exact H2].
Qed.

Lemma Run_ok_lift {A : Type} (m : State A) : State_ok R m -> Run_ok R (lift m).
Proof. intros Hm g a g' [= E]. specialize (Hm g). rewrite E in Hm. exact Hm. Qed.

Lemma Run_ok_no_result {A : Type} : Run_ok R (@no_result A).
Proof. intros g a g' H. discriminate H. Qed.

End Effects.

(** *** The simplifier *)

Lemma simplifies_refl g : simplifies g g.
Proof.
  unfold simplifies. rewrite Nat.ltb_irrefl, orb_false_r, andb_false_r, app_nil_r.
  repeat split; reflexivity.
Qed.

Lemma simplifies_trans g1 g2 g3 : simplifies g1 g2 -> simplifies g2 g3 -> simplifies g1 g3.
Proof.
  unfold simplifies.
  intros (A1 & A2 & A3 & A4 & A5 & A6 & A7) (B1 & B2 & B3 & B4 & B5 & B6 & B7).
  repeat split; try congruence; try lia.
  - rewrite B6, A6.
    destruct (DividedbyZero g1); [reflexivity|]. cbn [orb].
    destruct (Nat.ltb_spec (ZeroDenominators g1) (ZeroDenominators g2)),
             (Nat.ltb_spec (ZeroDenominators g2) (ZeroDenominators g3)),
             (Nat.ltb_spec (ZeroDenominators g1) (ZeroDenominators g3));
      try reflexivity; lia.
  - rewrite B7, A7, A6.
    destruct (DividedbyZero g1); cbn [negb andb orb]; [rewrite !app_nil_r; reflexivity|].
    destruct (Nat.ltb_spec (ZeroDenominators g1) (ZeroDenominators g2)),
             (Nat.ltb_spec (ZeroDenominators g2) (ZeroDenominators g3)),
             (Nat.ltb_spec (ZeroDenominators g1) (ZeroDenominators g3));
      cbn [negb andb]; rewrite ?app_nil_r; try reflexivity; lia.
Qed.

Lemma Run_ok_of_option (R : Globals -> Globals -> Prop) {A : Type} (o : option A) :
  (forall g, R g g) -> Run_ok R (of_option o).
Proof.
  intros HR g a g' H. unfold of_option in H. destruct o; [|discriminate H].
  injection H as _ <-. apply HR.
Qed.

(** *** What is done with fractions *)

Lemma ReportDividedbyZero_twice g :
  (ReportDividedbyZero (ReportDividedbyZero g).2).2 = (ReportDividedbyZero g).2.
Proof.
  unfold ReportDividedbyZero. state_unfold. destruct g as [n vs vm e f d o z].
  destruct d; reflexivity.
Qed.

Lemma Fraction_make_state N D g :
  (Fraction_make N D g).2 = if D =? 0 then (ReportDividedbyZero g).2 else g.
Proof.
  unfold Fraction_make, Fraction_Simplify. cbn [Fraction_N Fraction_D].
  destruct (D =? 0).
  - state_unfold. destruct (ReportDividedbyZero g). reflexivity.
  - destruct (N =? 0); reflexivity.
Qed.

Lemma Fraction_make_value N D g g' : (Fraction_make N D g).1 = (Fraction_make N D g').1.
Proof.
  unfold Fraction_make, Fraction_Simplify. cbn [Fraction_N Fraction_D].
  destruct (D =? 0).
  - state_unfold. destruct (ReportDividedbyZero g), (ReportDividedbyZero g'). reflexivity.
  - destruct (N =? 0); reflexivity.
Qed.

(** The fraction built has the denominator 0 exactly when the constructor
    was handed it, and is then no zero. *)
Lemma Fraction_make_zero_denominator N D g :
  Int32 N -> Int32 D ->
  (Fraction_D (Fraction_make N D g).1 =? 0) = (D =? 0) /\
  (D = 0 -> Fraction_eqb_int (Fraction_make N D g).1 0 = false).
Proof.
  intros HN HD. destruct (Fraction_make_constructed N D g HN HD) as [H0 H1].
  destruct (Z.eqb_spec D 0) as [E|NE].
  - destruct (H0 E) as [-> _]. split; [reflexivity|].
    intros _. unfold Fraction_eqb_int. cbn. apply andb_false_r.
  - destruct (H1 NE) as (_ & Hg & Hc & _). split; [|contradiction].
    apply Z.eqb_neq. intros E. rewrite E in Hg, Hc.
    rewrite Z.gcd_0_r in Hg. nia.
Qed.

Lemma ExtractGCD_make Coefficients make :
  ExtractGCD Coefficients = Some make ->
  exists N D, Int32 N /\ Int32 D /\ make = Fraction_make N D.
Proof.
  unfold ExtractGCD. destruct Coefficients as [|Begin rest]; [discriminate|].
  destruct (fold_left _ _ _) as [n0 d0]. intros [= <-].
  exists (wrap32 (Z.abs n0)), (wrap32 (Z.abs d0)).
  split; [apply wrap32_Int32|]. split; [apply wrap32_Int32|reflexivity].
Qed.

(** What is done with a fraction goes through the report of a zero
    denominator exactly when it meets one. *)
Lemma perform_state a g g' :
  perform a g = Some (tt, g') ->
  g' = if detects a then (ReportDividedbyZero g).2 else g.
Proof.
  destruct a as [N D|Coefficients]; cbn [perform detects].
  - unfold lift, Fraction_construct. intros [= E]. rewrite State_bind_eq in E.
    apply (f_equal snd) in E. cbn [snd mret State_ret] in E. subst g'.
    apply Fraction_make_state.
  - unfold Factor_extract.
    destruct (ExtractGCD Coefficients) as [make|] eqn:EG; [|discriminate].
    destruct (ExtractGCD_make _ _ EG) as (N & D & HN & HD & ->).
    unfold lift. intros [= E]. rewrite State_bind_eq in E.
    apply (f_equal snd) in E. cbn [snd] in E. subst g'.
    rewrite Fraction_make_state.
    rewrite (Fraction_make_value N D Globals_fresh g).
    destruct (Fraction_make_zero_denominator N D g HN HD) as [Ez E0].
    rewrite Ez. destruct (Z.eqb_spec D 0) as [ED|ND].
    + rewrite (E0 ED). reflexivity.
    + rewrite orb_false_r. destruct (Fraction_eqb_int _ 0); reflexivity.
Qed.

Lemma perform_all_state l : forall g g',
  perform_all l g = Some (tt, g') ->
  g' = if existsb detects l then (ReportDividedbyZero g).2 else g.
Proof.
  induction l as [|a l IH]; intros g g'; cbn [perform_all existsb].
  - intros [= <-]. reflexivity.
  - intros H. apply Run_bind_Some in H as ([] & g1 & H1 & H2).
    apply perform_state in H1. apply IH in H2. subst g1 g'.
    destruct (detects a), (existsb detects l); cbn [orb]; try reflexivity.
    apply ReportDividedbyZero_twice.
Qed.

Lemma existsb_filter {A : Type} (f : A -> bool) (l : list A) :
  existsb f l = (0 <? length (List.filter f l))%nat.
Proof.
  induction l as [|a l IH]; [reflexivity|]. cbn [existsb List.filter].
  destruct (f a); [reflexivity|exact IH].
Qed.

(** *** The passes *)

Lemma simplifies_run_rule rule p : Run_ok simplifies (run_rule rule p).
Proof.
  intros g [q c] g' H. unfold run_rule in H.
  apply Run_bind_Some in H as (g0 & g1 & H0 & H). injection H0 as <- <-.
  apply Run_bind_Some in H as (w0 & g1 & H1 & H).
  unfold of_option in H1. destruct (rule p (Extracted g)) as [w|]; [|discriminate H1].
  injection H1 as <- <-.
  apply Run_bind_Some in H as ([] & g1 & H1 & H). injection H1 as <-.
  apply Run_bind_Some in H as ([] & g2 & H2 & H). injection H2 as <-.
  apply Run_bind_Some in H as ([] & g3 & H3 & H). injection H as _ _ <-.
  apply perform_all_state in H3. rewrite existsb_filter in H3.
  remember (length (List.filter detects (arithmetic w))) as n eqn:En. clear En.
  subst g3. unfold simplifies, ReportDividedbyZero. state_unfold.
  destruct g as [m vs vm e f d o z]. destruct n as [|n].
  - change (0 <? 0)%nat with false. cbn -[Nat.ltb].
    rewrite Nat.ltb_irrefl, orb_false_r, andb_false_r, app_nil_r.
    repeat split; reflexivity || lia.
  - change (0 <? S n)%nat with true.
    assert (Hz : (z <? S n + z)%nat = true) by (apply Nat.ltb_lt; lia).
    destruct d; cbn -[Nat.ltb Nat.add]; rewrite ?Hz, ?app_nil_r;
      repeat split; reflexivity || lia.
Qed.

Section SimplifierEffects.

Variable rules : RewriteRules.

Ltac run_ok_step :=
  first
    [ apply Run_ok_ret; exact simplifies_refl
    | apply Run_ok_no_result
    | apply Run_ok_of_option; exact simplifies_refl
    | apply simplifies_run_rule
    | apply Run_ok_bind; [exact simplifies_trans| |]
    | assumption ].

Lemma simplifies_FoldConst p : Run_ok simplifies (Simplify_FoldConst rules p).
Proof.
  induction p as [V L R IHl IHr] using ExprNode_tree_ind.
  cbn [Simplify_FoldConst].
  apply Run_ok_bind; [exact simplifies_trans| |intros [L' cL]].
  { destruct L as [l|]; [|run_ok_step].
    apply Run_ok_bind; [exact simplifies_trans|exact (IHl l eq_refl)|].
    intros [l' c]. run_ok_step. }
  apply Run_ok_bind; [exact simplifies_trans| |intros [R' cR]].
  { destruct R as [r|]; [|run_ok_step].
    apply Run_ok_bind; [exact simplifies_trans|exact (IHr r eq_refl)|].
    intros [r' c]. run_ok_step. }
  destruct (TokenType_eqb (Ty V) Token_Operator); [|run_ok_step].
  apply Run_ok_bind; [exact simplifies_trans|apply simplifies_run_rule|].
  intros [q c]. run_ok_step.
Qed.

Lemma simplifies_Polynomial p : Run_ok simplifies (Simplify_Polynomial rules p).
Proof.
  unfold Simplify_Polynomial. destruct (TraverseTreeNodes_Impl p ADD); [run_ok_step|].
  destruct (forallb _ _); run_ok_step.
Qed.

Lemma simplifies_GCDPoly p : Run_ok simplifies (FinalFold_GCDPoly rules p).
Proof.
  unfold FinalFold_GCDPoly. destruct (Token_eqb _ _); [run_ok_step|].
  apply Run_ok_bind; [exact simplifies_trans|apply simplifies_run_rule|].
  intros [q c]. run_ok_step.
Qed.

Lemma simplifies_passes p : Run_ok simplifies (Simplify_passes rules p).
Proof.
  unfold Simplify_passes.
  run_ok_step; [run_ok_step|]. intros [[q1|] c1]; [|run_ok_step].
  run_ok_step; [run_ok_step|]. intros [p2 c2].
  run_ok_step; [run_ok_step|]. intros [p3 c3].
  run_ok_step; [run_ok_step|]. intros [p4 c4].
  run_ok_step; [apply simplifies_Polynomial|]. intros [p5 c5].
  run_ok_step; [apply simplifies_FoldConst|]. intros [p6 c6]. run_ok_step.
Qed.

Lemma simplifies_FinalFold_loop fuel : forall p,
  Run_ok simplifies (FinalFold_loop rules fuel p).
Proof.
  induction fuel as [|fuel IH]; intros p; cbn [FinalFold_loop].
  - apply Run_ok_no_result.
  - destruct p as [q|]; [|run_ok_step].
    run_ok_step; [apply simplifies_FoldConst|]. intros [p1 c1].
    run_ok_step; [run_ok_step|]. intros [p2 c2].
    destruct (c1 || c2); [apply IH|run_ok_step].
Qed.

Lemma simplifies_FinalFold fuel p : Run_ok simplifies (FinalFold rules fuel p).
Proof.
  unfold FinalFold.
  run_ok_step; [apply simplifies_GCDPoly|]. intros p1.
  run_ok_step; [run_ok_step|]. intros [p2 c2].
  run_ok_step; [run_ok_step|]. intros [p3 c3].
  apply simplifies_FinalFold_loop.
Qed.

Lemma simplifies_Simplify_loop fuel : forall Occurred p,
  Run_ok simplifies (Simplify_loop rules fuel Occurred p).
Proof.
  induction fuel as [|fuel IH]; intros Occurred p; cbn [Simplify_loop].
  - apply Run_ok_no_result.
  - run_ok_step; [apply simplifies_passes|]. intros p'.
    destruct (Hash_defined p'); [|run_ok_step].
    destruct (decide _); [run_ok_step|apply IH].
Qed.

Lemma simplifies_Simplify fuel p : Run_ok simplifies (Simplify rules fuel p).
Proof.
  unfold Simplify.
  run_ok_step; [apply simplifies_Simplify_loop|].
  intros [p' O']. apply simplifies_FinalFold.
Qed.

End SimplifierEffects.

(** ** Derivations *)

Section Derivations.

Variable rules : RewriteRules.

(** A rule run in the state counts the zero denominators that it meets. *)
Lemma run_rule_counts rule p g r g' :
  run_rule rule p g = Some (r, g') ->
  exists w, rule p (Extracted g) = Some w /\
    ZeroDenominators g'
    = (length (List.filter detects (arithmetic w)) + ZeroDenominators g)%nat.
Proof.
  intros H. unfold run_rule in H.
  apply Run_bind_Some in H as (g0 & g1 & H0 & H). injection H0 as <- <-.
  apply Run_bind_Some in H as (w0 & g1 & H1 & H).
  unfold of_option in H1. destruct (rule p (Extracted g)) as [w|]; [|discriminate H1].
  injection H1 as <- <-. exists w. split; [reflexivity|].
  apply Run_bind_Some in H as ([] & g1 & H1 & H). injection H1 as <-.
  apply Run_bind_Some in H as ([] & g2 & H2 & H). injection H2 as <-.
  apply Run_bind_Some in H as ([] & g3 & H3 & H). injection H as _ <-.
  apply perform_all_state in H3. subst g3.
  destruct (existsb detects (arithmetic w)); [|reflexivity].
  unfold ReportDividedbyZero. state_unfold. destruct g as [m vs vm e f d o z].
  destruct d; reflexivity.
Qed.

(** The constructor lowers the flag, so the flag is raised afterwards,
    and the report printed, if and only if a zero denominator was met,
    whatever the flag was before. *)
Lemma Expr_partial_output fuel F DX g Root g' :
  Expr_partial rules fuel F DX g = Some (Root, g') ->
  Vars g' = Vars g /\ VarMap g' = VarMap g /\ FailedToParse g' = FailedToParse g /\
  (ZeroDenominators g <= ZeroDenominators g')%nat /\
  DividedbyZero g' = (ZeroDenominators g <? ZeroDenominators g')%nat /\
  Output g' = Output g ++ (if DividedbyZero g' then [RuntimeError] else []).
Proof.
  unfold Expr_partial. intros H.
  apply Run_bind_Some in H as ([] & g1 & H1 & H2).
  injection H1 as <-.
  apply Run_bind_Some in H2 as (f0 & g1 & H1 & H2).
  unfold of_option in H1. destruct F as [f|]; [|discriminate H1]. injection H1 as <- <-.
  apply Run_bind_Some in H2 as (Root0 & g1 & H1 & H2).
  unfold of_option in H1. destruct (Partial f DX) as [r0|]; [|discriminate H1].
  injection H1 as <- <-.
  apply simplifies_Simplify in H2 as (_ & A2 & A3 & A4 & A5 & A6 & A7).
  cbn in A2, A3, A4, A5, A6, A7. rewrite <- A6 in A7. repeat split; assumption.
Qed.

(** One derivation adds exactly its lines: the report alone when it ends
    with the flag raised, the derivative alone otherwise. *)
Lemma main_derivative_output fuel Original entry g g' :
  main_derivative rules fuel Original entry g = Some (tt, g') ->
  Vars g' = Vars g /\ VarMap g' = VarMap g /\ FailedToParse g' = FailedToParse g /\
  (ZeroDenominators g <= ZeroDenominators g')%nat /\
  DividedbyZero g' = (ZeroDenominators g <? ZeroDenominators g')%nat /\
  exists text, Output g' = Output g ++ derivation_lines entry.1 (DividedbyZero g') text.
Proof.
  unfold main_derivative. destruct entry as [Name VarID]. intros H.
  apply Run_bind_Some in H as (Root & g1 & H1 & H2).
  apply Expr_partial_output in H1 as (A2 & A3 & A4 & A5 & A6 & A7).
  apply Run_bind_Some in H2 as (g1' & g1'' & H2 & H3).
  injection H2 as <- <-.
  destruct (DividedbyZero g1) eqn:Ed.
  - injection H3 as <-. rewrite Ed. repeat split; try assumption.
    exists "". exact A7.
  - apply Run_bind_Some in H3 as (text0 & g2 & H3 & H4).
    unfold of_option in H3.
    destruct (Print_text (Vars g1) Root) as [text|]; [|discriminate H3].
    injection H3 as <- <-. injection H4 as <-.
    cbn. rewrite Ed. repeat split; try assumption.
    exists text. cbn. rewrite A7, app_nil_r. reflexivity.
Qed.


End Derivations.


(** Three zero denominators met by one rule: one line is printed. *)
Example run_rule_reports_once :
  exists r g,
    run_rule (fun p e => Some (mkRewritten p false e
                [Constructs 1 0; ExtractsFactor [mkFraction 0 1]; Constructs 1 2;
                 Constructs 0 0])) (Const 1) Globals_fresh = Some (r, g) /\
    Output g = [RuntimeError] /\ DividedbyZero g = true /\ ZeroDenominators g = 3%nat.
Proof. eexists _, _. vm_compute. repeat split; reflexivity. Qed.

(** *** The construction of the tree *)

Lemma parses_refl g : parses g g.
Proof. unfold parses. repeat split; tauto. Qed.

Lemma parses_trans g1 g2 g3 : parses g1 g2 -> parses g2 g3 -> parses g1 g3.
Proof.
  unfold parses.
  intros (A1 & A2 & A3 & A4 & A5 & A6 & A7) (B1 & B2 & B3 & B4 & B5 & B6 & B7).
  repeat split; try congruence; try tauto.
  intros H3. rewrite (B7 H3). apply A7.
  destruct (FailedToParse g2); [|reflexivity].
  rewrite (B6 eq_refl) in H3. discriminate H3.
Qed.

Lemma parses_SyntaxError msg : State_ok parses (SyntaxError msg).
Proof.
  intros g. unfold SyntaxError. state_unfold. unfold parses. cbn.
  repeat split; try tauto. discriminate.
Qed.

Ltac parses_step :=
  first
    [ apply State_ok_ret; exact parses_refl
    | apply Run_ok_ret; exact parses_refl
    | apply Run_ok_no_result
    | apply State_ok_get; exact parses_refl
    | apply parses_SyntaxError
    | apply State_ok_bind; [exact parses_trans| |]
    | apply Run_ok_bind; [exact parses_trans| |]
    | apply Run_ok_lift
    | assumption ].

Lemma parses_MergeTop CurLevel OprV : forall ExprV,
  State_ok parses (MergeTop CurLevel OprV ExprV).
Proof.
  induction OprV as [|Back OprV IH]; intros ExprV; cbn [MergeTop]; [parses_step|].
  destruct (TriggerMerge Back CurLevel); [|parses_step].
  destruct ExprV as [|r [|l ExprV]]; [| |apply IH].
  all: apply (State_ok_bind parses parses_trans (SyntaxError "missing operand.")
                (fun _ => mret (false, Back :: OprV, _)));
    [apply parses_SyntaxError|intros _; parses_step].
Qed.

Lemma parses_CreateTree_scan range : forall OprV ExprV LastHasLevel,
  State_ok parses (CreateTree_scan range OprV ExprV LastHasLevel).
Proof.
  induction range as [|pNode range IH]; intros OprV ExprV LastHasLevel;
    cbn [CreateTree_scan]; [parses_step|].
  destruct (IsIgnoredSymbol _); [apply IH|].
  destruct (OprLevel pNode false =? 0).
  - destruct (negb LastHasLevel); [|apply IH].
    parses_step; [apply parses_MergeTop|].
    intros [[ok OprV1] ExprV1]. destruct ok; [apply IH|parses_step].
  - parses_step; [apply parses_MergeTop|].
    intros [[ok OprV1] ExprV1]. destruct ok; [apply IH|parses_step].
Qed.

Lemma parses_CreateTree_merge fuel : forall OprV ExprV,
  Run_ok parses (CreateTree_merge fuel OprV ExprV).
Proof.
  induction fuel as [|fuel IH]; intros [|Back OprV] ExprV; cbn [CreateTree_merge];
    try parses_step.
  - parses_step. apply parses_MergeTop.
  - intros [[ok OprV1] ExprV1]. destruct ok; [apply IH|parses_step].
Qed.

Lemma parses_CreateTree range : Run_ok parses (CreateTree range).
Proof.
  unfold CreateTree. destruct range as [|Begin range]; [parses_step|].
  parses_step.
  - parses_step. apply parses_CreateTree_scan.
  - intros [[OprV ExprV]|]; [|parses_step].
    parses_step; [apply parses_CreateTree_merge|].
    intros [ExprV'|]; [|parses_step].
    destruct (last ExprV'); parses_step.
Qed.

(** [CheckArgument] prints and changes nothing else; it prints nothing
    when it returns [true]. *)
Lemma CheckArgument_output E : forall g b g',
  CheckArgument E g = Some (b, g') ->
  exists out, g' = set_Output out g /\ (b = true -> out = Output g).
Proof.
  assert (Hid : forall g, g = set_Output (Output g) g) by (intros []; reflexivity).
  induction E as [V L R IHl IHr] using ExprNode_tree_ind. intros g b g'.
  cbn [CheckArgument].
  destruct (TokenType_eqb (Ty V) Token_Function).
  - destruct (Funcs_at (ID V)) as [F|]; [|discriminate].
    destruct (negb _).
    + intros H. apply Run_bind_Some in H as ([] & g1 & H1 & H2).
      injection H1 as <-. injection H2 as <- <-.
      eexists. split; [reflexivity|discriminate].
    + intros [= <- <-]. exists (Output g). split; [apply Hid|reflexivity].
  - intros H.
    apply Run_bind_Some in H as (OK1 & g1 & H1 & H2).
    apply Run_bind_Some in H2 as (OK2 & g2 & H2 & H3).
    injection H3 as <- <-.
    assert (E1 : exists out, g1 = set_Output out g /\ (OK1 = true -> out = Output g)).
    { destruct L as [l|]; [exact (IHl l eq_refl _ _ _ H1)|].
      injection H1 as <- <-. exists (Output g). split; [apply Hid|reflexivity]. }
    assert (E2 : exists out, g2 = set_Output out g1 /\ (OK2 = true -> out = Output g1)).
    { destruct R as [r|]; [exact (IHr r eq_refl _ _ _ H2)|].
      injection H2 as <- <-. exists (Output g1). split; [apply Hid|reflexivity]. }
    destruct E1 as (o1 & -> & K1), E2 as (o2 & -> & K2).
    exists o2. split; [reflexivity|].
    intros Hb. apply andb_prop in Hb as [B1 B2].
    rewrite (K2 B2). cbn. exact (K1 B1).
Qed.

Lemma parses_Expr_close chain B : Run_ok parses (Expr_close chain B).
Proof.
  unfold Expr_close. destruct (Comma B) as [pCom|].
  - parses_step; [apply parses_CreateTree|intros T1].
    parses_step; [apply parses_CreateTree|intros T2].
    parses_step; [parses_step; parses_step|intros g1].
    destruct (FailedToParse g1); [parses_step|].
    destruct (TokenType_eqb _ _); [parses_step|].
    parses_step; [parses_step; parses_step|intros _; parses_step].
  - parses_step; [apply parses_CreateTree|intros T1].
    parses_step; [parses_step; parses_step|intros g1].
    destruct (FailedToParse g1); [parses_step|].
    destruct (TokenType_eqb _ _); parses_step.
Qed.

Lemma parses_Expr_scan Toks : forall chain Brackets,
  Run_ok parses (Expr_scan Toks chain Brackets).
Proof.
  induction Toks as [|T Toks IH]; intros chain Brackets; cbn [Expr_scan].
  - destruct Brackets; [parses_step|].
    parses_step; [parses_step; parses_step|intros _; parses_step].
  - destruct (IsLBK T); [apply IH|].
    destruct (IsCOM T).
    { destruct Brackets as [|B Brackets].
      - parses_step; [parses_step; parses_step|intros _; parses_step].
      - destruct (Comma B); [|apply IH].
        parses_step; [parses_step; parses_step|intros _; parses_step]. }
    destruct (IsRBK T); [|apply IH].
    destruct Brackets as [|B Brackets].
    + parses_step; [parses_step; parses_step|intros _; parses_step].
    + parses_step; [apply parses_Expr_close|].
      intros [chain2|]; [apply IH|parses_step].
Qed.

(** In a state with [DividedbyZero] lowered, the constructor of [Expr]
    changes only [FailedToParse] and the output up to the call of
    [Simplify], and prints only when it raises the flag. *)
Lemma parses_Expr_build Toks g r g' :
  DividedbyZero g = false ->
  Expr_build Toks g = Some (r, g') -> parses g g'.
Proof.
  intros Hd. unfold Expr_build. intros H.
  apply Run_bind_Some in H as ([] & g0 & H0 & H).
  injection H0 as <-.
  assert (E0 : set_DividedbyZero false g = g) by (destruct g; cbn in Hd; subst; reflexivity).
  rewrite E0 in H. clear E0.
  apply Run_bind_Some in H as (scanned & g1 & H1 & H).
  apply parses_Expr_scan in H1.
  destruct scanned as [chain|].
  2: { injection H as _ <-. exact H1. }
  apply Run_bind_Some in H as (Root & g2 & H2 & H).
  apply parses_CreateTree in H2.
  apply Run_bind_Some in H as (ok & g3 & H3 & H).
  apply CheckArgument_output in H3 as (out & -> & Hout).
  apply (parses_trans _ _ _ H1). apply (parses_trans _ _ _ H2).
  destruct ok.
  - injection H as _ <-. rewrite (Hout eq_refl).
    destruct g2; apply parses_refl.
  - apply Run_bind_Some in H as ([] & g4 & H4 & H).
    injection H4 as <-. injection H as _ <-.
    unfold parses. cbn. repeat split; try tauto. discriminate.
Qed.

(** *** The variable table *)

Lemma VarMap_find_None_head k k' v m :
  VarMap_find k ((k', v) :: m) = None ->
  String.compare k k' <> Eq /\ VarMap_find k m = None.
Proof.
  cbn [VarMap_find]. destruct (String.eqb_spec k k') as [->|Hne]; [discriminate|].
  intros H. split; [|exact H].
  intros E. apply String.compare_eq_iff in E. contradiction.
Qed.

Lemma VarMap_insert_head k v m :
  VarMap_find k m = None ->
  forall k0, HdRel String_lt k0 (map fst m) -> String_lt k0 k ->
  HdRel String_lt k0 (map fst (VarMap_insert k v m)).
Proof.
  intros Hf k0 Hh Hlt. destruct m as [|[k' v'] m]; cbn [VarMap_insert map fst].
  - constructor. exact Hlt.
  - destruct (String.compare k k'); constructor; cbn [fst];
      solve [exact Hlt | inversion Hh; assumption].
Qed.

Lemma VarMap_insert_sorted k v m :
  VarMap_find k m = None ->
  Sorted String_lt (map fst m) -> Sorted String_lt (map fst (VarMap_insert k v m)).
Proof.
  induction m as [|[k' v'] m IH]; intros Hf Hs; cbn [VarMap_insert map fst].
  - repeat constructor.
  - apply VarMap_find_None_head in Hf as [Hne Hf].
    cbn [map fst] in Hs. apply Sorted_inv in Hs as [Hs Hh].
    destruct (String.compare k k') eqn:Ec; [contradiction| |].
    + cbn [map fst]. constructor; [constructor; assumption|].
      constructor. exact Ec.
    + cbn [map fst]. constructor; [apply IH; assumption|].
      apply VarMap_insert_head; [exact Hf|exact Hh|].
      unfold String_lt. rewrite String.compare_antisym, Ec. reflexivity.
Qed.

Lemma VarMap_insert_keys k v m :
  VarMap_find k m = None ->
  Permutation (map fst (VarMap_insert k v m)) (map fst m ++ [k]).
Proof.
  induction m as [|[k' v'] m IH]; intros Hf; cbn [VarMap_insert map fst app].
  - reflexivity.
  - apply VarMap_find_None_head in Hf as [Hne Hf].
    destruct (String.compare k k'); [contradiction| |]; cbn [map fst].
    + change (k :: k' :: map fst m) with ([k] ++ (k' :: map fst m)).
      rewrite Permutation_app_comm. reflexivity.
    + constructor. apply IH. exact Hf.
Qed.

Lemma GetVarID_table s g :
  VarTable_ok g -> VarTable_ok (GetVarID s g).2 /\ lexes g (GetVarID s g).2.
Proof.
  intros [Hs Hp]. unfold GetVarID.
  destruct (VarMap_find s (VarMap g)) eqn:Ef; cbn [snd].
  - split; [split; assumption|]. unfold lexes. tauto.
  - split; [|unfold lexes; cbn; tauto].
    split; cbn [VarMap Vars set_VarTable].
    + apply VarMap_insert_sorted; assumption.
    + rewrite VarMap_insert_keys by exact Ef.
      apply Permutation_app_tail. exact Hp.
Qed.

Lemma lexes_refl g : lexes g g.
Proof. unfold lexes. tauto. Qed.

Lemma lexes_trans g1 g2 g3 : lexes g1 g2 -> lexes g2 g3 -> lexes g1 g3.
Proof. unfold lexes. intuition congruence. Qed.

Lemma ParseToken_table Type_ segment Toks g :
  VarTable_ok g ->
  VarTable_ok (ParseToken Type_ segment Toks g).2 /\
  lexes g (ParseToken Type_ segment Toks g).2.
Proof.
  intros Hok. destruct Type_; cbn [ParseToken];
    try (split; [exact Hok|apply lexes_refl]).
  destruct (GetFuncID segment =? -1); [|split; [exact Hok|apply lexes_refl]].
  rewrite State_bind_eq. cbn [mret State_ret snd].
  apply GetVarID_table. exact Hok.
Qed.

Lemma GenerateTokens_from_table rest : forall segment LastType Toks g,
  VarTable_ok g ->
  VarTable_ok (GenerateTokens_from rest segment LastType Toks g).2 /\
  lexes g (GenerateTokens_from rest segment LastType Toks g).2.
Proof.
  induction rest as [|c rest IH]; intros segment LastType Toks g Hok;
    cbn [GenerateTokens_from].
  - apply ParseToken_table. exact Hok.
  - destruct (TokCond_eqb LastType (Judge c)).
    + destruct (TokCond_eqb (Judge c) TokCond_Operator); apply IH; exact Hok.
    + rewrite State_bind_eq.
      destruct (ParseToken_table LastType segment Toks g Hok) as [Hok1 Hl1].
      destruct (IH (String c "") (Judge c)
                  (ParseToken LastType segment Toks g).1
                  (ParseToken LastType segment Toks g).2 Hok1) as [Hok2 Hl2].
      split; [exact Hok2|]. eapply lexes_trans; eassumption.
Qed.

Lemma GenerateTokens_table line :
  VarTable_ok (GenerateTokens line Globals_fresh).2 /\
  lexes Globals_fresh (GenerateTokens line Globals_fresh).2.
Proof.
  apply GenerateTokens_from_table. split; cbn; constructor.
Qed.

(** The constructor returns early only with [FailedToParse] raised. *)
Lemma Expr_close_None chain B g g' :
  Expr_close chain B g = Some (None, g') -> FailedToParse g' = true.
Proof.
  unfold Expr_close. destruct (Comma B) as [pCom|]; intros H.
  - apply Run_bind_Some in H as (T1 & g1 & _ & H).
    apply Run_bind_Some in H as (T2 & g2 & _ & H).
    apply Run_bind_Some in H as (g3 & g3' & H3 & H).
    injection H3 as <- <-.
    destruct (FailedToParse g2) eqn:Ef; [injection H as <-; exact Ef|].
    destruct (TokenType_eqb _ _); [discriminate H|].
    apply Run_bind_Some in H as ([] & g4 & H4 & H).
    injection H4 as <-. injection H as <-. reflexivity.
  - apply Run_bind_Some in H as (T1 & g1 & _ & H).
    apply Run_bind_Some in H as (g3 & g3' & H3 & H).
    injection H3 as <- <-.
    destruct (FailedToParse g1) eqn:Ef; [injection H as <-; exact Ef|].
    destruct (TokenType_eqb _ _); discriminate H.
Qed.

Lemma SyntaxError_None msg g (g' : Globals) (A : Type) :
  (lift (SyntaxError msg);; mret (@None A)) g = Some (None, g') ->
  FailedToParse g' = true.
Proof.
  intros H. apply Run_bind_Some in H as ([] & g1 & H1 & H).
  injection H1 as <-. injection H as <-. reflexivity.
Qed.

Lemma Expr_scan_None Toks : forall chain Brackets g g',
  Expr_scan Toks chain Brackets g = Some (None, g') -> FailedToParse g' = true.
Proof.
  induction Toks as [|T Toks IH]; intros chain Brackets g g'; cbn [Expr_scan].
  - destruct Brackets; [discriminate|]. apply SyntaxError_None.
  - destruct (IsLBK T); [apply IH|].
    destruct (IsCOM T).
    { destruct Brackets as [|B Brackets]; [apply SyntaxError_None|].
      destruct (Comma B); [apply SyntaxError_None|apply IH]. }
    destruct (IsRBK T); [|apply IH].
    destruct Brackets as [|B Brackets]; [apply SyntaxError_None|].
    intros H. apply Run_bind_Some in H as (closed & g1 & H1 & H).
    destruct closed as [chain2|]; [exact (IH _ _ _ _ H)|].
    injection H as <-. exact (Expr_close_None _ _ _ _ H1).
Qed.

Lemma Expr_build_go Toks g Root go g' :
  Expr_build Toks g = Some ((Root, go), g') ->
  FailedToParse g' = false -> go = true /\ exists root, Root = Some root.
Proof.
  unfold Expr_build. intros H Hf.
  apply Run_bind_Some in H as ([] & g0 & _ & H).
  apply Run_bind_Some in H as (scanned & g1 & H1 & H).
  destruct scanned as [chain|].
  2: { injection H as _ _ <-. apply Expr_scan_None in H1. congruence. }
  apply Run_bind_Some in H as (root & g2 & _ & H).
  apply Run_bind_Some in H as (ok & g3 & _ & H).
  destruct ok.
  - injection H as <- <- _. split; [reflexivity|]. exists root. reflexivity.
  - apply Run_bind_Some in H as ([] & g4 & H4 & H).
    injection H4 as <-. injection H as _ _ <-. discriminate Hf.
Qed.

(** ** The lines of a round *)

Section RoundLines.

Variable rules : RewriteRules.

(** The loop prints one line for each entry, in the order of the
    entries. *)
Lemma main_derivatives_lines fuel Original entries : forall g g',
  main_derivatives rules fuel Original entries g = Some (tt, g') ->
  Vars g' = Vars g /\ VarMap g' = VarMap g /\ FailedToParse g' = FailedToParse g /\
  exists lines, Output g' = Output g ++ lines /\ Forall2 derivation_line entries lines.
Proof.
  induction entries as [|entry entries IH]; intros g g'; cbn [main_derivatives].
  - intros [= <-]. repeat split. exists []. rewrite app_nil_r.
    split; [reflexivity|constructor].
  - intros H. apply Run_bind_Some in H as ([] & g1 & H1 & H2).
    apply main_derivative_output in H1 as (A1 & A2 & A3 & _ & _ & text & A4).
    apply IH in H2 as (B1 & B2 & B3 & lines & B4 & B5).
    repeat split; try congruence.
    exists (derivation_lines entry.1 (DividedbyZero g1) text ++ lines).
    split; [rewrite B4, A4, app_assoc; reflexivity|].
    assert (E : exists line, derivation_lines entry.1 (DividedbyZero g1) text = [line]).
    { unfold derivation_lines. destruct (DividedbyZero g1); eexists; reflexivity. }
    destruct E as [l E]. rewrite E. cbn [app]. constructor; [|exact B5].
    exists (DividedbyZero g1), text. symmetry. exact E.
Qed.

(** The constructor of [Expr] on the tokens of a line, from a state with
    nothing printed and no flag raised: when it ends with [FailedToParse]
    lowered it has printed the report of a zero denominator and raised
    [DividedbyZero], or it has printed nothing. *)
Lemma Expr_of_tokens_output fuel Toks g Original g' :
  DividedbyZero g = false -> Output g = [] ->
  Expr_of_tokens rules fuel Toks g = Some (Original, g') ->
  FailedToParse g' = false ->
  Vars g' = Vars g /\ VarMap g' = VarMap g /\
  ((DividedbyZero g' = true /\ Output g' = [RuntimeError]) \/
   (DividedbyZero g' = false /\ Output g' = [])).
Proof.
  intros Hd Ho H Hf. unfold Expr_of_tokens in H.
  apply Run_bind_Some in H as ([Root go] & g1 & H1 & H).
  pose proof (Expr_build_go _ _ _ _ _ H1) as Hgo.
  apply (parses_Expr_build _ _ _ _ Hd) in H1 as (_ & P2 & P3 & _ & P5 & _ & P7).
  destruct Root as [root|].
  2: { injection H as _ <-. destruct (Hgo Hf) as (_ & root & E). discriminate E. }
  destruct go.
  2: { injection H as _ <-. destruct (Hgo Hf) as (E & _). discriminate E. }
  apply simplifies_Simplify in H as (_ & S2 & S3 & S4 & _ & S6 & S7).
  rewrite S4 in Hf. rewrite (P7 Hf), Ho, P5, Hd in S7. rewrite P5, Hd in S6.
  cbn [negb andb orb app] in S6, S7. rewrite <- S6 in S7.
  split; [congruence|]. split; [congruence|].
  destruct (DividedbyZero g'); [left|right]; (split; [reflexivity|exact S7]).
Qed.

(** A round that ends with [FailedToParse] lowered: the variable table
    is the one the lexer built, it is in order, and the output is the
    report alone (from the simplification of the line itself) or one line
    for every entry of [VarMap], in the order of the entries. *)
Lemma main_round_lines fuel line g :
  main_round rules fuel line = Some g -> FailedToParse g = false ->
  VarMap g = VarMap (GenerateTokens line Globals_fresh).2 /\
  Vars g = Vars (GenerateTokens line Globals_fresh).2 /\
  VarTable_ok g /\
  (Output g = [RuntimeError] \/ Forall2 derivation_line (VarMap g) (Output g)).
Proof.
  unfold main_round. cbv zeta. intros H Hf.
  match type of H with match ?m with _ => _ end = _ => destruct m as [[[] g0]|] eqn:Hr end;
    [|discriminate H].
  injection H as ->.
  apply Run_bind_Some in Hr as (Toks & g1 & H1 & Hr).
  injection H1 as H1.
  destruct (GenerateTokens_table line) as [Hok (_ & L2 & L3 & L4)].
  rewrite H1 in Hok, L2, L3, L4. cbn [snd] in Hok, L2, L3, L4.
  replace (GenerateTokens line Globals_fresh).2 with g1 by (rewrite H1; reflexivity).
  apply Run_bind_Some in Hr as (Original & g2 & H2 & Hr).
  apply Run_bind_Some in Hr as (g2' & g2'' & H3 & Hr).
  injection H3 as <- <-.
  assert (Hf2 : FailedToParse g2 = false).
  { destruct (FailedToParse g2 || DividedbyZero g2) eqn:Eb.
    - injection Hr as <-. exact Hf.
    - apply orb_false_elim in Eb as [Eb _]. exact Eb. }
  apply Expr_of_tokens_output in H2 as (E1 & E2 & Hcase);
    [|exact L3|exact L4|exact Hf2].
  destruct Hcase as [(Ed & Eo)|(Ed & Eo)].
  - rewrite Hf2, Ed in Hr. injection Hr as <-.
    repeat split; try assumption.
    + destruct Hok as [Hs _]. rewrite E2. exact Hs.
    + destruct Hok as [_ Hp]. rewrite E1, E2. exact Hp.
    + left. exact Eo.
  - rewrite Hf2, Ed in Hr. cbn [orb] in Hr.
    apply main_derivatives_lines in Hr as (B1 & B2 & B3 & lines & B4 & B5).
    rewrite Eo in B4. cbn [app] in B4.
    repeat split; try congruence.
    + destruct Hok as [Hs _]. rewrite B2, E2. exact Hs.
    + destruct Hok as [_ Hp]. rewrite B1, B2, E1, E2. exact Hp.
    + right. rewrite B4, B2. exact B5.
Qed.

End RoundLines.

(** C4 (amended).  For every line that is parsed without a syntax error
    and on which the round of [main] runs to its end (the simplifier does
    not return on every parsed line), the loop of [main] prints the
    derivative lines in the order in which the variable table [VarMap]
    yields its entries, which is the ascending order of the names of the
    variables (the names being those recorded in [Vars] in the order of
    their first occurrence): one line for each variable, of the form
    [name: expression], or the report of a zero denominator in the place of
    the line of a variable whose derivation reported one; if the
    simplification of the line itself reported a zero denominator, that
    report is all that is printed. *)
Theorem main_round_derivative_order (rules : RewriteRules) (fuel : nat)
  (line : string) (g : Globals) :
  main_round rules fuel line = Some g -> FailedToParse g = false ->
  Sorted String_lt (map fst (VarMap g)) /\
  Permutation (map fst (VarMap g)) (Vars g) /\
  (Output g = [RuntimeError] \/ Forall2 derivation_line (VarMap g) (Output g)).
Proof.
  intros H Hf.
  destruct (main_round_lines rules fuel line g H Hf) as (_ & _ & [Hs Hp] & Ho).
  repeat split; assumption.
Qed.

(** The derivation of the integer 0 prints [0], whatever the rules. *)
Lemma main_derivative_zero (rules : RewriteRules) (fuel : nat) (entry : string * Z)
  (g : Globals) :
  (2 <= fuel)%nat ->
  main_derivative rules fuel (Some (Const 0)) entry g
  = Some (tt, set_Output (Output g ++ [(entry.1 ++ ": 0")%string])
                 (set_DividedbyZero false g)).
Proof.
  intros Hf. destruct entry as [Name VarID].
  unfold main_derivative, Expr_partial, mbind, Run_bind, lift, of_option.
  cbn [modify_Globals Partial ExprNode_V Const CreateNode Token_of_int Ty].
  rewrite (Simplify_zero_leaf rules fuel _ Hf). reflexivity.
Qed.

(** The line [0*y+0*x], on which no rule is consulted: [Simplify_01] makes
    it the integer 0 in the first pass. *)
Lemma main_round_derivative_order_witness :
  let g := mkGlobals 2 ["y"; "x"] [("x", 1); ("y", 0)] ∅ false false
             ["x: 0"; "y: 0"] 0 in
  (main_round no_rewrite 2 "0*y+0*x" = Some g /\ FailedToParse g = false) /\
  Sorted String_lt (map fst (VarMap g)) /\
  Permutation (map fst (VarMap g)) (Vars g) /\
  (Output g = [RuntimeError] \/ Forall2 derivation_line (VarMap g) (Output g)).
Proof.
  intros g.
  assert (H : main_round no_rewrite 2 "0*y+0*x" = Some g) by (vm_compute; reflexivity).
  split; [split; [exact H|reflexivity]|].
  exact (main_round_derivative_order no_rewrite 2 "0*y+0*x" g H eq_refl).
Defined.

(** C4 (as stated) fails: in the line [0*y+0*x] the variable [y] occurs
    first and [x] second, but the variable table yields [x] before [y]; the
    round prints the line of [x] and then the line of [y], whatever the
    rules do, which are not consulted on this line.  Likewise for the line
    [y+x], on which they are: if the round runs to its end, the line of [x]
    comes first. *)
Lemma lines_follow_names_not_occurrence :
  (Vars (GenerateTokens "0*y+0*x" Globals_fresh).2 = ["y"; "x"] /\
   VarMap (GenerateTokens "0*y+0*x" Globals_fresh).2 = [("x", 1); ("y", 0)]) /\
  (forall rules fuel, (2 <= fuel)%nat ->
     exists g, main_round rules fuel "0*y+0*x" = Some g /\
       Vars g = ["y"; "x"] /\ Output g = ["x: 0"; "y: 0"]) /\
  (forall rules fuel g,
     main_round rules fuel "y+x" = Some g -> FailedToParse g = false ->
     Vars g = ["y"; "x"] /\
     (Output g = [RuntimeError] \/
      Forall2 derivation_line [("x", 1); ("y", 0)] (Output g))).
Proof.
  split; [split; reflexivity|]. split.
  - intros rules fuel Hf.
    exists (mkGlobals 2 ["y"; "x"] [("x", 1); ("y", 0)] ∅ false false
              ["x: 0"; "y: 0"] 0).
    split; [|split; reflexivity].
    unfold main_round, mbind, Run_bind, lift.
    change (GenerateTokens "0*y+0*x" Globals_fresh)
      with ([Token_of_int 0; MUL; Token_of_var 0; ADD; Token_of_int 0; MUL; Token_of_var 1],
            mkGlobals 2 ["y"; "x"] [("x", 1); ("y", 0)] ∅ false false [] 0).
    unfold Expr_of_tokens, mbind, Run_bind.
    change (Expr_build _ _)
      with (Some ((Some (BinOp ADD (BinOp MUL (Const 0) (Var 0))
                                   (BinOp MUL (Const 0) (Var 1))), true),
                  mkGlobals 2 ["y"; "x"] [("x", 1); ("y", 0)] ∅ false false [] 0)).
    cbv beta iota.
    assert (Hp : Simplify_passes rules
                   (BinOp ADD (BinOp MUL (Const 0) (Var 0)) (BinOp MUL (Const 0) (Var 1)))
                   (mkGlobals 2 ["y"; "x"] [("x", 1); ("y", 0)] ∅ false false [] 0)
                 = Some (Const 0,
                         mkGlobals 2 ["y"; "x"] [("x", 1); ("y", 0)] ∅ false false [] 0))
      by (vm_compute; reflexivity).
    rewrite (Simplify_to_zero_leaf rules fuel _ _ Hf Hp).
    cbn [get_Globals FailedToParse DividedbyZero orb VarMap main_derivatives].
    unfold mbind, Run_bind.
    rewrite (main_derivative_zero rules fuel _ _ Hf).
    rewrite (main_derivative_zero rules fuel _ _ Hf).
    reflexivity.
  - intros rules fuel g H Hf.
    destruct (main_round_lines rules fuel "y+x" g H Hf) as (Em & Ev & _ & Ho).
    change (VarMap (GenerateTokens "y+x" Globals_fresh).2)
      with [("x", 1); ("y", 0)] in Em.
    change (Vars (GenerateTokens "y+x" Globals_fresh).2) with ["y"; "x"] in Ev.
    rewrite Em in Ho. split; assumption.
Qed.

(** * Further properties *)

(** ** More on the hash *)

Lemma TransformHash_congruent a b :
  TransformHash a = TransformHash b -> (2 ^ 64 | a - b).
Proof.
  unfold TransformHash, wrap64. intros E.
  assert (D : (2 ^ 64 | (a * 6364136223846793005 + 7) - (b * 6364136223846793005 + 7))).
  { apply Z.mod_divide; [lia|].
    rewrite Zminus_mod, E, Z.sub_diag. reflexivity. }
  replace (a * 6364136223846793005 + 7 - (b * 6364136223846793005 + 7))
    with (6364136223846793005 * (a - b)) in D by lia.
  apply Z.gauss in D; [exact D|]. vm_compute. reflexivity.
Qed.

Lemma divide_small d z : 0 < d -> - d < z < d -> (d | z) -> z = 0.
Proof.
  intros Hd Hz [k ->]. assert (k = 0) by nia. subst. lia.
Qed.

(** X1.  [TransformHash] is one-to-one on the 64-bit values: two different
    hashes are never transformed into the same one (the multiplier is odd,
    hence invertible modulo [2 ^ 64]). *)
Theorem TransformHash_injective (a b : Z) :
  0 <= a < 2 ^ 64 -> 0 <= b < 2 ^ 64 ->
  TransformHash a = TransformHash b -> a = b.
Proof.
  intros Ha Hb E. apply TransformHash_congruent in E.
  apply divide_small in E; lia.
Qed.

(** The hash of the token of the integer 0. *)
Lemma TransformHash_injective_witness : Token_bits Token_default = 0.
Proof.
  apply TransformHash_injective; [vm_compute; split; congruence..|reflexivity].
Defined.

Lemma Token_bits_range T : 0 <= Token_bits T < 2 ^ 64.
Proof.
  unfold Token_bits.
  assert (0 <= TokenType_code (Ty T) < 4) by (destruct (Ty T); cbn; lia).
  assert (0 <= ID T mod 2 ^ 32 < 2 ^ 32) by (apply Z.mod_pos_bound; lia).
  lia.
Qed.

Lemma Token_Hash_injective T1 T2 :
  Int32 (ID T1) -> Int32 (ID T2) ->
  Token_Hash T1 = Token_Hash T2 -> T1 = T2.
Proof.
  unfold Token_Hash, Int32, Int32_min, Int32_max. intros H1 H2 E.
  apply TransformHash_injective in E; try apply Token_bits_range.
  unfold Token_bits in E.
  assert (C1 : 0 <= TokenType_code (Ty T1) < 4) by (destruct (Ty T1); cbn; lia).
  assert (C2 : 0 <= TokenType_code (Ty T2) < 4) by (destruct (Ty T2); cbn; lia).
  assert (M1 : 0 <= ID T1 mod 2 ^ 32 < 2 ^ 32) by (apply Z.mod_pos_bound; lia).
  assert (M2 : 0 <= ID T2 mod 2 ^ 32 < 2 ^ 32) by (apply Z.mod_pos_bound; lia).
  assert (Ec : TokenType_code (Ty T1) = TokenType_code (Ty T2)) by lia.
  assert (Em : ID T1 mod 2 ^ 32 = ID T2 mod 2 ^ 32) by lia.
  assert (Ei : ID T1 = ID T2).
  { assert (D : (2 ^ 32 | ID T1 - ID T2)).
    { apply Z.mod_divide; [lia|]. rewrite Zminus_mod, Em, Z.sub_diag. reflexivity. }
    apply divide_small in D; lia. }
  destruct T1 as [t1 i1], T2 as [t2 i2]. cbn in *. subst i2. f_equal.
  destruct t1, t2; cbn in Ec; congruence.
Qed.

Lemma Hash_leaf T : Hash (CreateNode T) = Token_Hash T.
Proof.
  unfold CreateNode. cbn [Hash].
  assert (R : wrap64 (Token_Hash T) = Token_Hash T)
    by (unfold Token_Hash, TransformHash; apply wrap64_idem).
  destruct (_ || _); rewrite ?Z.add_0_r; exact R.
Qed.

Lemma Token_eqb_eq T1 T2 : Token_eqb T1 T2 = true <-> T1 = T2.
Proof.
  unfold Token_eqb, TokenType_eqb. rewrite andb_true_iff, !Z.eqb_eq.
  destruct T1 as [t1 i1], T2 as [t2 i2]. cbn. split.
  - intros [Et ->]. f_equal. destruct t1, t2; cbn in Et; congruence.
  - intros E. injection E as -> ->. split; reflexivity.
Qed.

(** X2.  [Equal] never confuses two leaves: on two childless nodes whose
    tokens hold 32-bit ids and are neither [+] nor [*] (on a childless [+]
    or [*] the hash reads the first element of an empty vector),
    [ExprNode::Hash] returns on both and [Equal] answers exactly as
    [Token::operator==] on the two tokens (same kind and same id). *)
Theorem Equal_leaves (T1 T2 : Token) :
  Int32 (ID T1) -> Int32 (ID T2) ->
  Token_eqb T1 ADD || Token_eqb T1 MUL = false ->
  Token_eqb T2 ADD || Token_eqb T2 MUL = false ->
  Hash_defined (CreateNode T1) = true /\
  Hash_defined (CreateNode T2) = true /\
  Equal (Some (CreateNode T1)) (Some (CreateNode T2)) = Token_eqb T1 T2.
Proof.
  intros H1 H2 N1 N2.
  split; [unfold CreateNode; cbn [Hash_defined]; rewrite N1; reflexivity|].
  split; [unfold CreateNode; cbn [Hash_defined]; rewrite N2; reflexivity|].
  unfold Equal. rewrite !Hash_leaf.
  destruct (Token_eqb T1 T2) eqn:E.
  - apply Token_eqb_eq in E. subst. apply Z.eqb_refl.
  - apply Z.eqb_neq. intros EH. apply Token_Hash_injective in EH; try assumption.
    apply Token_eqb_eq in EH. congruence.
Qed.

(** An integer and a variable with the same id. *)
Lemma Equal_leaves_witness :
  Hash_defined (CreateNode (Token_of_int 3)) = true /\
  Hash_defined (CreateNode (Token_of_var 3)) = true /\
  Equal (Some (CreateNode (Token_of_int 3))) (Some (CreateNode (Token_of_var 3)))
  = Token_eqb (Token_of_int 3) (Token_of_var 3).
Proof.
  apply Equal_leaves; [unfold Int32, Int32_min, Int32_max; cbn; lia..
                      |reflexivity|reflexivity].
Defined.

(** On a childless [+] the hash does not return. *)
Example Hash_defined_childless_ADD :
  Hash_defined (CreateNode ADD) = false /\ Hash_defined (CreateNode MUL) = false /\
  Hash_defined (CreateNode SUB) = true.
Proof. repeat split; reflexivity. Qed.

Lemma Hash_sum_Permutation C1 C2 :
  Permutation (map Hash C1) (map Hash C2) -> Hash_sum C1 = Hash_sum C2.
Proof.
  assert (E : forall C, Hash_sum C = fold_right (fun h s => TransformHash h + s) 0 (map Hash C)).
  { induction C as [|c C IH]; [reflexivity|]. unfold Hash_sum in *. cbn. rewrite IH. reflexivity. }
  rewrite !E. generalize (map Hash C1) (map Hash C2). clear.
  induction 1; cbn; lia.
Qed.

(** X3.  Under [+] and under [*] the hash depends only on which terms the
    chain of that operator has, not on their order nor on how the chain is
    bracketed: two nodes of the operator whose chains, as
    [TraverseTreeNodes] lists them, are permutations of each other have the
    same hash. *)
Theorem Hash_chain_Permutation (V : Token) (L R L' R' : option ExprNode) :
  Token_eqb V ADD || Token_eqb V MUL = true ->
  Permutation (TraverseTreeNodes_Impl (Node V L R) V)
              (TraverseTreeNodes_Impl (Node V L' R') V) ->
  Hash (Node V L R) = Hash (Node V L' R').
Proof.
  intros Hc HP. rewrite !Hash_chain by exact Hc.
  rewrite !Hash_loop_sum by (unfold Token_Hash, TransformHash; apply wrap64_idem).
  rewrite (Hash_sum_Permutation _ _ (Permutation_map Hash HP)). reflexivity.
Qed.

(** [(x + y) + 2] and [2 + (y + x)]. *)
Lemma Hash_chain_Permutation_witness :
  Hash (BinOp ADD (BinOp ADD (Var 0) (Var 1)) (Const 2))
  = Hash (BinOp ADD (Const 2) (BinOp ADD (Var 1) (Var 0))).
Proof.
  apply Hash_chain_Permutation; [reflexivity|].
  change (Permutation [Var 0; Var 1; Const 2] (rev [Var 0; Var 1; Const 2])).
  apply Permutation_rev.
Defined.

(** ** More on the lexer *)

Lemma pretty_N_char_code d : (d < 10)%N -> char_code (pretty_N_char d) - char_code "0" = Z.of_N d.
Proof.
  intros H.
  assert (d = 0 \/ d = 1 \/ d = 2 \/ d = 3 \/ d = 4 \/ d = 5 \/ d = 6 \/ d = 7
          \/ d = 8 \/ d = 9)%N as E by lia.
  repeat (destruct E as [->|E]; [reflexivity|]). subst. reflexivity.
Qed.

Lemma pretty_N_char_digit d : (d < 10)%N -> isdigit (pretty_N_char d) = true.
Proof.
  intros H.
  assert (d = 0 \/ d = 1 \/ d = 2 \/ d = 3 \/ d = 4 \/ d = 5 \/ d = 6 \/ d = 7
          \/ d = 8 \/ d = 9)%N as E by lia.
  repeat (destruct E as [->|E]; [reflexivity|]). subst. reflexivity.
Qed.

Lemma StrToIntEx_pretty_N_go x : forall s,
  Z.of_N x <= Int32_max ->
  StrToIntEx_from 0 (pretty_N_go x s) = StrToIntEx_from (Z.of_N x) s.
Proof.
  induction (N.lt_wf_0 x) as [x _ IH]. intros s Hx.
  destruct (N.eq_dec x 0%N) as [->|Hne].
  - rewrite pretty_N_go_0. reflexivity.
  - assert (Hpos : (0 < x)%N) by lia.
    rewrite pretty_N_go_step by exact Hpos.
    assert (Hd : (x `div` 10 < x)%N) by (apply N.div_lt; lia).
    assert (Hm : (x `mod` 10 < 10)%N) by (apply N.mod_lt; lia).
    rewrite IH; [|exact Hd|lia].
    unfold StrToIntEx_from. cbn [list_ascii_of_string fold_left].
    f_equal. rewrite pretty_N_char_code by exact Hm.
    pose proof (N.div_mod x 10%N ltac:(lia)) as E.
    unfold Int32_max in Hx.
    remember (x `div` 10)%N as q eqn:Eq. remember (x `mod` 10)%N as r eqn:Er.
    clear Eq Er IH.
    assert (B : 0 <= Z.of_N q * 10 /\ Z.of_N q * 10 + Z.of_N r = Z.of_N x) by lia.
    rewrite (wrap32_id (Z.of_N q * 10)) by (unfold Int32, Int32_min, Int32_max; lia).
    destruct B as [B1 B2]. rewrite B2.
    apply wrap32_id. unfold Int32, Int32_min, Int32_max. lia.
Qed.

(** X4.  [StrToIntEx] reads back what printing writes: on the decimal
    digits of a non-negative [int] it returns that [int]. *)
Theorem StrToIntEx_pretty (n : Z) :
  0 <= n <= Int32_max -> StrToIntEx (pretty n) = n.
Proof.
  intros Hn. destruct n as [|p|p]; [reflexivity| |lia].
  change (pretty (Z.pos p)) with (pretty_N_go (N.pos p) "").
  change StrToIntEx with (StrToIntEx_from 0).
  rewrite StrToIntEx_pretty_N_go by (cbn; lia). reflexivity.
Qed.

(** The largest [int]. *)
Lemma StrToIntEx_pretty_witness : StrToIntEx (pretty 2147483647) = 2147483647.
Proof. apply StrToIntEx_pretty. unfold Int32_max. lia. Defined.

Lemma isdigit_Judge c : isdigit c = true -> Judge c = TokCond_Number.
Proof. unfold Judge. intros ->. reflexivity. Qed.

(** Inside a run of digits the lexer only extends the segment. *)
Lemma GenerateTokens_from_digits rest : forall segment Toks g,
  all_digits rest = true ->
  GenerateTokens_from rest segment TokCond_Number Toks g
  = ParseToken TokCond_Number (segment ++ rest)%string Toks g.
Proof.
  induction rest as [|c rest IH]; intros segment Toks g H.
  - cbn [GenerateTokens_from]. rewrite string_app_nil_r. reflexivity.
  - unfold all_digits in H. cbn [list_ascii_of_string forallb] in H.
    apply andb_prop in H as [Hc Hr].
    cbn [GenerateTokens_from]. rewrite (isdigit_Judge c Hc). cbn [TokCond_eqb].
    rewrite IH by exact Hr. rewrite string_app_snoc. reflexivity.
Qed.

(** X5.  A line that is one run of digits is one token, the integer that
    [StrToIntEx] reads from the whole run, and lexing it leaves the globals
    as they are. *)
Theorem GenerateTokens_digits (s : string) (g : Globals) :
  s <> "" -> all_digits s = true ->
  GenerateTokens s g = ([Token_of_int (StrToIntEx s)], g).
Proof.
  intros Hs Ha. destruct s as [|c rest]; [contradiction|].
  unfold all_digits in Ha. cbn [list_ascii_of_string forallb] in Ha.
  apply andb_prop in Ha as [Hc Hr].
  unfold GenerateTokens. cbn [GenerateTokens_from].
  rewrite (isdigit_Judge c Hc). cbn [TokCond_eqb ParseToken].
  rewrite State_bind_eq. cbn [mret State_ret fst snd].
  rewrite GenerateTokens_from_digits by exact Hr.
  reflexivity.
Qed.

(** Leading zeros belong to the run. *)
Lemma GenerateTokens_digits_witness :
  GenerateTokens "0042" Globals_fresh = ([Token_of_int (StrToIntEx "0042")], Globals_fresh).
Proof. apply GenerateTokens_digits; [discriminate|reflexivity]. Defined.

Lemma IsOpr_Judge c : IsOpr c = true -> Judge c = TokCond_Operator.
Proof.
  unfold Judge. intros H. rewrite H.
  assert (E : isdigit c = false /\ isalpha c = false).
  { unfold IsOpr, Operators in H. cbn [list_ascii_of_string existsb] in H.
    repeat (apply orb_prop in H as [H|H]; [apply Ascii.eqb_eq in H; subst; split; reflexivity|]).
    discriminate H. }
  destruct E as [-> ->]. reflexivity.
Qed.

Lemma GenerateTokens_from_operators rest : forall c Toks g,
  all_operators rest = true ->
  GenerateTokens_from rest (String c "") TokCond_Operator Toks g
  = (Toks ++ map Token_of_char (c :: list_ascii_of_string rest), g).
Proof.
  induction rest as [|d rest IH]; intros c Toks g H.
  - reflexivity.
  - unfold all_operators in H. cbn [list_ascii_of_string forallb] in H.
    apply andb_prop in H as [Hd Hr].
    cbn [GenerateTokens_from]. rewrite (IsOpr_Judge d Hd). cbn [TokCond_eqb].
    rewrite IH by exact Hr. cbn [first_char list_ascii_of_string map].
    rewrite <- app_assoc. reflexivity.
Qed.

(** X6.  Operator characters are never grouped: a line made of the
    characters [+-*/^,()] only is lexed into one operator token for each
    character, in order, and the globals are left as they are. *)
Theorem GenerateTokens_operators (s : string) (g : Globals) :
  all_operators s = true ->
  GenerateTokens s g = (map Token_of_char (list_ascii_of_string s), g).
Proof.
  intros Ha. destruct s as [|c rest]; [reflexivity|].
  unfold all_operators in Ha. cbn [list_ascii_of_string forallb] in Ha.
  apply andb_prop in Ha as [Hc Hr].
  unfold GenerateTokens. cbn [GenerateTokens_from].
  rewrite (IsOpr_Judge c Hc). cbn [TokCond_eqb ParseToken].
  rewrite State_bind_eq. cbn [mret State_ret fst snd].
  apply GenerateTokens_from_operators. exact Hr.
Qed.

(** Two minus signs and a bracket. *)
Lemma GenerateTokens_operators_witness :
  GenerateTokens "--(" Globals_fresh
  = (map Token_of_char (list_ascii_of_string "--("), Globals_fresh).
Proof. apply GenerateTokens_operators. reflexivity. Defined.

(** The tokens already made are only added to. *)
Lemma ParseToken_app Type_ segment Toks g :
  ParseToken Type_ segment Toks g
  = (Toks ++ (ParseToken Type_ segment [] g).1, (ParseToken Type_ segment [] g).2).
Proof.
  destruct Type_; cbn [ParseToken mret State_ret fst snd]; rewrite ?app_nil_r; try reflexivity.
  destruct (GetFuncID segment =? -1); [|reflexivity].
  rewrite !State_bind_eq. reflexivity.
Qed.

Lemma GenerateTokens_from_app rest : forall segment LastType Toks g,
  GenerateTokens_from rest segment LastType Toks g
  = (Toks ++ (GenerateTokens_from rest segment LastType [] g).1,
     (GenerateTokens_from rest segment LastType [] g).2).
Proof.
  induction rest as [|c rest IH]; intros segment LastType Toks g;
    cbn [GenerateTokens_from].
  - apply ParseToken_app.
  - destruct (TokCond_eqb LastType (Judge c)).
    + destruct (TokCond_eqb (Judge c) TokCond_Operator).
      * rewrite IH. rewrite (IH _ _ ([] ++ _)). cbn [fst snd].
        rewrite <- app_assoc. reflexivity.
      * apply IH.
    + rewrite !State_bind_eq.
      rewrite (ParseToken_app LastType segment Toks). cbn [fst snd].
      rewrite IH. rewrite (IH _ _ (ParseToken LastType segment [] g).1).
      cbn [fst snd]. rewrite <- app_assoc. reflexivity.
Qed.

(** After a character that is no token the segment is of no account. *)
Lemma GenerateTokens_from_Null rest : forall segment segment' Toks g,
  GenerateTokens_from rest segment TokCond_Null Toks g
  = GenerateTokens_from rest segment' TokCond_Null Toks g.
Proof.
  induction rest as [|c rest IH]; intros segment segment' Toks g;
    cbn [GenerateTokens_from]; [reflexivity|].
  destruct (Judge c); cbn [TokCond_eqb]; [apply IH|reflexivity..].
Qed.

Lemma GenerateTokens_from_separator s1 : forall c s2 segment LastType Toks g,
  Judge c = TokCond_Null ->
  GenerateTokens_from (s1 ++ String c s2)%string segment LastType Toks g
  = GenerateTokens_from s2 "" TokCond_Null
      (GenerateTokens_from s1 segment LastType Toks g).1
      (GenerateTokens_from s1 segment LastType Toks g).2.
Proof.
  induction s1 as [|d s1 IH]; intros c s2 segment LastType Toks g Hc.
  - change ("" ++ String c s2)%string with (String c s2).
    cbn [GenerateTokens_from]. rewrite Hc.
    destruct LastType; cbn [TokCond_eqb ParseToken mret State_ret fst snd];
      rewrite ?State_bind_eq; try apply GenerateTokens_from_Null.
  - change (String d s1 ++ String c s2)%string with (String d (s1 ++ String c s2)).
    cbn [GenerateTokens_from].
    destruct (TokCond_eqb LastType (Judge d)).
    + destruct (TokCond_eqb (Judge d) TokCond_Operator); apply IH; exact Hc.
    + rewrite !State_bind_eq. apply IH. exact Hc.
Qed.

(** X7.  A character that is no token (a space, say) separates tokens and
    is otherwise ignored: the tokens of [s1 c s2] are the tokens of [s1]
    followed by the tokens of [s2], lexed in the state that lexing [s1]
    leaves. *)
Theorem GenerateTokens_separator (s1 s2 : string) (c : ascii) (g : Globals) :
  Judge c = TokCond_Null ->
  GenerateTokens (s1 ++ String c s2) g
  = ((GenerateTokens s1 g).1 ++ (GenerateTokens s2 (GenerateTokens s1 g).2).1,
     (GenerateTokens s2 (GenerateTokens s1 g).2).2).
Proof.
  intros Hc. unfold GenerateTokens.
  rewrite GenerateTokens_from_separator by exact Hc.
  apply GenerateTokens_from_app.
Qed.

(** [x+1 2y]. *)
Lemma GenerateTokens_separator_witness :
  GenerateTokens ("x+1" ++ String " " "2y") Globals_fresh
  = ((GenerateTokens "x+1" Globals_fresh).1
       ++ (GenerateTokens "2y" (GenerateTokens "x+1" Globals_fresh).2).1,
     (GenerateTokens "2y" (GenerateTokens "x+1" Globals_fresh).2).2).
Proof. apply GenerateTokens_separator. reflexivity. Defined.

Lemma GetFuncID_from_spec fs : forall i s,
  (GetFuncID_from i fs s = -1 /\ ~ In s (map Name fs)) \/
  (exists n F, GetFuncID_from i fs s = i + Z.of_nat n /\ fs !! n = Some F /\ Name F = s).
Proof.
  induction fs as [|f fs IH]; intros i s; cbn [GetFuncID_from map In].
  - left. split; [reflexivity|tauto].
  - destruct (String.eqb_spec (Name f) s) as [E|Hne].
    + right. exists 0%nat, f. split; [lia|]. split; [reflexivity|exact E].
    + destruct (IH (i + 1) s) as [[E Hn]|(n & F & E & Hl & HN)].
      * left. split; [exact E|]. intros [H|H]; contradiction.
      * right. exists (S n), F. split; [lia|]. split; assumption.
Qed.

(** X8.  [GetFuncID] returns -1 exactly for a name that is not in
    [Funcs]; for any other name it returns an index inside the table, that
    of a function with this name. *)
Theorem GetFuncID_spec (s : string) :
  (GetFuncID s = -1 /\ ~ In s (map Name Funcs)) \/
  (exists F, Funcs_at (GetFuncID s) = Some F /\ Name F = s).
Proof.
  unfold GetFuncID.
  destruct (GetFuncID_from_spec Funcs 0 s) as [H|(n & F & E & Hl & HN)]; [left; exact H|].
  right. exists F. split; [|exact HN].
  rewrite E. unfold Funcs_at.
  destruct (0 + Z.of_nat n <? 0) eqn:Hlt; [lia|].
  replace (Z.to_nat (0 + Z.of_nat n)) with n by lia. exact Hl.
Qed.

Lemma VarMap_find_insert k v m : VarMap_find k (VarMap_insert k v m) = Some v.
Proof.
  induction m as [|[k' v'] m IH]; cbn [VarMap_insert VarMap_find].
  - rewrite String.eqb_refl. reflexivity.
  - destruct (String.compare k k') eqn:Ec; cbn [VarMap_find].
    + apply String.compare_eq_iff in Ec. subst. rewrite String.eqb_refl. reflexivity.
    + rewrite String.eqb_refl. reflexivity.
    + destruct (String.eqb_spec k k') as [->|Hne]; [|exact IH].
      pose proof (String.compare_antisym k' k') as A. rewrite Ec in A. discriminate A.
Qed.

Lemma VarMap_find_insert_ne k k0 v m :
  k0 <> k -> VarMap_find k0 (VarMap_insert k v m) = VarMap_find k0 m.
Proof.
  intros Hne. induction m as [|[k' v'] m IH]; cbn [VarMap_insert VarMap_find].
  - destruct (String.eqb_spec k0 k); [contradiction|reflexivity].
  - destruct (String.compare k k') eqn:Ec; cbn [VarMap_find].
    + apply String.compare_eq_iff in Ec. subst k'.
      destruct (String.eqb_spec k0 k); [contradiction|reflexivity].
    + destruct (String.eqb_spec k0 k); [contradiction|reflexivity].
    + rewrite IH. reflexivity.
Qed.

(** X9.  Looking a name up again: a second call of [GetVarID] for the
    same name returns the id that the first call returned and leaves the
    variable table as the first call left it. *)
Theorem GetVarID_again (s : string) (g : Globals) :
  GetVarID s (GetVarID s g).2 = GetVarID s g.
Proof.
  unfold GetVarID. destruct (VarMap_find s (VarMap g)) eqn:Ef; cbn [snd fst].
  - rewrite Ef. reflexivity.
  - cbn [VarMap set_VarTable]. rewrite VarMap_find_insert. reflexivity.
Qed.

Lemma GetVarID_indexed s g :
  VarTable_indexed g -> VarMaxID g < Int32_max ->
  VarTable_indexed (GetVarID s g).2 /\
  0 <= (GetVarID s g).1 /\
  Vars (GetVarID s g).2 !! Z.to_nat (GetVarID s g).1 = Some s /\
  (exists new, Vars (GetVarID s g).2 = Vars g ++ new /\ (length new <= 1)%nat).
Proof.
  intros [Hn Hm] Hb. unfold GetVarID.
  destruct (VarMap_find s (VarMap g)) as [id|] eqn:Ef; cbn [fst snd].
  - destruct (Hm s id Ef) as [H0 Hl].
    split; [split; assumption|]. split; [exact H0|]. split; [exact Hl|].
    exists []. rewrite app_nil_r. split; [reflexivity|cbn; lia].
  - cbn [Vars VarMap VarMaxID set_VarTable].
    assert (Hl : (Vars g ++ [s]) !! Z.to_nat (VarMaxID g) = Some s).
    { rewrite Hn, Nat2Z.id. rewrite lookup_app_r by lia.
      rewrite Nat.sub_diag. reflexivity. }
    split; [split|]; cbn [Vars VarMap VarMaxID set_VarTable].
    + rewrite wrap32_id by (unfold Int32, Int32_min, Int32_max in *; lia).
      rewrite length_app. cbn [length]. lia.
    + intros s0 id H. destruct (String.eqb_spec s0 s) as [->|Hne].
      * rewrite VarMap_find_insert in H. injection H as <-. split; [lia|exact Hl].
      * rewrite VarMap_find_insert_ne in H by exact Hne.
        destruct (Hm s0 id H) as [H0 Hv]. split; [exact H0|].
        apply lookup_app_l_Some. exact Hv.
    + split; [lia|]. split; [exact Hl|].
      exists [s]. split; [reflexivity|cbn; lia].
Qed.

Lemma Token_in_table_app vars new T :
  Token_in_table vars T -> Token_in_table (vars ++ new) T.
Proof.
  unfold Token_in_table. intros H Hv. destruct (H Hv) as [H0 [s Hs]].
  split; [exact H0|]. exists s. apply lookup_app_l_Some. exact Hs.
Qed.

Lemma Token_in_table_other vars T : Ty T <> Token_Variable -> Token_in_table vars T.
Proof. unfold Token_in_table. intros H E. contradiction. Qed.

Lemma ParseToken_indexed Type_ segment Toks g :
  VarTable_indexed g -> VarMaxID g < Int32_max ->
  Forall (Token_in_table (Vars g)) Toks ->
  lexed 1 g (ParseToken Type_ segment Toks g).
Proof.
  intros Hi Hb HT. unfold lexed.
  assert (Same : forall T, Ty T <> Token_Variable ->
            VarTable_indexed g /\ Forall (Token_in_table (Vars g)) (Toks ++ [T]) /\
            exists new, Vars g = Vars g ++ new /\ (length new <= 1)%nat).
  { intros T HTy. split; [exact Hi|]. split.
    - apply Forall_app. split; [exact HT|]. constructor; [|constructor].
      apply Token_in_table_other. exact HTy.
    - exists []. rewrite app_nil_r. split; [reflexivity|cbn; lia]. }
  destruct Type_; cbn [ParseToken mret State_ret fst snd].
  - split; [exact Hi|]. split; [exact HT|].
    exists []. rewrite app_nil_r. split; [reflexivity|cbn; lia].
  - apply Same. discriminate.
  - destruct (GetFuncID segment =? -1); [|apply Same; discriminate].
    rewrite State_bind_eq. cbn [mret State_ret fst snd].
    destruct (GetVarID_indexed segment g Hi Hb) as (Hi' & H0 & Hl & new & Hv & Hlen).
    split; [exact Hi'|]. split; [|exists new; split; assumption].
    apply Forall_app. split.
    + rewrite Hv. eapply Forall_impl; [exact HT|].
      intros T. apply Token_in_table_app.
    + constructor; [|constructor]. intros _. cbn [ID Token_of_var].
      split; [exact H0|]. exists segment. exact Hl.
  - apply Same. discriminate.
Qed.

Lemma GenerateTokens_from_indexed rest : forall segment LastType Toks g,
  VarTable_indexed g ->
  Z.of_nat (length (Vars g)) + Z.of_nat (String.length rest) < Int32_max ->
  Forall (Token_in_table (Vars g)) Toks ->
  lexed (S (String.length rest)) g (GenerateTokens_from rest segment LastType Toks g).
Proof.
  induction rest as [|c rest IH]; intros segment LastType Toks g Hi Hb HT;
    cbn [GenerateTokens_from String.length] in *.
  - apply ParseToken_indexed; try assumption. destruct Hi as [-> _]. lia.
  - assert (Step : forall Toks', Forall (Token_in_table (Vars g)) Toks' ->
              forall seg LT, lexed (S (S (String.length rest))) g
                               (GenerateTokens_from rest seg LT Toks' g)).
    { intros Toks' HT' seg LT.
      destruct (IH seg LT Toks' g Hi ltac:(lia) HT') as (A & B & new & C & D).
      split; [exact A|]. split; [exact B|]. exists new. split; [exact C|lia]. }
    destruct (TokCond_eqb LastType (Judge c)).
    + destruct (TokCond_eqb (Judge c) TokCond_Operator); [|apply Step; exact HT].
      apply Step. apply Forall_app. split; [exact HT|].
      constructor; [|constructor]. apply Token_in_table_other. discriminate.
    + rewrite State_bind_eq.
      destruct (ParseToken_indexed LastType segment Toks g Hi
                  ltac:(destruct Hi as [-> _]; lia) HT) as (A & B & new & C & D).
      set (r := ParseToken LastType segment Toks g) in *.
      destruct (IH (String c "") (Judge c) r.1 r.2 A
                  ltac:(rewrite C, length_app; lia) B) as (A' & B' & new' & C' & D').
      split; [exact A'|]. split; [exact B'|].
      exists (new ++ new'). rewrite C', C, <- app_assoc. split; [reflexivity|].
      rewrite length_app. lia.
Qed.

(** X10.  The lexer keeps the variable table indexed.  Started with a
    table in which [VarMaxID] is the number of names and [VarMap] sends each
    name to its position in [Vars], and with room for the ids below
    [INT_MAX], [GenerateTokens] ends with such a table; every variable
    token it has made holds an id that is a position in [Vars]; and the
    names that were in [Vars] before keep their positions. *)
Theorem GenerateTokens_indexed (Str : string) (g : Globals) :
  VarTable_indexed g ->
  Z.of_nat (length (Vars g)) + Z.of_nat (String.length Str) < Int32_max ->
  VarTable_indexed (GenerateTokens Str g).2 /\
  Forall (Token_in_table (Vars (GenerateTokens Str g).2)) (GenerateTokens Str g).1 /\
  exists new, Vars (GenerateTokens Str g).2 = Vars g ++ new.
Proof.
  intros Hi Hb.
  destruct (GenerateTokens_from_indexed Str "" TokCond_Null [] g Hi Hb ltac:(constructor))
    as (A & B & new & C & _).
  split; [exact A|]. split; [exact B|]. exists new. exact C.
Qed.

Lemma VarTable_indexed_fresh : VarTable_indexed Globals_fresh.
Proof. split; [reflexivity|]. intros s id H. discriminate H. Qed.

(** [x*y+x] in a fresh round. *)
Lemma GenerateTokens_indexed_witness :
  VarTable_indexed (GenerateTokens "x*y+x" Globals_fresh).2 /\
  Forall (Token_in_table (Vars (GenerateTokens "x*y+x" Globals_fresh).2))
    (GenerateTokens "x*y+x" Globals_fresh).1 /\
  exists new, Vars (GenerateTokens "x*y+x" Globals_fresh).2 = Vars Globals_fresh ++ new.
Proof.
  apply GenerateTokens_indexed; [exact VarTable_indexed_fresh|].
  unfold Int32_max. cbn. lia.
Defined.

(** ** More on the construction of the tree *)

Ltac pick_range :=
  match goal with
  | |- context [if ?b then Const 0 :: ?r else ?r] =>
      let v := eval vm_compute in b in change b with v; cbv iota
  end.

(** X11.  A range that is a binary operator followed by one operand: a
    leading [-] is the subtraction from 0, [0 - p], and the globals are left
    as they are; a leading [+], [*], [/] or [^] is a syntax error:
    [CreateTree] prints [Syntax Error: missing operand.], raises
    [FailedToParse] and returns the node of the integer 0. *)
Theorem CreateTree_leading_operator (p : ExprNode) (op : Token) (g : Globals) :
  IsOperand p = true -> In op binary_operators ->
  CreateTree [CreateNode op; p] g
  = if Token_eqb op SUB then Some (BinOp SUB (Const 0) p, g)
    else Some (CreateNode Token_default, missing_operand g).
Proof.
  intros Hp H.
  pose proof (IsOperand_kept p Hp) as Kp. pose proof (IsOperand_level p Hp) as Lp.
  unfold binary_operators in H. cbn [In] in H.
  destruct H as [<-|[<-|[<-|[<-|[<-|[]]]]]];
    unfold CreateTree; pick_range; cbn [CreateTree_scan]; rewrite !Kp, !Lp;
    vm_compute; reflexivity.
Qed.

(** [-x]. *)
Lemma CreateTree_leading_operator_witness :
  CreateTree [CreateNode SUB; Var 0] Globals_fresh
  = if Token_eqb SUB SUB then Some (BinOp SUB (Const 0) (Var 0), Globals_fresh)
    else Some (CreateNode Token_default, missing_operand Globals_fresh).
Proof.
  apply CreateTree_leading_operator; [reflexivity|]. right. left. reflexivity.
Defined.

(** X12.  An operator with no operand to its right is a syntax error,
    and a sign after an operator is no exception: for operands [p] and [q]
    and binary operators [op1] and [op2], both [p op1] and [p op1 op2 q]
    (as in [2*-x]) make [CreateTree] print
    [Syntax Error: missing operand.] once, raise [FailedToParse] and return
    the node of the integer 0. *)
Theorem CreateTree_missing_operand (p q : ExprNode) (op1 op2 : Token) (g : Globals) :
  IsOperand p = true -> IsOperand q = true ->
  In op1 binary_operators -> In op2 binary_operators ->
  CreateTree [p; CreateNode op1] g = Some (CreateNode Token_default, missing_operand g) /\
  CreateTree [p; CreateNode op1; CreateNode op2; q] g
  = Some (CreateNode Token_default, missing_operand g).
Proof.
  intros Hp Hq H1 H2.
  pose proof (IsOperand_kept p Hp) as Kp. pose proof (IsOperand_level p Hp) as Lp.
  pose proof (IsOperand_kept q Hq) as Kq. pose proof (IsOperand_level q Hq) as Lq.
  unfold binary_operators in H1, H2. cbn [In] in H1, H2.
  split.
  - destruct H1 as [<-|[<-|[<-|[<-|[<-|[]]]]]];
      unfold CreateTree; rewrite Lp; cbn [negb andb Z.eqb CreateTree_scan];
      rewrite !Kp, !Lp; vm_compute; reflexivity.
  - destruct H1 as [<-|[<-|[<-|[<-|[<-|[]]]]]];
    destruct H2 as [<-|[<-|[<-|[<-|[<-|[]]]]]];
      unfold CreateTree; rewrite Lp; cbn [negb andb Z.eqb CreateTree_scan];
      rewrite !Kp, !Lp, !Kq, !Lq; vm_compute; reflexivity.
Qed.

(** [2*] and [2*-x]. *)
Lemma CreateTree_missing_operand_witness :
  CreateTree [Const 2; CreateNode MUL] Globals_fresh
  = Some (CreateNode Token_default, missing_operand Globals_fresh) /\
  CreateTree [Const 2; CreateNode MUL; CreateNode SUB; Var 0] Globals_fresh
  = Some (CreateNode Token_default, missing_operand Globals_fresh).
Proof.
  apply CreateTree_missing_operand; try reflexivity.
  - right. right. left. reflexivity.
  - right. left. reflexivity.
Defined.

Lemma Expr_scan_balanced Toks : forall chain Brackets g chain' g',
  Expr_scan Toks chain Brackets g = Some (Some chain', g') ->
  bracket_depth Toks (length Brackets) = Some 0%nat.
Proof.
  induction Toks as [|T Toks IH]; intros chain Brackets g chain' g';
    cbn [Expr_scan bracket_depth].
  - destruct Brackets; [reflexivity|].
    intros H. apply Run_bind_Some in H as ([] & g1 & _ & H). discriminate H.
  - destruct (IsLBK T) eqn:EL.
    { intros H. exact (IH _ _ _ _ _ H). }
    destruct (IsCOM T) eqn:EC.
    { assert (ER : IsRBK T = false).
      { unfold IsCOM, IsRBK in *. apply Token_eqb_eq in EC. subst T. reflexivity. }
      rewrite ER.
      destruct Brackets as [|B Brackets].
      - intros H. apply Run_bind_Some in H as ([] & g1 & _ & H). discriminate H.
      - destruct (Comma B).
        + intros H. apply Run_bind_Some in H as ([] & g1 & _ & H). discriminate H.
        + intros H. exact (IH _ _ _ _ _ H). }
    destruct (IsRBK T).
    + destruct Brackets as [|B Brackets].
      * intros H. apply Run_bind_Some in H as ([] & g1 & _ & H). discriminate H.
      * intros H. apply Run_bind_Some in H as (closed & g1 & H1 & H).
        destruct closed as [chain2|]; [|discriminate H].
        exact (IH _ _ _ _ _ H).
    + intros H. exact (IH _ _ _ _ _ H).
Qed.

(** X13.  Unbalanced brackets are always rejected: if the constructor of
    [Expr] returns with [FailedToParse] down, then every [)] of the tokens
    closes a [(] and no [(] is left open. *)
Theorem Expr_build_balanced (Toks : list Token) (g g' : Globals)
  (r : option ExprNode * bool) :
  Expr_build Toks g = Some (r, g') ->
  FailedToParse g' = false ->
  bracket_depth Toks 0 = Some 0%nat.
Proof.
  unfold Expr_build. intros H Hf.
  apply Run_bind_Some in H as ([] & g0 & _ & H).
  apply Run_bind_Some in H as (scanned & g1 & H1 & H).
  destruct scanned as [chain|].
  - exact (Expr_scan_balanced _ _ _ _ _ _ H1).
  - injection H as _ <-. apply Expr_scan_None in H1. congruence.
Qed.

(** [(x+1)*2]. *)
Lemma Expr_build_balanced_witness :
  bracket_depth (GenerateTokens "(x+1)*2" Globals_fresh).1 0 = Some 0%nat.
Proof.
  apply (Expr_build_balanced _ (GenerateTokens "(x+1)*2" Globals_fresh).2
           (GenerateTokens "(x+1)*2" Globals_fresh).2
           (Some (BinOp MUL (BinOp ADD (Var 0) (Const 1)) (Const 2)), true));
    vm_compute; reflexivity.
Defined.

Lemma set_Output_id g : set_Output (Output g) g = g.
Proof. destruct g. reflexivity. Qed.

Lemma set_Output_twice o1 o2 g : set_Output o2 (set_Output o1 g) = set_Output o2 g.
Proof. reflexivity. Qed.

(** X14.  [CheckArgument] looks at the function nodes that are not inside
    an argument of a function, and at no other: it returns [true] exactly
    when each of them has as many operands as its function has parameters,
    it prints one line for each of them that has not, from left to right,
    and it changes nothing else.  What the arguments of a function contain
    is not checked. *)
Theorem CheckArgument_outer_functions (E : ExprNode) (g g' : Globals) (b : bool) :
  CheckArgument E g = Some (b, g') ->
  b = forallb arity_ok (outer_functions E) /\
  g' = set_Output (Output g ++ concat (map arity_error (outer_functions E))) g.
Proof.
  revert g g' b.
  induction E as [V L R IHl IHr] using ExprNode_tree_ind. intros g g' b.
  cbn [CheckArgument outer_functions].
  destruct (TokenType_eqb (Ty V) Token_Function).
  - cbn [forallb map concat]. unfold arity_ok, arity_error, NArg.
    cbn [ExprNode_V ExprNode_L ExprNode_R].
    destruct (Funcs_at (ID V)) as [F|]; [|discriminate].
    destruct (_ =? NParam F); cbn [negb].
    + intros [= <- <-]. cbn [app]. rewrite app_nil_r, set_Output_id. split; reflexivity.
    + intros H. apply Run_bind_Some in H as ([] & g1 & H1 & H2).
      injection H1 as <-. injection H2 as <- <-. rewrite app_nil_r.
      split; reflexivity.
  - intros H.
    apply Run_bind_Some in H as (OK1 & g1 & H1 & H2).
    apply Run_bind_Some in H2 as (OK2 & g2 & H2 & H3).
    injection H3 as <- <-.
    assert (E1 : OK1 = forallb arity_ok match L with Some l => outer_functions l | None => [] end /\
                 g1 = set_Output (Output g ++ concat (map arity_error
                        match L with Some l => outer_functions l | None => [] end)) g).
    { destruct L as [l|]; [exact (IHl l eq_refl _ _ _ H1)|].
      injection H1 as <- <-. cbn. rewrite app_nil_r, set_Output_id. split; reflexivity. }
    assert (E2 : OK2 = forallb arity_ok match R with Some r => outer_functions r | None => [] end /\
                 g2 = set_Output (Output g1 ++ concat (map arity_error
                        match R with Some r => outer_functions r | None => [] end)) g1).
    { destruct R as [r|]; [exact (IHr r eq_refl _ _ _ H2)|].
      injection H2 as <- <-. cbn. rewrite app_nil_r, set_Output_id. split; reflexivity. }
    destruct E1 as [-> ->], E2 as [-> ->].
    rewrite forallb_app, map_app, concat_app. split; [reflexivity|].
    cbn [Output set_Output]. rewrite set_Output_twice, app_assoc. reflexivity.
Qed.

(** [sin(log(x))]: the [log] with one argument is not looked at. *)
Lemma CheckArgument_outer_functions_witness :
  let E := Sin (Some (FuncNode FUNC_log (Some (Var 0)))) in
  CheckArgument E Globals_fresh = Some (true, Globals_fresh) /\
  true = forallb arity_ok (outer_functions E) /\
  Globals_fresh
  = set_Output (Output Globals_fresh ++ concat (map arity_error (outer_functions E)))
      Globals_fresh.
Proof.
  intros E.
  assert (H : CheckArgument E Globals_fresh = Some (true, Globals_fresh)) by reflexivity.
  split; [exact H|].
  exact (CheckArgument_outer_functions E Globals_fresh Globals_fresh true H).
Defined.

Lemma operators_complete_with_operands Back l r :
  operators_complete l = true -> operators_complete r = true ->
  operators_complete (with_operands Back (Some l) (Some r)) = true.
Proof.
  intros Hl Hr. unfold with_operands. cbn [operators_complete].
  rewrite Hl, Hr. destruct (TokenType_eqb _ _); reflexivity.
Qed.

Lemma operators_complete_leaf T :
  TokenType_eqb (Ty T) Token_Operator = false -> operators_complete (CreateNode T) = true.
Proof. intros H. unfold CreateNode. cbn [operators_complete]. rewrite H. reflexivity. Qed.

Lemma MergeTop_complete CurLevel OprV : forall ExprV g,
  all_complete ExprV -> all_complete (MergeTop CurLevel OprV ExprV g).1.2.
Proof.
  induction OprV as [|Back OprV IH]; intros ExprV g H; cbn [MergeTop]; [exact H|].
  destruct (TriggerMerge Back CurLevel); [|exact H].
  destruct ExprV as [|r [|l ExprV]]; [exact H|exact H|].
  apply IH.
  apply Forall_cons_1 in H as [Hr H]. apply Forall_cons_1 in H as [Hl H].
  constructor; [|exact H]. apply operators_complete_with_operands; assumption.
Qed.

(** An operand of [CreateTree] that is a node of the chain is a tree with
    all its operators complete. *)
Lemma chain_node_operand p :
  chain_node p -> OprLevel p false = 0 -> operators_complete p = true.
Proof.
  intros [[HL HR]|H] Hl; [|exact H].
  destruct p as [V L R]. cbn in HL, HR. subst L R.
  unfold OprLevel in Hl. cbn [ExprNode_V ExprNode_L] in Hl.
  cbn [operators_complete].
  destruct (TokenType_eqb (Ty V) Token_Operator); [|reflexivity].
  exfalso. cbn in Hl.
  repeat (destruct (_ || _) in Hl; [discriminate Hl|]).
  destruct (_ =? _) in Hl; discriminate Hl.
Qed.

Lemma CreateTree_scan_complete range : forall OprV ExprV LastHasLevel g OprV' ExprV',
  Forall chain_node range -> all_complete ExprV ->
  (CreateTree_scan range OprV ExprV LastHasLevel g).1 = Some (OprV', ExprV') ->
  all_complete ExprV'.
Proof.
  induction range as [|pNode range IH]; intros OprV ExprV LastHasLevel g OprV' ExprV' Hr He;
    cbn [CreateTree_scan].
  - intros [= <- <-]. exact He.
  - apply Forall_cons_1 in Hr as [Hp Hr].
    destruct (IsIgnoredSymbol _); [apply IH; assumption|].
    destruct (OprLevel pNode false =? 0) eqn:El.
    + assert (Hc : operators_complete pNode = true)
        by (apply chain_node_operand; [exact Hp|lia]).
      destruct (negb LastHasLevel).
      * rewrite State_bind_eq.
        pose proof (MergeTop_complete 2 OprV ExprV g He) as Hm.
        destruct (MergeTop 2 OprV ExprV g) as [[[ok OprV1] ExprV1] g1]. cbn [fst snd] in *.
        destruct ok; [|discriminate].
        apply IH; [exact Hr|]. constructor; assumption.
      * apply IH; [exact Hr|]. constructor; assumption.
    + rewrite State_bind_eq.
      pose proof (MergeTop_complete (OprLevel pNode false) OprV ExprV g He) as Hm.
      destruct (MergeTop _ OprV ExprV g) as [[[ok OprV1] ExprV1] g1]. cbn [fst snd] in *.
      destruct ok; [|discriminate].
      apply IH; assumption.
Qed.

Lemma CreateTree_merge_complete fuel : forall OprV ExprV g ExprV' g',
  all_complete ExprV ->
  CreateTree_merge fuel OprV ExprV g = Some (Some ExprV', g') ->
  all_complete ExprV'.
Proof.
  induction fuel as [|fuel IH]; intros [|Back OprV] ExprV g ExprV' g' He;
    cbn [CreateTree_merge].
  - intros [= <- _]. exact He.
  - discriminate.
  - intros [= <- _]. exact He.
  - intros H. apply Run_bind_Some in H as ([[ok OprV1] ExprV1] & g1 & H1 & H).
    unfold lift in H1.
    pose proof (MergeTop_complete 0 (Back :: OprV) ExprV g He) as Hm.
    replace (MergeTop 0 (Back :: OprV) ExprV g) with (ok, OprV1, ExprV1, g1) in Hm
      by congruence.
    cbn [fst snd] in Hm.
    destruct ok; [|discriminate H].
    exact (IH _ _ _ _ _ Hm H).
Qed.

Lemma CreateTree_complete range g T g' :
  Forall chain_node range ->
  CreateTree range g = Some (T, g') -> operators_complete T = true.
Proof.
  intros Hr. unfold CreateTree.
  destruct range as [|Begin range]; [intros [= <- _]; reflexivity|].
  set (range1 := if _ && _ then _ else _).
  assert (Hr1 : Forall chain_node range1).
  { subst range1. destruct (_ && _); [|exact Hr].
    constructor; [|exact Hr]. right. reflexivity. }
  clearbody range1.
  intros H. apply Run_bind_Some in H as (scanned & g1 & H1 & H).
  unfold lift in H1.
  destruct scanned as [[OprV ExprV]|]; [|injection H as <- _; reflexivity].
  assert (Hs : all_complete ExprV).
  { apply (CreateTree_scan_complete range1 [] [] true g OprV ExprV Hr1).
    - constructor.
    - replace (CreateTree_scan range1 [] [] true g) with (Some (OprV, ExprV), g1)
        by congruence.
      reflexivity. }
  apply Run_bind_Some in H as (merged & g2 & H2 & H).
  destruct merged as [ExprV'|]; [|injection H as <- _; reflexivity].
  pose proof (CreateTree_merge_complete _ _ _ _ _ _ Hs H2) as Hm.
  destruct (last ExprV') as [root|] eqn:El; [|discriminate H].
  injection H as <- _.
  apply last_Some in El as [l' ->].
  apply Forall_app in Hm as [_ Hm]. apply Forall_cons_1 in Hm as [Hm _]. exact Hm.
Qed.

Lemma chain_range_nodes chain a b :
  Forall chain_node chain -> Forall chain_node (chain_range chain a b).
Proof.
  intros H. unfold chain_range. apply Forall_take, Forall_drop. exact H.
Qed.

Lemma chain_node_fresh T : chain_node (CreateNode T).
Proof. left. split; reflexivity. Qed.

Lemma chain_node_function pTok T1 R :
  chain_node pTok ->
  TokenType_eqb (Ty (ExprNode_V pTok)) Token_Function = true ->
  operators_complete T1 = true ->
  match R with Some r => operators_complete r = true | None => True end ->
  chain_node (with_operands pTok (Some T1) R).
Proof.
  intros _ Hf H1 HR. right. unfold with_operands. cbn [operators_complete].
  replace (TokenType_eqb (Ty (ExprNode_V pTok)) Token_Operator) with false.
  - rewrite H1. destruct R as [r|]; [rewrite HR|]; reflexivity.
  - unfold TokenType_eqb in *. destruct (Ty (ExprNode_V pTok)); cbn in *; congruence.
Qed.

Lemma chain_node_R pTok :
  chain_node pTok ->
  match ExprNode_R pTok with Some r => operators_complete r = true | None => True end.
Proof.
  intros [[_ ->]|H]; [exact I|].
  destruct pTok as [V L [r|]]; [|exact I].
  cbn [operators_complete ExprNode_R] in *.
  apply andb_prop in H as [_ H]. exact H.
Qed.

Lemma Expr_close_nodes chain B g chain' g' :
  Forall chain_node chain ->
  Expr_close chain B g = Some (Some chain', g') -> Forall chain_node chain'.
Proof.
  intros Hc. unfold Expr_close.
  set (pTok := match Left B with O => _ | S i => _ end).
  assert (Hp : chain_node pTok).
  { subst pTok. destruct (Left B) as [|i]; [apply chain_node_fresh|].
    destruct (chain !! i) as [p|] eqn:Ei; cbn [default]; [|apply chain_node_fresh].
    apply (Forall_lookup_1 _ _ _ _ Hc Ei). }
  clearbody pTok.
  destruct (Comma B) as [pCom|]; intros H.
  - apply Run_bind_Some in H as (T1 & g1 & H1 & H).
    apply Run_bind_Some in H as (T2 & g2 & H2 & H).
    apply Run_bind_Some in H as (g3 & g3' & H3 & H).
    injection H3 as <- <-.
    apply CreateTree_complete in H1; [|apply chain_range_nodes; exact Hc].
    apply CreateTree_complete in H2; [|apply chain_range_nodes; exact Hc].
    destruct (FailedToParse g2); [discriminate H|].
    destruct (TokenType_eqb _ _) eqn:Ef.
    + injection H as <- _. apply Forall_app. split; [apply Forall_take; exact Hc|].
      constructor; [|constructor].
      apply chain_node_function; assumption.
    + apply Run_bind_Some in H as ([] & g4 & _ & H). discriminate H.
  - apply Run_bind_Some in H as (T1 & g1 & H1 & H).
    apply Run_bind_Some in H as (g3 & g3' & H3 & H).
    injection H3 as <- <-.
    apply CreateTree_complete in H1; [|apply chain_range_nodes; exact Hc].
    destruct (FailedToParse g1); [discriminate H|].
    destruct (TokenType_eqb _ _) eqn:Ef.
    + injection H as <- _. apply Forall_app. split; [apply Forall_take; exact Hc|].
      constructor; [|constructor].
      apply chain_node_function; try assumption. apply chain_node_R. exact Hp.
    + injection H as <- _. apply Forall_app. split; [apply Forall_take; exact Hc|].
      constructor; [|constructor]. right. exact H1.
Qed.

Lemma Expr_scan_nodes Toks : forall chain Brackets g chain' g',
  Forall chain_node chain ->
  Expr_scan Toks chain Brackets g = Some (Some chain', g') -> Forall chain_node chain'.
Proof.
  induction Toks as [|T Toks IH]; intros chain Brackets g chain' g' Hc;
    cbn [Expr_scan].
  - destruct Brackets; [intros [= <- _]; exact Hc|].
    intros H. apply Run_bind_Some in H as ([] & g1 & _ & H). discriminate H.
  - assert (Hc1 : Forall chain_node (chain ++ [CreateNode T])).
    { apply Forall_app. split; [exact Hc|]. constructor; [|constructor].
      apply chain_node_fresh. }
    destruct (IsLBK T); [apply IH; exact Hc1|].
    destruct (IsCOM T).
    { destruct Brackets as [|B Brackets].
      - intros H. apply Run_bind_Some in H as ([] & g1 & _ & H). discriminate H.
      - destruct (Comma B); [|apply IH; exact Hc1].
        intros H. apply Run_bind_Some in H as ([] & g1 & _ & H). discriminate H. }
    destruct (IsRBK T); [|apply IH; exact Hc1].
    destruct Brackets as [|B Brackets].
    + intros H. apply Run_bind_Some in H as ([] & g1 & _ & H). discriminate H.
    + intros H. apply Run_bind_Some in H as (closed & g1 & H1 & H).
      destruct closed as [chain2|]; [|discriminate H].
      apply Expr_close_nodes in H1; [|exact Hc1].
      exact (IH _ _ _ _ _ H1 H).
Qed.

(** X15.  In every tree that the constructor of [Expr] builds, each
    operator node has both its operands (whatever the tokens are, and also
    when the constructor has reported a syntax error). *)
Theorem Expr_build_operators_complete (Toks : list Token) (g g' : Globals)
  (Root : ExprNode) (go : bool) :
  Expr_build Toks g = Some ((Some Root, go), g') ->
  operators_complete Root = true.
Proof.
  unfold Expr_build. intros H.
  apply Run_bind_Some in H as ([] & g0 & _ & H).
  apply Run_bind_Some in H as (scanned & g1 & H1 & H).
  destruct scanned as [chain|]; [|discriminate H].
  apply Expr_scan_nodes in H1; [|constructor].
  apply Run_bind_Some in H as (root & g2 & H2 & H).
  apply CreateTree_complete in H2; [|exact H1].
  apply Run_bind_Some in H as (ok & g3 & _ & H).
  destruct ok.
  - injection H as <- _ _. exact H2.
  - apply Run_bind_Some in H as ([] & g4 & _ & H). injection H as <- _ _. exact H2.
Qed.

(** [2sin(-x)]. *)
Lemma Expr_build_operators_complete_witness :
  operators_complete (BinOp MUL (Const 2) (Sin (Some (BinOp SUB (Const 0) (Var 0))))) = true.
Proof.
  apply (Expr_build_operators_complete (GenerateTokens "2sin(-x)" Globals_fresh).1
           (GenerateTokens "2sin(-x)" Globals_fresh).2
           (GenerateTokens "2sin(-x)" Globals_fresh).2 _ true).
  vm_compute. reflexivity.
Defined.

(** ** More on differentiation and printing *)

Lemma Funcs_at_cases FuncID F :
  Funcs_at FuncID = Some F ->
  FuncID = 0 \/ FuncID = 1 \/ FuncID = 2 \/ FuncID = 3 \/ FuncID = 4 \/ FuncID = 5
  \/ FuncID = 6 \/ FuncID = 7 \/ FuncID = 8.
Proof.
  unfold Funcs_at. destruct (FuncID <? 0) eqn:E; [discriminate|].
  intros H. apply lookup_lt_Some in H. cbn [length Funcs] in H. lia.
Qed.

Ltac wf_solve :=
  cbn [WellFormed Ty ID Token_of_int Token_of_func Const BinOp CreateNode CreateNode2
       Ln Sin Cos Exp Sinh Cosh FuncNode ADD SUB MUL DIV POW Token_of_char];
  repeat match goal with
         | H : ?a = true |- context [?a] => rewrite H
         end;
  reflexivity.

(** X16.  Differentiation is safe on well-formed trees and keeps them
    well-formed: on a tree in which every operator has both operands, every
    function is one of [Funcs] with the operands it takes, and every
    variable has its name in [Vars], [Partial] dereferences no null pointer,
    for whatever variable, and the derivative it returns is such a tree
    again. *)
Theorem Partial_WellFormed (nvars : nat) (p : ExprNode) (DX : Z) :
  WellFormed nvars p = true ->
  exists d, Partial p DX = Some d /\ WellFormed nvars d = true.
Proof.
  induction p as [V L R IHl IHr] using ExprNode_tree_ind.
  intros H. cbn [Partial]. cbn [WellFormed] in H.
  destruct (Ty V) eqn:ETy.
  - eexists. split; reflexivity.
  - eexists. split; [reflexivity|]. destruct (_ =? DX); reflexivity.
  - destruct (Funcs_at (ID V)) as [F|] eqn:EF; [|discriminate H].
    destruct L as [l|]; [|discriminate H].
    apply andb_prop in H as [Hl HR].
    destruct (IHl l eq_refl Hl) as (dl & El & Wl). rewrite El.
    cbn [mbind option_bind].
    pose proof (Funcs_at_cases _ _ EF) as C.
    destruct C as [C|[C|[C|[C|[C|[C|[C|[C|C]]]]]]]]; rewrite C in EF;
      injection EF as <-; cbn [Derivative NParam] in *;
      try (eexists; split; [reflexivity|wf_solve]).
    + destruct R as [r|]; [|discriminate HR].
      change (WellFormed nvars r = true) in HR.
      destruct (IHr r eq_refl HR) as (dr & Er & Wr). rewrite Er.
      eexists. split; [reflexivity|wf_solve].
    + destruct R as [r|]; [|discriminate HR].
      change (WellFormed nvars r = true) in HR.
      destruct (IHr r eq_refl HR) as (dr & Er & Wr). rewrite Er.
      eexists. split; [reflexivity|wf_solve].
  - destruct L as [l|]; [|discriminate H]. destruct R as [r|]; [|discriminate H].
    apply andb_prop in H as [Hl Hr].
    destruct (IHl l eq_refl Hl) as (dl & El & Wl).
    destruct (IHr r eq_refl Hr) as (dr & Er & Wr).
    rewrite El, Er. unfold PartialOpr. cbn [ExprNode_V ExprNode_L ExprNode_R].
    repeat (destruct (ID V =? _); [eexists; split; [reflexivity|wf_solve]|]).
    eexists. split; [reflexivity|]. cbn [WellFormed]. rewrite ETy, Hl, Hr. reflexivity.
Qed.

(** [x^2 * sin(x)] and its derivative in [x]. *)
Lemma Partial_WellFormed_witness :
  exists d, Partial (BinOp MUL (BinOp POW (Var 0) (Const 2)) (Sin (Some (Var 0)))) 0 = Some d
            /\ WellFormed 1 d = true.
Proof. apply Partial_WellFormed. reflexivity. Defined.

(** X17.  Printing is safe on well-formed trees: on a tree in which every
    operator has both operands, every function is one of [Funcs] with the
    operands it takes, and every variable has its name in [Vars],
    [PrintTree] dereferences no null pointer and reads no name outside
    [Vars], whatever the parent, the count and the side are. *)
Theorem PrintTree_WellFormed (vars : list string) (p : ExprNode)
  (Parent : option Token) (PrintedCount : Z) (IsLeft : bool) :
  WellFormed (length vars) p = true ->
  is_Some (PrintTree vars p Parent PrintedCount IsLeft).
Proof.
  intros H. revert H Parent PrintedCount IsLeft.
  induction p as [V L R IHl IHr] using ExprNode_tree_ind.
  intros H Parent PrintedCount IsLeft. cbn [PrintTree]. cbn [WellFormed] in H.
  destruct (Ty V) eqn:ETy.
  - destruct (_ || _); eexists; reflexivity.
  - apply andb_prop in H as [H0 H1].
    destruct (ID V <? 0) eqn:E; [lia|].
    destruct (lookup_lt_is_Some_2 vars (Z.to_nat (ID V)) ltac:(lia)) as [text ->].
    eexists. reflexivity.
  - destruct (Funcs_at (ID V)) as [F|]; [|discriminate H].
    destruct L as [l|]; [|discriminate H].
    apply andb_prop in H as [Hl HR]. cbn [mbind option_bind].
    destruct (IHl l eq_refl Hl (Some V) PrintedCount true) as [[t1 c1] ->].
    cbn [mbind option_bind].
    destruct (NParam F =? 2); [|eexists; reflexivity].
    destruct R as [r|]; [|discriminate HR]. cbn [mbind option_bind].
    destruct (IHr r eq_refl HR (Some V) c1 false) as [[t2 c2] ->].
    eexists. reflexivity.
  - destruct L as [l|]; [|discriminate H]. destruct R as [r|]; [|discriminate H].
    apply andb_prop in H as [Hl Hr]. cbn [mbind option_bind].
    destruct (_ && Token_eqb _ _).
    + cbn [mbind option_bind].
      destruct (IHr r eq_refl Hr (Some V) PrintedCount false) as [[t2 c2] ->].
      eexists. reflexivity.
    + destruct (IHl l eq_refl Hl (Some V) PrintedCount true) as [[t1 c1] ->].
      cbn [mbind option_bind].
      match goal with
      | |- context [if negb ?b then Some _ else Some _] => destruct (negb b)
      end; cbn [mbind option_bind];
        destruct (IHr r eq_refl Hr (Some V) c1 false) as [[t2 c2] ->];
        eexists; reflexivity.
Qed.

(** The derivative of [x^2 * sin(x)] in [x], as [Partial] returns it. *)
Lemma PrintTree_WellFormed_witness :
  is_Some (PrintTree ["x"]
             (BinOp ADD
                (BinOp MUL
                   (BinOp MUL
                      (BinOp ADD (BinOp MUL (Const 0) (Ln (Some (Var 0))))
                                 (BinOp MUL (Const 2) (BinOp DIV (Const 1) (Var 0))))
                      (Exp (Some (BinOp MUL (Const 2) (Ln (Some (Var 0)))))))
                   (Sin (Some (Var 0))))
                (BinOp MUL (BinOp POW (Var 0) (Const 2))
                   (BinOp MUL (Const 1) (Cos (Some (Var 0))))))
             None 0 false).
Proof. apply PrintTree_WellFormed. reflexivity. Defined.

(** ** The pass [Simplify_01] *)

Lemma Q2Qc_0 : Q2Qc (inject_Z 0) = 0%Qc.
Proof. apply Qc_is_canon. reflexivity. Qed.
Lemma Q2Qc_1 : Q2Qc (inject_Z 1) = 1%Qc.
Proof. apply Qc_is_canon. reflexivity. Qed.
Lemma Q2Qc_m1 : Q2Qc (inject_Z (-1)) = (- (1))%Qc.
Proof. apply Qc_is_canon. reflexivity. Qed.

Lemma Op_is_Int_value rho x l a :
  Rewrites.Op_is_Int x (Some l) = true -> value rho l = Some a -> a = Q2Qc (inject_Z x).
Proof.
  destruct l as [V L R]. cbn [Rewrites.Op_is_Int ExprNode_V value]. intros H.
  apply andb_prop in H as [HT HI]. apply Z.eqb_eq in HI.
  destruct (Ty V); try discriminate HT. rewrite HI.
  destruct L, R; intros [= <-]. reflexivity.
Qed.

Lemma value_leaf rho V L R v :
  Ty V <> Token_Operator -> value rho (Node V L R) = Some v -> L = None /\ R = None.
Proof.
  intros HT. cbn [value].
  destruct (Ty V); [| |discriminate|contradiction]; destruct L, R; try discriminate; tauto.
Qed.

Lemma value_operator rho V L R v :
  Ty V = Token_Operator -> value rho (Node V L R) = Some v ->
  exists l r a b, L = Some l /\ R = Some r /\ value rho l = Some a /\ value rho r = Some b.
Proof.
  intros HT. cbn [value]. rewrite HT.
  destruct L as [l|]; [|discriminate]. destruct R as [r|]; [|discriminate].
  destruct (value rho l) as [a|] eqn:Ea; [|discriminate].
  destruct (value rho r) as [b|] eqn:Eb; [|discriminate].
  intros _. exists l, r, a, b. repeat split; reflexivity || assumption.
Qed.

Lemma value_node rho V l r a b :
  Ty V = Token_Operator -> value rho l = Some a -> value rho r = Some b ->
  value rho (Node V (Some l) (Some r))
  = if ID V =? char_code "+" then Some (a + b)%Qc
    else if ID V =? char_code "-" then Some (a - b)%Qc
    else if ID V =? char_code "*" then Some (a * b)%Qc
    else if ID V =? char_code "/" then
      if Qc_eq_dec b (Q2Qc 0) then None else Some (a / b)%Qc
    else None.
Proof. intros HT Ea Eb. cbn [value]. rewrite HT, Ea, Eb. reflexivity. Qed.

Ltac int_operand rho :=
  match goal with
  | H : Rewrites.Op_is_Int ?x (Some ?l) = true, E : value rho ?l = Some ?a |- _ =>
      let K := fresh "K" in
      pose proof (Op_is_Int_value rho x l a H E) as K;
      rewrite ?Q2Qc_0, ?Q2Qc_1 in K; subst a; clear H
  end.

Lemma Simplify_01_switch_value rho pNode v :
  value rho pNode = Some v ->
  exists q, (Rewrites.Simplify_01_switch pNode).1 = Some q /\ value rho q = Some v.
Proof.
  destruct pNode as [V L R]. intros Hv.
  unfold Rewrites.Simplify_01_switch. cbn [ExprNode_V ExprNode_L ExprNode_R].
  destruct (Ty V) eqn:HT.
  - exists (Node V L R). split; [reflexivity|exact Hv].
  - exists (Node V L R). split; [reflexivity|exact Hv].
  - cbn [value] in Hv. rewrite HT in Hv. discriminate Hv.
  - destruct (value_operator rho V L R v HT Hv) as (l & r & a & b & -> & -> & Ea & Eb).
    rewrite (value_node rho V l r a b HT Ea Eb) in Hv.
    destruct (ID V =? char_code "+") eqn:E1.
    { injection Hv as <-.
      destruct (Rewrites.Op_is_Int 0 (Some l)) eqn:Zl.
      { int_operand rho. exists r. split; [reflexivity|]. rewrite Eb. f_equal. ring. }
      destruct (Rewrites.Op_is_Int 0 (Some r)) eqn:Zr.
      { int_operand rho. exists l. split; [reflexivity|]. rewrite Ea. f_equal. ring. }
      exists (Node V (Some l) (Some r)). split; [reflexivity|].
      rewrite (value_node rho V l r a b HT Ea Eb), E1. reflexivity. }
    destruct (ID V =? char_code "-") eqn:E2.
    { injection Hv as <-.
      destruct (Rewrites.Op_is_Int 0 (Some r)) eqn:Zr.
      { int_operand rho. exists l. split; [reflexivity|]. rewrite Ea. f_equal. ring. }
      destruct (Rewrites.Op_is_Int 0 (Some l)) eqn:Zl.
      { int_operand rho. eexists. split; [reflexivity|].
        rewrite (value_node rho (Rewrites.set_ID V "*") (Rewrites.ReplaceInt (-1)) r
                   (Q2Qc (inject_Z (-1))) b HT eq_refl Eb).
        change (ID (Rewrites.set_ID V "*")) with (char_code "*").
        change (char_code "*" =? char_code "+") with false.
        change (char_code "*" =? char_code "-") with false.
        change (char_code "*" =? char_code "*") with true.
        cbv iota. rewrite Q2Qc_m1. f_equal. ring. }
      exists (Node V (Some l) (Some r)). split; [reflexivity|].
      rewrite (value_node rho V l r a b HT Ea Eb), E1, E2. reflexivity. }
    destruct (ID V =? char_code "*") eqn:E3.
    { injection Hv as <-.
      destruct (Rewrites.Op_is_Int 0 (Some l)) eqn:Zl.
      { int_operand rho. eexists. split; [reflexivity|].
        cbn. rewrite Q2Qc_0. f_equal. ring. }
      destruct (Rewrites.Op_is_Int 0 (Some r)) eqn:Zr.
      { int_operand rho. eexists. split; [reflexivity|].
        cbn. rewrite Q2Qc_0. f_equal. ring. }
      cbn [orb].
      destruct (Rewrites.Op_is_Int 1 (Some l)) eqn:Ol.
      { int_operand rho. exists r. split; [reflexivity|]. rewrite Eb. f_equal. ring. }
      destruct (Rewrites.Op_is_Int 1 (Some r)) eqn:Or.
      { int_operand rho. exists l. split; [reflexivity|]. rewrite Ea. f_equal. ring. }
      exists (Node V (Some l) (Some r)). split; [reflexivity|].
      rewrite (value_node rho V l r a b HT Ea Eb), E1, E2, E3. reflexivity. }
    destruct (ID V =? char_code "/") eqn:E4.
    { destruct (Qc_eq_dec b (Q2Qc 0)) as [Eb0|Nb0]; [discriminate Hv|]. injection Hv as <-.
      destruct (Rewrites.Op_is_Int 0 (Some l)) eqn:Zl.
      { int_operand rho. eexists. split; [reflexivity|].
        cbn. rewrite Q2Qc_0. f_equal. field. exact Nb0. }
      destruct (Rewrites.Op_is_Int 1 (Some r)) eqn:Or.
      { int_operand rho. exists l. split; [reflexivity|]. rewrite Ea. f_equal. field. exact Nb0. }
      exists (Node V (Some l) (Some r)). split; [reflexivity|].
      rewrite (value_node rho V l r a b HT Ea Eb), E1, E2, E3, E4.
      destruct (Qc_eq_dec b (Q2Qc 0)); [contradiction|reflexivity]. }
    discriminate Hv.
Qed.

Lemma Simplify_01_unfold V L R :
  Rewrites.Simplify_01 (Node V L R)
  = let LL := match L with Some l => Rewrites.Simplify_01 l | None => (None, false) end in
    let RR := match R with Some r => Rewrites.Simplify_01 r | None => (None, false) end in
    let SS := Rewrites.Simplify_01_switch (Node V LL.1 RR.1) in
    (SS.1, LL.2 || RR.2 || SS.2).
Proof.
  cbn [Rewrites.Simplify_01].
  destruct (match L with Some l => Rewrites.Simplify_01 l | None => (None, false) end) as [L' cL].
  destruct (match R with Some r => Rewrites.Simplify_01 r | None => (None, false) end) as [R' cR].
  cbn [fst snd]. destruct (Rewrites.Simplify_01_switch (Node V L' R')) as [q c]. reflexivity.
Qed.

(** X18.  [Simplify_01] keeps the value of an arithmetic tree: for a tree
    of integers, variables and [+], [-], [*], [/] that has a rational value
    under a valuation of the variables (no divisor is zero), the pass
    leaves a tree, not a null pointer, and this tree has the same value
    under that valuation. *)
Theorem Simplify_01_value (rho : Z -> Qc) (p : ExprNode) (v : Qc) :
  value rho p = Some v ->
  exists q, (Rewrites.Simplify_01 p).1 = Some q /\ value rho q = Some v.
Proof.
  revert v. induction p as [V L R IHl IHr] using ExprNode_tree_ind. intros v Hv.
  rewrite Simplify_01_unfold. cbv zeta. cbn [fst].
  apply Simplify_01_switch_value.
  destruct (Ty V) eqn:HT.
  - destruct (value_leaf rho V L R v ltac:(congruence) Hv) as [-> ->]. exact Hv.
  - destruct (value_leaf rho V L R v ltac:(congruence) Hv) as [-> ->]. exact Hv.
  - cbn [value] in Hv. rewrite HT in Hv. discriminate Hv.
  - destruct (value_operator rho V L R v HT Hv) as (l & r & a & b & -> & -> & Ea & Eb).
    destruct (IHl l eq_refl a Ea) as (l' & El & Ea').
    destruct (IHr r eq_refl b Eb) as (r' & Er & Eb').
    rewrite El, Er.
    rewrite (value_node rho V l r a b HT Ea Eb) in Hv.
    rewrite (value_node rho V l' r' a b HT Ea' Eb'). exact Hv.
Qed.

(** [(0 + x) * 1 - 0 / y] with [x = 3/2] and [y = 5]. *)
Lemma Simplify_01_value_witness :
  let rho := fun i : Z => if i =? 0 then Q2Qc (3 # 2) else Q2Qc 5 in
  let p := BinOp SUB (BinOp MUL (BinOp ADD (Const 0) (Var 0)) (Const 1))
                     (BinOp DIV (Const 0) (Var 1)) in
  exists q, (Rewrites.Simplify_01 p).1 = Some q /\ value rho q = Some (Q2Qc (3 # 2)).
Proof.
  intros rho p. apply Simplify_01_value.
  vm_compute. reflexivity.
Defined.

Lemma Op_is_Int_nodes x Op : Rewrites.Op_is_Int x Op = true -> (1 <= nodes_opt Op)%nat.
Proof.
  destruct Op as [[V L R]|]; [|discriminate]. intros _. cbn. lia.
Qed.

Lemma set_ID_changes V c : ID V <> char_code c -> Rewrites.set_ID V c <> V.
Proof. intros H E. apply H. rewrite <- E at 1. reflexivity. Qed.

Lemma switch_ok_same pNode : switch_ok pNode (Some pNode, false).
Proof.
  unfold switch_ok. cbn [fst snd nodes_opt].
  split; [lia|]. split; [reflexivity|discriminate].
Qed.

Lemma switch_ok_smaller pNode q :
  (nodes_opt q < nodes pNode)%nat -> switch_ok pNode (q, true).
Proof.
  intros H. unfold switch_ok. cbn [fst snd].
  split; [lia|]. split; [discriminate|]. intros _. left. exact H.
Qed.

Ltac switch_step V L R :=
  first
    [ apply switch_ok_same
    | apply switch_ok_smaller;
      repeat match goal with
             | H : Rewrites.Op_is_Int _ _ = true |- _ => apply Op_is_Int_nodes in H
             | H : _ || _ = true |- _ => apply orb_prop in H as [H|H]
             end;
      unfold nodes_opt, Rewrites.ReplaceInt, CreateNode in *; cbn [nodes] in *; lia ].

Lemma Simplify_01Pwr_ok V L R : switch_ok (Node V L R) (Rewrites.Simplify_01Pwr (Node V L R)).
Proof.
  unfold Rewrites.Simplify_01Pwr. cbn [ExprNode_L ExprNode_R].
  repeat (match goal with |- context [if Rewrites.Op_is_Int ?x ?o then _ else _] =>
                            destruct (Rewrites.Op_is_Int x o) eqn:?
          end; [switch_step V L R|]).
  switch_step V L R.
Qed.

Lemma Simplify_01_switch_ok pNode : switch_ok pNode (Rewrites.Simplify_01_switch pNode).
Proof.
  destruct pNode as [V L R].
  unfold Rewrites.Simplify_01_switch. cbn [ExprNode_V ExprNode_L ExprNode_R].
  destruct (Ty V); try apply switch_ok_same.
  - repeat (match goal with
            | |- context [if Rewrites.Op_is_Int ?x ?o then _ else _] =>
                destruct (Rewrites.Op_is_Int x o) eqn:?; [switch_step V L R|]
            | |- switch_ok _ (if ?b then _ else _) => destruct b eqn:?
            end);
      first [switch_step V L R | apply Simplify_01Pwr_ok].
  - destruct (ID V =? char_code "+") eqn:E1.
    { repeat (match goal with |- context [if Rewrites.Op_is_Int ?x ?o then _ else _] =>
                                destruct (Rewrites.Op_is_Int x o) eqn:?
              end; [switch_step V L R|]).
      switch_step V L R. }
    destruct (ID V =? char_code "-") eqn:E2.
    { destruct (Rewrites.Op_is_Int 0 R) eqn:Zr; [switch_step V L R|].
      destruct (Rewrites.Op_is_Int 0 L) eqn:Zl; [|switch_step V L R].
      apply Op_is_Int_nodes in Zl.
      unfold switch_ok. cbn [fst snd].
      split; [unfold nodes_opt, Rewrites.ReplaceInt, CreateNode in *; cbn [nodes] in *; lia|]. split; [discriminate|]. intros _. right.
      eexists. split; [reflexivity|]. cbn [ExprNode_V].
      apply set_ID_changes. apply Z.eqb_eq in E2. rewrite E2. discriminate. }
    destruct (ID V =? char_code "*") eqn:E3.
    { destruct (Rewrites.Op_is_Int 0 L || Rewrites.Op_is_Int 0 R) eqn:Z0; [switch_step V L R|].
      repeat (match goal with |- context [if Rewrites.Op_is_Int ?x ?o then _ else _] =>
                                destruct (Rewrites.Op_is_Int x o) eqn:?
              end; [switch_step V L R|]).
      switch_step V L R. }
    destruct (ID V =? char_code "/") eqn:E4.
    { repeat (match goal with |- context [if Rewrites.Op_is_Int ?x ?o then _ else _] =>
                                destruct (Rewrites.Op_is_Int x o) eqn:?
              end; [switch_step V L R|]).
      switch_step V L R. }
    destruct (ID V =? char_code "^"); [apply Simplify_01Pwr_ok|apply switch_ok_same].
Qed.

(** X19.  [Simplify_01] never makes a tree larger, and the flag it returns
    is exact: it returns [false] if and only if it has left the tree as it
    was. *)
Theorem Simplify_01_Changed (p : ExprNode) :
  (nodes_opt (Rewrites.Simplify_01 p).1 <= nodes p)%nat /\
  ((Rewrites.Simplify_01 p).2 = false <-> (Rewrites.Simplify_01 p).1 = Some p).
Proof.
  induction p as [V L R IHl IHr] using ExprNode_tree_ind.
  rewrite Simplify_01_unfold. cbv zeta.
  set (LL := match L with Some l => Rewrites.Simplify_01 l | None => (None, false) end).
  set (RR := match R with Some r => Rewrites.Simplify_01 r | None => (None, false) end).
  assert (HL : (nodes_opt LL.1 <= nodes_opt L)%nat /\ (LL.2 = false <-> LL.1 = L)).
  { subst LL. destruct L as [l|]; [exact (IHl l eq_refl)|]. cbn. split; [lia|tauto]. }
  assert (HR : (nodes_opt RR.1 <= nodes_opt R)%nat /\ (RR.2 = false <-> RR.1 = R)).
  { subst RR. destruct R as [r|]; [exact (IHr r eq_refl)|]. cbn. split; [lia|tauto]. }
  clearbody LL RR. destruct HL as [NL EL], HR as [NR ER].
  destruct (Simplify_01_switch_ok (Node V LL.1 RR.1)) as (NS & SF & ST).
  set (SS := Rewrites.Simplify_01_switch (Node V LL.1 RR.1)) in *. clearbody SS.
  cbn [fst snd nodes] in *. fold (nodes_opt LL.1) (nodes_opt RR.1) in NS.
  fold (nodes_opt L) (nodes_opt R).
  split; [lia|]. split.
  - intros H. apply orb_false_elim in H as [H HS]. apply orb_false_elim in H as [Hl Hr].
    rewrite (SF HS). apply EL in Hl. apply ER in Hr. rewrite Hl, Hr. reflexivity.
  - intros H.
    assert (HS : SS.2 = false).
    { destruct SS.2; [|reflexivity]. exfalso.
      destruct (ST eq_refl) as [Hlt|(q & Eq & Hne)].
      - rewrite H in Hlt. cbn [nodes_opt nodes] in Hlt.
        fold (nodes_opt L) (nodes_opt R) in Hlt.
        fold (nodes_opt LL.1) (nodes_opt RR.1) in Hlt. lia.
      - rewrite H in Eq. injection Eq as <-. apply Hne. reflexivity. }
    rewrite HS, orb_false_r. rewrite (SF HS) in H. injection H as Hl Hr.
    apply EL in Hl. apply ER in Hr. rewrite Hl, Hr. reflexivity.
Qed.

(** ** The pass [Simplify_Rotate] *)

Lemma Token_eqb_operator i c :
  Token_eqb (mkToken Token_Operator i) (Token_of_char c) = (i =? char_code c).
Proof. reflexivity. Qed.

Lemma value_op rho c l r a b :
  value rho l = Some a -> value rho r = Some b ->
  value rho (Node (Token_of_char c) (Some l) (Some r))
  = if char_code c =? char_code "+" then Some (a + b)%Qc
    else if char_code c =? char_code "-" then Some (a - b)%Qc
    else if char_code c =? char_code "*" then Some (a * b)%Qc
    else if char_code c =? char_code "/" then
      if Qc_eq_dec b (Q2Qc 0) then None else Some (a / b)%Qc
    else None.
Proof. intros Ea Eb. cbn [value Ty Token_of_char ID]. rewrite Ea, Eb. reflexivity. Qed.

Lemma value_ADD rho l r a b :
  value rho l = Some a -> value rho r = Some b ->
  value rho (Node ADD (Some l) (Some r)) = Some (a + b)%Qc.
Proof. intros Ea Eb. unfold ADD. rewrite (value_op rho _ l r a b Ea Eb). reflexivity. Qed.

Lemma value_SUB rho l r a b :
  value rho l = Some a -> value rho r = Some b ->
  value rho (Node SUB (Some l) (Some r)) = Some (a - b)%Qc.
Proof. intros Ea Eb. unfold SUB. rewrite (value_op rho _ l r a b Ea Eb). reflexivity. Qed.

Lemma value_MUL rho l r a b :
  value rho l = Some a -> value rho r = Some b ->
  value rho (Node MUL (Some l) (Some r)) = Some (a * b)%Qc.
Proof. intros Ea Eb. unfold MUL. rewrite (value_op rho _ l r a b Ea Eb). reflexivity. Qed.

Lemma value_DIV rho l r a b :
  value rho l = Some a -> value rho r = Some b -> b <> Q2Qc 0 ->
  value rho (Node DIV (Some l) (Some r)) = Some (a / b)%Qc.
Proof.
  intros Ea Eb Hb. unfold DIV. rewrite (value_op rho _ l r a b Ea Eb).
  change (value rho l = Some a) in Ea.
  change ((if Qc_eq_dec b (Q2Qc 0) then None else Some (a / b)%Qc) = Some (a / b)%Qc).
  destruct (Qc_eq_dec b (Q2Qc 0)); [contradiction|reflexivity].
Qed.

(** What a value of a node of one of the four operators comes from. *)
Lemma value_inv rho c L R v :
  value rho (Node (Token_of_char c) L R) = Some v ->
  exists l r a b, L = Some l /\ R = Some r /\ value rho l = Some a /\ value rho r = Some b /\
    ((c = "+"%char /\ v = (a + b)%Qc) \/ (c = "-"%char /\ v = (a - b)%Qc) \/
     (c = "*"%char /\ v = (a * b)%Qc) \/ (c = "/"%char /\ b <> Q2Qc 0 /\ v = (a / b)%Qc)).
Proof.
  intros Hv.
  destruct (value_operator rho (Token_of_char c) L R v eq_refl Hv) as (l & r & a & b & -> & -> & Ea & Eb).
  rewrite (value_op rho c l r a b Ea Eb) in Hv.
  exists l, r, a, b. repeat (split; [reflexivity || assumption|]).
  assert (CC : forall d : ascii, (char_code c =? char_code d) = true -> c = d).
  { intros d H. apply Z.eqb_eq in H. unfold char_code in H.
    apply N2Z.inj in H. rewrite <- (ascii_N_embedding c), <- (ascii_N_embedding d), H.
    reflexivity. }
  destruct (char_code c =? char_code "+") eqn:E1.
  { left. split; [apply CC; exact E1|congruence]. }
  destruct (char_code c =? char_code "-") eqn:E2.
  { right. left. split; [apply CC; exact E2|congruence]. }
  destruct (char_code c =? char_code "*") eqn:E3.
  { right. right. left. split; [apply CC; exact E3|congruence]. }
  destruct (char_code c =? char_code "/") eqn:E4; [|discriminate Hv].
  right. right. right. destruct (Qc_eq_dec b (Q2Qc 0)); [discriminate Hv|].
  split; [apply CC; exact E4|]. split; [assumption|congruence].
Qed.

Lemma value_inv_SUB rho L R v :
  value rho (Node SUB L R) = Some v ->
  exists l r a b, L = Some l /\ R = Some r /\ value rho l = Some a /\ value rho r = Some b /\
    v = (a - b)%Qc.
Proof.
  intros Hv. destruct (value_inv rho "-" L R v Hv) as (l & r & a & b & HL & HR & Ea & Eb & C).
  exists l, r, a, b. repeat (split; [assumption|]).
  destruct C as [[C _]|[[_ C]|[[C _]|[C _]]]]; (discriminate C || exact C).
Qed.

Lemma value_inv_DIV rho L R v :
  value rho (Node DIV L R) = Some v ->
  exists l r a b, L = Some l /\ R = Some r /\ value rho l = Some a /\ value rho r = Some b /\
    b <> Q2Qc 0 /\ v = (a / b)%Qc.
Proof.
  intros Hv. destruct (value_inv rho "/" L R v Hv) as (l & r & a & b & HL & HR & Ea & Eb & C).
  exists l, r, a, b. repeat (split; [assumption|]).
  destruct C as [[C _]|[[C _]|[[C _]|[_ C]]]]; (discriminate C || exact C).
Qed.

Lemma Qc_mul_nz (a b : Qc) : a <> Q2Qc 0 -> b <> Q2Qc 0 -> (a * b)%Qc <> Q2Qc 0.
Proof.
  intros Ha Hb H. apply Qcmult_integral in H. destruct H; contradiction.
Qed.

Lemma Qc_div_nz (a b : Qc) : (a / b)%Qc <> Q2Qc 0 -> a <> Q2Qc 0.
Proof. intros H E. apply H. rewrite E. unfold Qcdiv. ring. Qed.

(** The value of a tree put together from subtrees with known values. *)
Ltac nz :=
  first [ assumption
        | apply Qc_mul_nz; nz
        | eapply Qc_div_nz; eassumption ].
Ltac val :=
  first [ eassumption
        | eapply value_ADD; val
        | eapply value_SUB; val
        | eapply value_MUL; val
        | eapply value_DIV; [val|val|nz] ].
Ltac same_value :=
  etransitivity; [val|f_equal; first [ring | field; repeat split; nz]].

Ltac tokens :=
  change (Rewrites.set_ID ADD "-") with SUB in *;
  change (Rewrites.set_ID SUB "+") with ADD in *;
  change (Rewrites.set_ID MUL "/") with DIV in *;
  change (Rewrites.set_ID DIV "*") with MUL in *.

(** The operand [l] of a node whose token is [T], taken apart. *)
Ltac operand_is l E T :=
  apply Token_eqb_eq in E; destruct l as [? ? ?]; cbn [ExprNode_V] in E; subst;
  cbn [ExprNode_V ExprNode_L ExprNode_R].

Lemma Rotate_ADD_value rho l r a b :
  value rho l = Some a -> value rho r = Some b ->
  exists q c, Rewrites.Simplify_Rotate_switch (Node ADD (Some l) (Some r)) = Some (q, c) /\
              value rho q = Some (a + b)%Qc.
Proof.
  intros Ea Eb. unfold Rewrites.Simplify_Rotate_switch.
  cbn [ExprNode_V ExprNode_L ExprNode_R].
  change (Token_eqb ADD ADD) with true. cbv iota. cbn [mbind option_bind].
  destruct (Token_eqb (ExprNode_V l) SUB) eqn:El, (Token_eqb (ExprNode_V r) SUB) eqn:Er;
    cbn [andb]; do 2 eexists; (split; [reflexivity|]); tokens.
  - operand_is l El SUB. operand_is r Er SUB.
    apply value_inv_SUB in Ea as (x & y & vx & vy & -> & -> & Ex & Ey & ->).
    apply value_inv_SUB in Eb as (x' & y' & vx' & vy' & -> & -> & Ex' & Ey' & ->).
    same_value.
  - operand_is l El SUB.
    apply value_inv_SUB in Ea as (x & y & vx & vy & -> & -> & Ex & Ey & ->).
    same_value.
  - operand_is r Er SUB.
    apply value_inv_SUB in Eb as (x' & y' & vx' & vy' & -> & -> & Ex' & Ey' & ->).
    same_value.
  - same_value.
Qed.

Lemma Rotate_SUB_value rho l r a b :
  value rho l = Some a -> value rho r = Some b ->
  exists q c, Rewrites.Simplify_Rotate_switch (Node SUB (Some l) (Some r)) = Some (q, c) /\
              value rho q = Some (a - b)%Qc.
Proof.
  intros Ea Eb. unfold Rewrites.Simplify_Rotate_switch.
  cbn [ExprNode_V ExprNode_L ExprNode_R].
  change (Token_eqb SUB ADD) with false. change (Token_eqb SUB SUB) with true.
  cbv iota. cbn [mbind option_bind].
  destruct (Token_eqb (ExprNode_V l) SUB) eqn:El, (Token_eqb (ExprNode_V r) SUB) eqn:Er;
    cbn [andb]; do 2 eexists; (split; [reflexivity|]); tokens.
  - operand_is l El SUB. operand_is r Er SUB.
    apply value_inv_SUB in Ea as (x & y & vx & vy & -> & -> & Ex & Ey & ->).
    apply value_inv_SUB in Eb as (x' & y' & vx' & vy' & -> & -> & Ex' & Ey' & ->).
    same_value.
  - operand_is l El SUB.
    apply value_inv_SUB in Ea as (x & y & vx & vy & -> & -> & Ex & Ey & ->).
    same_value.
  - operand_is r Er SUB.
    apply value_inv_SUB in Eb as (x' & y' & vx' & vy' & -> & -> & Ex' & Ey' & ->).
    same_value.
  - same_value.
Qed.

Lemma Rotate_MUL_value rho l r a b :
  value rho l = Some a -> value rho r = Some b ->
  exists q c, Rewrites.Simplify_Rotate_switch (Node MUL (Some l) (Some r)) = Some (q, c) /\
              value rho q = Some (a * b)%Qc.
Proof.
  intros Ea Eb. unfold Rewrites.Simplify_Rotate_switch.
  cbn [ExprNode_V ExprNode_L ExprNode_R].
  change (Token_eqb MUL ADD) with false. change (Token_eqb MUL SUB) with false.
  change (Token_eqb MUL MUL) with true.
  cbv iota. cbn [mbind option_bind].
  destruct (Token_eqb (ExprNode_V l) DIV) eqn:El, (Token_eqb (ExprNode_V r) DIV) eqn:Er;
    cbn [andb]; do 2 eexists; (split; [reflexivity|]); tokens.
  - operand_is l El DIV. operand_is r Er DIV.
    apply value_inv_DIV in Ea as (x & y & vx & vy & -> & -> & Ex & Ey & Ny & ->).
    apply value_inv_DIV in Eb as (x' & y' & vx' & vy' & -> & -> & Ex' & Ey' & Ny' & ->).
    same_value.
  - operand_is l El DIV.
    apply value_inv_DIV in Ea as (x & y & vx & vy & -> & -> & Ex & Ey & Ny & ->).
    same_value.
  - operand_is r Er DIV.
    apply value_inv_DIV in Eb as (x' & y' & vx' & vy' & -> & -> & Ex' & Ey' & Ny' & ->).
    same_value.
  - same_value.
Qed.

Lemma Rotate_DIV_value rho l r a b :
  value rho l = Some a -> value rho r = Some b -> b <> Q2Qc 0 ->
  exists q c, Rewrites.Simplify_Rotate_switch (Node DIV (Some l) (Some r)) = Some (q, c) /\
              value rho q = Some (a / b)%Qc.
Proof.
  intros Ea Eb Nb. unfold Rewrites.Simplify_Rotate_switch.
  cbn [ExprNode_V ExprNode_L ExprNode_R].
  change (Token_eqb DIV ADD) with false. change (Token_eqb DIV SUB) with false.
  change (Token_eqb DIV MUL) with false. change (Token_eqb DIV DIV) with true.
  cbv iota. cbn [mbind option_bind].
  destruct (Token_eqb (ExprNode_V l) DIV) eqn:El, (Token_eqb (ExprNode_V r) DIV) eqn:Er;
    cbn [andb]; do 2 eexists; (split; [reflexivity|]); tokens.
  - operand_is l El DIV. operand_is r Er DIV.
    apply value_inv_DIV in Ea as (x & y & vx & vy & -> & -> & Ex & Ey & Ny & ->).
    apply value_inv_DIV in Eb as (x' & y' & vx' & vy' & -> & -> & Ex' & Ey' & Ny' & ->).
    same_value.
  - operand_is l El DIV.
    apply value_inv_DIV in Ea as (x & y & vx & vy & -> & -> & Ex & Ey & Ny & ->).
    same_value.
  - operand_is r Er DIV.
    apply value_inv_DIV in Eb as (x' & y' & vx' & vy' & -> & -> & Ex' & Ey' & Ny' & ->).
    same_value.
  - same_value.
Qed.

Lemma Simplify_Rotate_switch_value rho pNode v :
  value rho pNode = Some v ->
  exists q c, Rewrites.Simplify_Rotate_switch pNode = Some (q, c) /\ value rho q = Some v.
Proof.
  destruct pNode as [[t i] L R]. intros Hv. destruct t.
  - exists (Node (mkToken Token_Int i) L R), false. split; [reflexivity|exact Hv].
  - exists (Node (mkToken Token_Variable i) L R), false. split; [reflexivity|exact Hv].
  - discriminate Hv.
  - destruct (value_operator rho (mkToken Token_Operator i) L R v eq_refl Hv)
      as (l & r & a & b & -> & -> & Ea & Eb).
    rewrite (value_node rho (mkToken Token_Operator i) l r a b eq_refl Ea Eb) in Hv.
    cbn [ID] in Hv.
    destruct (i =? char_code "+") eqn:E1.
    { apply Z.eqb_eq in E1. subst i. injection Hv as <-. apply Rotate_ADD_value; assumption. }
    destruct (i =? char_code "-") eqn:E2.
    { apply Z.eqb_eq in E2. subst i. injection Hv as <-. apply Rotate_SUB_value; assumption. }
    destruct (i =? char_code "*") eqn:E3.
    { apply Z.eqb_eq in E3. subst i. injection Hv as <-. apply Rotate_MUL_value; assumption. }
    destruct (i =? char_code "/") eqn:E4; [|discriminate Hv].
    apply Z.eqb_eq in E4. subst i.
    destruct (Qc_eq_dec b (Q2Qc 0)); [discriminate Hv|]. injection Hv as <-.
    apply Rotate_DIV_value; assumption.
Qed.

(** X20.  [Simplify_Rotate] keeps the value of an arithmetic tree: for a
    tree of integers, variables and [+], [-], [*], [/] that has a rational
    value under a valuation of the variables (no divisor is zero), the pass
    dereferences no null pointer and leaves a tree that has the same value
    under that valuation. *)
Theorem Simplify_Rotate_value (rho : Z -> Qc) (p : ExprNode) (v : Qc) :
  value rho p = Some v ->
  exists q c, Rewrites.Simplify_Rotate p = Some (q, c) /\ value rho q = Some v.
Proof.
  revert v. induction p as [V L R IHl IHr] using ExprNode_tree_ind. intros v Hv.
  cbn [Rewrites.Simplify_Rotate].
  assert (Step : forall L' R', value rho (Node V L' R') = Some v ->
            exists q c,
              ('(q, Changed) ← Rewrites.Simplify_Rotate_switch (Node V L' R');
               Some (q, false || false || Changed)) = Some (q, c) /\ value rho q = Some v).
  { intros L' R' H.
    destruct (Simplify_Rotate_switch_value rho _ v H) as (q & c & -> & Hq).
    exists q, c. split; [reflexivity|exact Hq]. }
  destruct (Ty V) eqn:HT.
  - destruct (value_leaf rho V L R v ltac:(congruence) Hv) as [-> ->].
    cbn [mbind option_bind]. apply Step. exact Hv.
  - destruct (value_leaf rho V L R v ltac:(congruence) Hv) as [-> ->].
    cbn [mbind option_bind]. apply Step. exact Hv.
  - cbn [value] in Hv. rewrite HT in Hv. discriminate Hv.
  - destruct (value_operator rho V L R v HT Hv) as (l & r & a & b & -> & -> & Ea & Eb).
    destruct (IHl l eq_refl a Ea) as (l' & cl & -> & Ea').
    destruct (IHr r eq_refl b Eb) as (r' & cr & -> & Eb').
    cbn [mbind option_bind].
    assert (Hv' : value rho (Node V (Some l') (Some r')) = Some v).
    { rewrite (value_node rho V l r a b HT Ea Eb) in Hv.
      rewrite (value_node rho V l' r' a b HT Ea' Eb'). exact Hv. }
    destruct (Simplify_Rotate_switch_value rho _ v Hv') as (q & c & -> & Hq).
    exists q, (cl || cr || c). split; [reflexivity|exact Hq].
Qed.

(** [x / (y / z) - (1 - x)] with [x = 3/2], [y = 5] and [z = 2]. *)
Lemma Simplify_Rotate_value_witness :
  let rho := fun i : Z => if i =? 0 then Q2Qc (3 # 2) else if i =? 1 then Q2Qc 5 else Q2Qc 2 in
  let p := BinOp SUB (BinOp DIV (Var 0) (BinOp DIV (Var 1) (Var 2)))
                     (BinOp SUB (Const 1) (Var 0)) in
  exists q c, Rewrites.Simplify_Rotate p = Some (q, c) /\ value rho q = Some (Q2Qc (11 # 10)).
Proof.
  intros rho p. apply Simplify_Rotate_value. vm_compute. reflexivity.
Defined.

(** X21.  [Simplify_Rotate] never turns the function [pow] into the
    operator [^]: since [IsPOW] holds of the function token too, the branch
    for [V == Pow()] is not reached.  A node [pow(l, b)] whose first operand
    is no power is left as it is; on [pow(u, b)] with [u] a power of base
    [x] and exponent [a] (written [^] or [pow]) the branch for nested
    powers stores the character [*] as the id of the function token, and
    the result is that power of [x] with, as exponent, a function node of
    id 42 on [a] and [b]: this id is outside [Funcs], and [Partial] has no
    value on the result. *)
Theorem Simplify_Rotate_pow_function (Vi : Token) (l : ExprNode) (x a b : option ExprNode)
  (DX : Z) :
  IsPOW Vi = true -> IsPOW (ExprNode_V l) = false ->
  let Pow := Token_of_func FUNC_pow in
  let bad := Node (mkToken Token_Function (char_code "*")) a b in
  Rewrites.Simplify_Rotate_switch (Node Pow (Some l) b) = Some (Node Pow (Some l) b, false) /\
  Rewrites.Simplify_Rotate_switch (Node Pow (Some (Node Vi x a)) b)
  = Some (Node Vi x (Some bad), true) /\
  Funcs_at (ID (ExprNode_V bad)) = None /\
  Partial (Node Vi x (Some bad)) DX = None.
Proof.
  intros Hi Hl Pow bad. split; [|split; [|split]].
  - unfold Rewrites.Simplify_Rotate_switch. cbn [ExprNode_V ExprNode_L ExprNode_R].
    change (Token_eqb Pow ADD) with false. change (Token_eqb Pow SUB) with false.
    change (Token_eqb Pow MUL) with false. change (Token_eqb Pow DIV) with false.
    change (IsPOW Pow) with true. cbv iota. cbn [mbind option_bind].
    rewrite Hl. reflexivity.
  - unfold Rewrites.Simplify_Rotate_switch. cbn [ExprNode_V ExprNode_L ExprNode_R].
    change (Token_eqb Pow ADD) with false. change (Token_eqb Pow SUB) with false.
    change (Token_eqb Pow MUL) with false. change (Token_eqb Pow DIV) with false.
    change (IsPOW Pow) with true. cbv iota. cbn [mbind option_bind ExprNode_V].
    rewrite Hi. reflexivity.
  - reflexivity.
  - assert (Hb : Partial bad DX = None) by reflexivity.
    assert (Hp : forall Op1 r DF, DX_pow Op1 (Some r) DF None = None) by reflexivity.
    unfold IsPOW in Hi. apply orb_prop in Hi as [Hi|Hi]; apply Token_eqb_eq in Hi; subst Vi.
    + change (DX_pow x (Some bad) match x with Some l0 => Partial l0 DX | None => None end
                (Partial bad DX) = None).
      rewrite Hb. apply Hp.
    + change (DX_pow x (Some bad) match x with Some l0 => Partial l0 DX | None => None end
                (Partial bad DX) = None).
      rewrite Hb. apply Hp.
Qed.

(** [pow(pow(x, 2), 3)]. *)
Lemma Simplify_Rotate_pow_function_witness :
  let Pow := Token_of_func FUNC_pow in
  let bad := Node (mkToken Token_Function (char_code "*")) (Some (Const 2)) (Some (Const 3)) in
  Rewrites.Simplify_Rotate_switch (Node Pow (Some (Var 0)) (Some (Const 3)))
  = Some (Node Pow (Some (Var 0)) (Some (Const 3)), false) /\
  Rewrites.Simplify_Rotate_switch
    (Node Pow (Some (Node Pow (Some (Var 0)) (Some (Const 2)))) (Some (Const 3)))
  = Some (Node Pow (Some (Var 0)) (Some bad), true) /\
  Funcs_at (ID (ExprNode_V bad)) = None /\
  Partial (Node Pow (Some (Var 0)) (Some bad)) 0 = None.
Proof.
  exact (Simplify_Rotate_pow_function (Token_of_func FUNC_pow) (Var 0) (Some (Var 0))
           (Some (Const 2)) (Some (Const 3)) 0 eq_refl eq_refl).
Defined.

(** The flag that [Simplify_Rotate] returns is not exact: the four
    rewrites of a node whose two operands both have the inverse operator,
    [(a-b)+(c-d)] to [(a+c)-(b+d)], [(a-b)-(c-d)] to [(a+d)-(c+b)],
    [(a/b)*(c/d)] to [(a*c)/(b*d)] and [(a/b)/(c/d)] to [(a*d)/(c*b)],
    change the tree and leave [Changed] unset. *)
Lemma Simplify_Rotate_unreported (a b c d : option ExprNode) :
  Rewrites.Simplify_Rotate_switch
    (BinOp ADD (Node SUB a b) (Node SUB c d))
  = Some (BinOp SUB (Node ADD a c) (Node ADD b d), false) /\
  Rewrites.Simplify_Rotate_switch
    (BinOp SUB (Node SUB a b) (Node SUB c d))
  = Some (BinOp SUB (Node ADD a d) (Node ADD c b), false) /\
  Rewrites.Simplify_Rotate_switch
    (BinOp MUL (Node DIV a b) (Node DIV c d))
  = Some (BinOp DIV (Node MUL a c) (Node MUL b d), false) /\
  Rewrites.Simplify_Rotate_switch
    (BinOp DIV (Node DIV a b) (Node DIV c d))
  = Some (BinOp DIV (Node MUL a d) (Node MUL c b), false).
Proof. repeat split; reflexivity. Qed.

Lemma Simplify_Rotate_switch_silent q q' :
  double_inverse q = false ->
  Rewrites.Simplify_Rotate_switch q = Some (q', false) -> q' = q.
Proof.
  destruct q as [V L R]. unfold double_inverse, Rewrites.Simplify_Rotate_switch.
  cbn [ExprNode_V ExprNode_L ExprNode_R].
  destruct (Token_eqb V ADD) eqn:E1; [|destruct (Token_eqb V SUB) eqn:E2;
    [|destruct (Token_eqb V MUL) eqn:E3; [|destruct (Token_eqb V DIV) eqn:E4]]].
  1-4: destruct L as [l|]; [|discriminate]; destruct R as [r|]; [|discriminate];
       cbn [mbind option_bind orb andb];
       destruct (Token_eqb (ExprNode_V l) SUB), (Token_eqb (ExprNode_V r) SUB),
                (Token_eqb (ExprNode_V l) DIV), (Token_eqb (ExprNode_V r) DIV);
       cbn [andb orb]; congruence.
  destruct (IsPOW V).
  - destruct L as [l|]; [|discriminate]. cbn [mbind option_bind].
    destruct (IsPOW (ExprNode_V l)); congruence.
  - destruct (Token_eqb V (Token_of_func FUNC_pow)); [congruence|].
    destruct (Token_eqb V (Token_of_func FUNC_log)); congruence.
Qed.

(** X22.  Those four rewrites are the only ones that [Simplify_Rotate]
    does not report: on a tree none of whose nodes is a sum or a difference
    of two differences, or a product or a quotient of two quotients, a
    pass that returns false has left the tree as it was. *)
Theorem Simplify_Rotate_silent (p p' : ExprNode) :
  has_double_inverse p = false ->
  Rewrites.Simplify_Rotate p = Some (p', false) -> p' = p.
Proof.
  revert p'. induction p as [V L R IHl IHr] using ExprNode_tree_ind. intros p' Hd H.
  cbn [has_double_inverse] in Hd.
  apply orb_false_elim in Hd as [Hd HdR]. apply orb_false_elim in Hd as [Hd HdL].
  cbn [Rewrites.Simplify_Rotate] in H.
  match type of H with (?m ≫= _) = _ => destruct m as [[L' cL]|] eqn:EL end;
    [|discriminate H].
  cbn [mbind option_bind] in H.
  match type of H with (?m ≫= _) = _ => destruct m as [[R' cR]|] eqn:ER end;
    [|discriminate H].
  cbn [mbind option_bind] in H.
  destruct (Rewrites.Simplify_Rotate_switch (Node V L' R')) as [[q c]|] eqn:Es;
    [|discriminate H].
  cbn [mbind option_bind] in H. injection H as <- Hc.
  apply orb_false_elim in Hc as [Hc ->]. apply orb_false_elim in Hc as [-> ->].
  assert (L' = L) as ->.
  { destruct L as [l|]; [|congruence].
    destruct (Rewrites.Simplify_Rotate l) as [[l' cl]|] eqn:El; [|discriminate EL].
    cbn [mbind option_bind] in EL. injection EL as <- ->. f_equal.
    apply (IHl l eq_refl l' HdL El). }
  assert (R' = R) as ->.
  { destruct R as [r|]; [|congruence].
    destruct (Rewrites.Simplify_Rotate r) as [[r' cr]|] eqn:Er; [|discriminate ER].
    cbn [mbind option_bind] in ER. injection ER as <- ->. f_equal.
    apply (IHr r eq_refl r' HdR Er). }
  apply Simplify_Rotate_switch_silent; assumption.
Qed.

(** [(a - b) * c] has no such node and the pass leaves it as it is. *)
Lemma Simplify_Rotate_silent_witness :
  BinOp MUL (BinOp SUB (CreateNode (Token_of_var 0)) (CreateNode (Token_of_var 1)))
            (CreateNode (Token_of_var 2))
  = BinOp MUL (BinOp SUB (CreateNode (Token_of_var 0)) (CreateNode (Token_of_var 1)))
              (CreateNode (Token_of_var 2)).
Proof.
  apply Simplify_Rotate_silent; reflexivity.
Defined.

(** ** The reports of syntax errors *)

Lemma complains_refl g : complains g g.
Proof.
  exists []. rewrite app_nil_r. split; [reflexivity|]. split; [constructor|]. tauto.
Qed.

Lemma complains_trans g1 g2 g3 : complains g1 g2 -> complains g2 g3 -> complains g1 g3.
Proof.
  intros (e1 & O1 & F1 & N1) (e2 & O2 & F2 & N2). exists (e1 ++ e2).
  split; [rewrite O2, O1, app_assoc; reflexivity|].
  split; [apply Forall_app; split; assumption|].
  intros H3. destruct (N2 H3) as [H2|H2].
  - destruct (N1 H2) as [H1|H1]; [left; exact H1|right].
    intros E. apply app_eq_nil in E as [E _]. contradiction.
  - right. intros E. apply app_eq_nil in E as [_ E]. contradiction.
Qed.

Lemma complains_report msg g :
  complains g (set_FailedToParse true (set_Output (Output g ++ ["Syntax Error: " ++ msg]%string) g)).
Proof.
  exists [("Syntax Error: " ++ msg)%string]. split; [reflexivity|].
  split; [constructor; [exists msg; reflexivity|constructor]|].
  intros _. right. discriminate.
Qed.

Lemma complains_SyntaxError msg : State_ok complains (SyntaxError msg).
Proof. intros g. apply complains_report. Qed.

Ltac complains_step :=
  first
    [ apply State_ok_ret; exact complains_refl
    | apply Run_ok_ret; exact complains_refl
    | apply Run_ok_no_result
    | apply State_ok_get; exact complains_refl
    | apply complains_SyntaxError
    | apply State_ok_bind; [exact complains_trans| |]
    | apply Run_ok_bind; [exact complains_trans| |]
    | apply Run_ok_lift
    | assumption ].

Lemma complains_MergeTop CurLevel OprV : forall ExprV,
  State_ok complains (MergeTop CurLevel OprV ExprV).
Proof.
  induction OprV as [|Back OprV IH]; intros ExprV; cbn [MergeTop]; [complains_step|].
  destruct (TriggerMerge Back CurLevel); [|complains_step].
  destruct ExprV as [|r [|l ExprV]]; [| |apply IH].
  all: intros g; apply (complains_report "missing operand.").
Qed.

Lemma complains_CreateTree_scan range : forall OprV ExprV LastHasLevel,
  State_ok complains (CreateTree_scan range OprV ExprV LastHasLevel).
Proof.
  induction range as [|pNode range IH]; intros OprV ExprV LastHasLevel;
    cbn [CreateTree_scan]; [complains_step|].
  destruct (IsIgnoredSymbol _); [apply IH|].
  destruct (OprLevel pNode false =? 0).
  - destruct (negb LastHasLevel); [|apply IH].
    complains_step; [apply complains_MergeTop|].
    intros [[ok OprV1] ExprV1]. destruct ok; [apply IH|complains_step].
  - complains_step; [apply complains_MergeTop|].
    intros [[ok OprV1] ExprV1]. destruct ok; [apply IH|complains_step].
Qed.

Lemma complains_CreateTree_merge fuel : forall OprV ExprV,
  Run_ok complains (CreateTree_merge fuel OprV ExprV).
Proof.
  induction fuel as [|fuel IH]; intros [|Back OprV] ExprV; cbn [CreateTree_merge];
    try complains_step.
  - complains_step. apply complains_MergeTop.
  - intros [[ok OprV1] ExprV1]. destruct ok; [apply IH|complains_step].
Qed.

Lemma complains_CreateTree range : Run_ok complains (CreateTree range).
Proof.
  unfold CreateTree. destruct range as [|Begin range]; [complains_step|].
  complains_step.
  - complains_step. apply complains_CreateTree_scan.
  - intros [[OprV ExprV]|]; [|complains_step].
    complains_step; [apply complains_CreateTree_merge|].
    intros [ExprV'|]; [|complains_step].
    destruct (last ExprV'); complains_step.
Qed.

Lemma complains_Expr_close chain B : Run_ok complains (Expr_close chain B).
Proof.
  unfold Expr_close. destruct (Comma B) as [pCom|].
  - complains_step; [apply complains_CreateTree|intros T1].
    complains_step; [apply complains_CreateTree|intros T2].
    complains_step; [complains_step; complains_step|intros g1].
    destruct (FailedToParse g1); [complains_step|].
    destruct (TokenType_eqb _ _); [complains_step|].
    complains_step; [complains_step; complains_step|intros _; complains_step].
  - complains_step; [apply complains_CreateTree|intros T1].
    complains_step; [complains_step; complains_step|intros g1].
    destruct (FailedToParse g1); [complains_step|].
    destruct (TokenType_eqb _ _); complains_step.
Qed.

Lemma complains_Expr_scan Toks : forall chain Brackets,
  Run_ok complains (Expr_scan Toks chain Brackets).
Proof.
  induction Toks as [|T Toks IH]; intros chain Brackets; cbn [Expr_scan].
  - destruct Brackets; [complains_step|].
    complains_step; [complains_step; complains_step|intros _; complains_step].
  - destruct (IsLBK T); [apply IH|].
    destruct (IsCOM T).
    { destruct Brackets as [|B Brackets].
      - complains_step; [complains_step; complains_step|intros _; complains_step].
      - destruct (Comma B); [|apply IH].
        complains_step; [complains_step; complains_step|intros _; complains_step]. }
    destruct (IsRBK T); [|apply IH].
    destruct Brackets as [|B Brackets].
    + complains_step; [complains_step; complains_step|intros _; complains_step].
    + complains_step; [apply complains_Expr_close|].
      intros [chain2|]; [apply IH|complains_step].
Qed.

(** [CheckArgument] prints reports of syntax errors, at least one when it
    returns [false], and changes nothing else. *)
Lemma CheckArgument_errors E : forall g b g',
  CheckArgument E g = Some (b, g') ->
  exists errs, g' = set_Output (Output g ++ errs) g /\ Forall syntax_error errs /\
               (b = false -> errs <> []).
Proof.
  induction E as [V L R IHl IHr] using ExprNode_tree_ind. intros g b g'.
  cbn [CheckArgument].
  assert (None_ok : forall g0 : Globals,
            exists errs, g0 = set_Output (Output g0 ++ errs) g0 /\ Forall syntax_error errs /\
                         (true = false -> errs <> [])).
  { intros g0. exists []. rewrite app_nil_r, set_Output_id.
    split; [reflexivity|]. split; [constructor|discriminate]. }
  destruct (TokenType_eqb (Ty V) Token_Function).
  - destruct (Funcs_at (ID V)) as [F|]; [|discriminate].
    destruct (negb _).
    + intros H. apply Run_bind_Some in H as ([] & g1 & H1 & H2).
      injection H1 as <-. injection H2 as <- <-.
      eexists. split; [reflexivity|]. split; [|discriminate].
      constructor; [|constructor].
      exists ("Function " ++ Name F ++ " expected " ++ pretty (NParam F)
              ++ " Arguments, Found "
              ++ pretty (match L with Some _ => 1 | None => 0 end
                         + match R with Some _ => 1 | None => 0 end)
              ++ " Arguments")%string.
      reflexivity.
    + intros [= <- <-]. apply None_ok.
  - intros H.
    apply Run_bind_Some in H as (OK1 & g1 & H1 & H2).
    apply Run_bind_Some in H2 as (OK2 & g2 & H2 & H3).
    injection H3 as <- <-.
    assert (E1 : exists errs, g1 = set_Output (Output g ++ errs) g /\ Forall syntax_error errs /\
                              (OK1 = false -> errs <> [])).
    { destruct L as [l|]; [exact (IHl l eq_refl _ _ _ H1)|].
      injection H1 as <- <-. apply None_ok. }
    assert (E2 : exists errs, g2 = set_Output (Output g1 ++ errs) g1 /\ Forall syntax_error errs /\
                              (OK2 = false -> errs <> [])).
    { destruct R as [r|]; [exact (IHr r eq_refl _ _ _ H2)|].
      injection H2 as <- <-. apply None_ok. }
    destruct E1 as (e1 & -> & F1 & N1), E2 as (e2 & -> & F2 & N2).
    exists (e1 ++ e2). cbn [Output set_Output]. rewrite set_Output_twice, app_assoc.
    split; [reflexivity|]. split; [apply Forall_app; split; assumption|].
    intros Hb. apply andb_false_iff in Hb as [Hb|Hb]; intros E;
      apply app_eq_nil in E as [E1 E2]; [exact (N1 Hb E1)|exact (N2 Hb E2)].
Qed.

Lemma complains_Expr_build Toks g r g' :
  Expr_build Toks g = Some (r, g') -> complains g g'.
Proof.
  unfold Expr_build. intros H.
  apply Run_bind_Some in H as ([] & g0 & H0 & H).
  injection H0 as <-.
  assert (C0 : complains g (set_DividedbyZero false g)).
  { exists []. cbn [Output set_DividedbyZero FailedToParse]. rewrite app_nil_r.
    split; [reflexivity|]. split; [constructor|tauto]. }
  apply (complains_trans _ _ _ C0). clear C0.
  apply Run_bind_Some in H as (scanned & g1 & H1 & H).
  apply complains_Expr_scan in H1.
  destruct scanned as [chain|].
  2: { injection H as _ <-. exact H1. }
  apply Run_bind_Some in H as (Root & g2 & H2 & H).
  apply complains_CreateTree in H2.
  apply Run_bind_Some in H as (ok & g3 & H3 & H).
  apply CheckArgument_errors in H3 as (errs & -> & Fe & Ne).
  apply (complains_trans _ _ _ H1). apply (complains_trans _ _ _ H2).
  destruct ok.
  - injection H as _ <-. exists errs. cbn [Output set_Output FailedToParse].
    split; [reflexivity|]. split; [exact Fe|tauto].
  - apply Run_bind_Some in H as ([] & g4 & H4 & H).
    injection H4 as <-. injection H as _ <-.
    exists errs. cbn [Output set_Output set_FailedToParse FailedToParse].
    split; [reflexivity|]. split; [exact Fe|]. intros _. right. apply Ne. reflexivity.
Qed.

(** Where the construction of the tree goes on, it has changed nothing. *)
Lemma MergeTop_true CurLevel OprV : forall ExprV g OprV' ExprV' g',
  MergeTop CurLevel OprV ExprV g = ((true, OprV', ExprV'), g') -> g' = g.
Proof.
  induction OprV as [|Back OprV IH]; intros ExprV g OprV' ExprV' g'; cbn [MergeTop].
  - intros [= _ _ <-]. reflexivity.
  - destruct (TriggerMerge Back CurLevel); [|intros [= _ _ <-]; reflexivity].
    destruct ExprV as [|r [|l ExprV]]; [discriminate|discriminate|apply IH].
Qed.

Lemma CreateTree_scan_Some range : forall OprV ExprV LastHasLevel g r g',
  CreateTree_scan range OprV ExprV LastHasLevel g = (Some r, g') -> g' = g.
Proof.
  induction range as [|pNode range IH]; intros OprV ExprV LastHasLevel g r g';
    cbn [CreateTree_scan].
  - intros [= _ <-]. reflexivity.
  - destruct (IsIgnoredSymbol _); [apply IH|].
    destruct (OprLevel pNode false =? 0).
    + destruct (negb LastHasLevel); [|apply IH].
      rewrite State_bind_eq.
      destruct (MergeTop 2 OprV ExprV g) as [[[ok OprV1] ExprV1] g1] eqn:Em.
      cbn [fst snd]. destruct ok; [|discriminate].
      apply MergeTop_true in Em. subst g1. apply IH.
    + rewrite State_bind_eq.
      destruct (MergeTop _ OprV ExprV g) as [[[ok OprV1] ExprV1] g1] eqn:Em.
      cbn [fst snd]. destruct ok; [|discriminate].
      apply MergeTop_true in Em. subst g1. apply IH.
Qed.

Lemma CreateTree_merge_Some fuel : forall OprV ExprV g r g',
  CreateTree_merge fuel OprV ExprV g = Some (Some r, g') -> g' = g.
Proof.
  induction fuel as [|fuel IH]; intros [|Back OprV] ExprV g r g'; cbn [CreateTree_merge].
  - intros [= _ <-]. reflexivity.
  - discriminate.
  - intros [= _ <-]. reflexivity.
  - intros H. apply Run_bind_Some in H as ([[ok OprV1] ExprV1] & g1 & H1 & H).
    unfold lift in H1. destruct ok; [|discriminate H].
    assert (Em : MergeTop 0 (Back :: OprV) ExprV g = ((true, OprV1, ExprV1), g1))
      by congruence.
    apply MergeTop_true in Em. subst g1. exact (IH _ _ _ _ _ H).
Qed.

(** [CreateTree] leaves the globals alone unless it returns the node of
    the integer 0 that stands for a failure. *)
Lemma CreateTree_unchanged range g T g' :
  CreateTree range g = Some (T, g') -> g' = g \/ T = CreateNode Token_default.
Proof.
  unfold CreateTree. destruct range as [|Begin range]; [intros [= <- <-]; left; reflexivity|].
  set (range1 := if _ && _ then _ else _). clearbody range1.
  intros H. apply Run_bind_Some in H as (scanned & g1 & H1 & H).
  unfold lift in H1.
  destruct scanned as [[OprV ExprV]|]; [|injection H as <- _; right; reflexivity].
  assert (Es : CreateTree_scan range1 [] [] true g = (Some (OprV, ExprV), g1)) by congruence.
  apply CreateTree_scan_Some in Es. subst g1.
  apply Run_bind_Some in H as (merged & g2 & H2 & H).
  destruct merged as [ExprV'|]; [|injection H as <- _; right; reflexivity].
  apply CreateTree_merge_Some in H2. subst g2.
  destruct (last ExprV'); [|discriminate H]. injection H as _ <-. left. reflexivity.
Qed.

Lemma Expr_close_Some_flag chain B g chain' g' :
  Expr_close chain B g = Some (Some chain', g') -> FailedToParse g' = false.
Proof.
  unfold Expr_close. destruct (Comma B) as [pCom|]; intros H.
  - apply Run_bind_Some in H as (T1 & g1 & _ & H).
    apply Run_bind_Some in H as (T2 & g2 & _ & H).
    apply Run_bind_Some in H as (g3 & g3' & H3 & H).
    injection H3 as <- <-.
    destruct (FailedToParse g2) eqn:Ef; [discriminate H|].
    destruct (TokenType_eqb _ _); [injection H as _ <-; exact Ef|].
    apply Run_bind_Some in H as ([] & g4 & _ & H). discriminate H.
  - apply Run_bind_Some in H as (T1 & g1 & _ & H).
    apply Run_bind_Some in H as (g3 & g3' & H3 & H).
    injection H3 as <- <-.
    destruct (FailedToParse g1) eqn:Ef; [discriminate H|].
    destruct (TokenType_eqb _ _); injection H as _ <-; exact Ef.
Qed.

Lemma Expr_scan_Some_flag Toks : forall chain Brackets g chain' g',
  Expr_scan Toks chain Brackets g = Some (Some chain', g') ->
  FailedToParse g = false -> FailedToParse g' = false.
Proof.
  induction Toks as [|T Toks IH]; intros chain Brackets g chain' g'; cbn [Expr_scan].
  - destruct Brackets; [intros [= _ <-] Hf; exact Hf|].
    intros H. apply Run_bind_Some in H as ([] & g1 & _ & H). discriminate H.
  - destruct (IsLBK T); [apply IH|].
    destruct (IsCOM T).
    { destruct Brackets as [|B Brackets].
      - intros H. apply Run_bind_Some in H as ([] & g1 & _ & H). discriminate H.
      - destruct (Comma B); [|apply IH].
        intros H. apply Run_bind_Some in H as ([] & g1 & _ & H). discriminate H. }
    destruct (IsRBK T); [|apply IH].
    destruct Brackets as [|B Brackets].
    + intros H. apply Run_bind_Some in H as ([] & g1 & _ & H). discriminate H.
    + intros H _. apply Run_bind_Some in H as (closed & g1 & H1 & H).
      destruct closed as [chain2|]; [|discriminate H].
      apply Expr_close_Some_flag in H1. exact (IH _ _ _ _ _ H H1).
Qed.

(** When the constructor goes on to [Simplify] with [FailedToParse]
    raised, the tree is the node of the integer 0. *)
Lemma Expr_build_failed Toks g Root g' :
  Expr_build Toks g = Some ((Some Root, true), g') ->
  FailedToParse g = false -> FailedToParse g' = true -> Root = Const 0.
Proof.
  unfold Expr_build. intros H Hf Hf'.
  apply Run_bind_Some in H as ([] & g0 & H0 & H). injection H0 as <-.
  apply Run_bind_Some in H as (scanned & g1 & H1 & H).
  destruct scanned as [chain|]; [|discriminate H].
  apply Expr_scan_Some_flag in H1; [|exact Hf].
  apply Run_bind_Some in H as (root & g2 & H2 & H).
  apply Run_bind_Some in H as (ok & g3 & H3 & H).
  destruct ok.
  2: { apply Run_bind_Some in H as ([] & g4 & _ & H). discriminate H. }
  injection H as <- <-.
  apply CheckArgument_output in H3 as (out & -> & Hout).
  rewrite (Hout eq_refl), set_Output_id in Hf'.
  apply CreateTree_unchanged in H2 as [ -> | -> ]; [congruence|reflexivity].
Qed.

Lemma Simplify_zero_leaf_state (rules : RewriteRules) (fuel : nat) g r g' :
  Simplify rules fuel (Const 0) g = Some (r, g') -> g' = g.
Proof.
  destruct fuel as [|[|fuel]].
  - discriminate.
  - discriminate.
  - rewrite Simplify_zero_leaf by lia. intros [= _ <-]. reflexivity.
Qed.

(** X23.  A round that ends with [FailedToParse] raised has printed at
    least one line, and nothing but reports of syntax errors: every line of
    its output begins with [Syntax Error: ], and no derivative and no
    report of a zero denominator is printed, whatever the line and whatever
    the rewrites of the simplifier do. *)
Theorem main_round_syntax_errors (rules : RewriteRules) (fuel : nat) (line : string)
  (g : Globals) :
  main_round rules fuel line = Some g -> FailedToParse g = true ->
  Output g <> [] /\ Forall syntax_error (Output g).
Proof.
  unfold main_round. cbv zeta. intros H Hf.
  match type of H with match ?m with _ => _ end = _ => destruct m as [[[] g0]|] eqn:Hr end;
    [|discriminate H].
  injection H as ->.
  apply Run_bind_Some in Hr as (Toks & g1 & H1 & Hr).
  unfold lift in H1.
  destruct (GenerateTokens_table line) as [_ (_ & L2 & L3 & L4)].
  replace (GenerateTokens line Globals_fresh) with (Toks, g1) in L2, L3, L4 by congruence.
  cbn [snd Globals_fresh FailedToParse DividedbyZero Output] in L2, L3, L4.
  apply Run_bind_Some in Hr as (Original & g2 & H2 & Hr).
  apply Run_bind_Some in Hr as (g2' & g2'' & H3 & Hr).
  injection H3 as <- <-.
  assert (Hf2 : FailedToParse g2 = true /\ g = g2).
  { destruct (FailedToParse g2) eqn:Ef2; cbn [orb] in Hr.
    - injection Hr as <-. split; reflexivity.
    - destruct (DividedbyZero g2); [injection Hr as <-; congruence|].
      apply main_derivatives_lines in Hr as (_ & _ & B3 & _). congruence. }
  destruct Hf2 as [Hf2 ->]. clear Hr Hf.
  assert (Hb : exists r gb, Expr_build Toks g1 = Some (r, gb) /\ g2 = gb).
  { unfold Expr_of_tokens in H2.
    apply Run_bind_Some in H2 as ([Root go] & gb & Hb & H2).
    exists (Root, go), gb. split; [exact Hb|].
    destruct Root as [root|]; [|injection H2 as _ <-; reflexivity].
    destruct go; [|injection H2 as _ <-; reflexivity].
    rename H2 into Hs.
    pose proof (simplifies_Simplify rules fuel root _ _ _ Hs) as (_ & _ & _ & S4 & _).
    rewrite S4 in Hf2.
    rewrite (Expr_build_failed _ _ _ _ Hb L2 Hf2) in Hs.
    exact (Simplify_zero_leaf_state _ _ _ _ _ Hs). }
  destruct Hb as (r & gb & Hb & ->).
  apply complains_Expr_build in Hb as (errs & O & Fe & Ne).
  rewrite L4 in O. cbn [app] in O. rewrite O. split; [|exact Fe].
  destruct (Ne Hf2) as [E|E]; [congruence|exact E].
Qed.

(** The line [2*-x)]. *)
Lemma main_round_syntax_errors_witness :
  let g := mkGlobals 1 ["x"] [("x", 0)] ∅ true false
             [("Syntax Error: " ++ quote ++ ")" ++ quote ++ "is lonely.")%string] 0 in
  main_round no_rewrite 2 "2*-x)" = Some g /\
  Output g <> [] /\ Forall syntax_error (Output g).
Proof.
  intros g.
  assert (H : main_round no_rewrite 2 "2*-x)" = Some g) by (vm_compute; reflexivity).
  split; [exact H|].
  exact (main_round_syntax_errors no_rewrite 2 "2*-x)" g H eq_refl).
Defined.

(** ** Constants and counting *)

(** X24.  Reading a fraction back from its node: for a fraction in lowest
    terms with a non-zero denominator (zero being [0/1]), [ExtractConst] of
    the tree that [ToNode] builds is that fraction, and the globals are
    left as they are. *)
Theorem ExtractConst_ToNode (F : Fraction) (g : Globals) :
  Int32 (Fraction_N F) -> Int32 (Fraction_D F) ->
  Fraction_D F <> 0 -> Z.gcd (Fraction_N F) (Fraction_D F) = 1 ->
  (Fraction_N F = 0 -> Fraction_D F = 1) ->
  ExtractConst (Fraction_ToNode F) g = Some (F, g).
Proof.
  destruct F as [N D]. cbn [Fraction_N Fraction_D]. intros HN HD D0 G Z0.
  unfold Fraction_ToNode. cbn [Fraction_N Fraction_D].
  destruct (D =? 1) eqn:E1.
  - apply Z.eqb_eq in E1. subst D. reflexivity.
  - assert (N0 : N <> 0) by (intros ->; specialize (Z0 eq_refl); subst D; discriminate E1).
    change (ExtractConst (BinOp DIV (Const N) (Const D)) g)
      with (Some (Fraction_apply Fraction_over (Fraction_of_int N) (Fraction_of_int D) g)).
    f_equal. unfold Fraction_apply, Fraction_raw, Fraction_of_int.
    cbn [Fraction_N Fraction_D fst snd].
    rewrite Z.mul_1_r, Z.mul_1_l, !wrap32_id by assumption.
    unfold Fraction_make, Fraction_Simplify. cbn [Fraction_N Fraction_D].
    destruct (D =? 0) eqn:ED; [apply Z.eqb_eq in ED; contradiction|].
    destruct (N =? 0) eqn:EN; [apply Z.eqb_eq in EN; contradiction|].
    unfold std_gcd, int_div. rewrite G.
    change (wrap32 1) with 1. rewrite !Z.quot_1_r, !wrap32_id by assumption.
    reflexivity.
Qed.

(** The fraction [-3/4]. *)
Lemma ExtractConst_ToNode_witness :
  ExtractConst (Fraction_ToNode (mkFraction (-3) 4)) Globals_fresh
  = Some (mkFraction (-3) 4, Globals_fresh).
Proof.
  apply ExtractConst_ToNode; cbn [Fraction_N Fraction_D];
    unfold Int32, Int32_min, Int32_max; try lia; reflexivity.
Defined.

Lemma wrap32_add_l a b : wrap32 (wrap32 a + b) = wrap32 (a + b).
Proof.
  unfold wrap32. f_equal.
  replace (((a + 2 ^ 31) mod 2 ^ 32 - 2 ^ 31) + b + 2 ^ 31)
    with ((a + 2 ^ 31) mod 2 ^ 32 + b) by lia.
  rewrite Zplus_mod_idemp_l. f_equal. lia.
Qed.

Lemma TraverseCountTreeNodes_Impl_length p T : forall Result,
  Int32 Result ->
  TraverseCountTreeNodes_Impl Result p T
  = wrap32 (Result + Z.of_nat (length (TraverseTreeNodes_Impl p T))).
Proof.
  induction p as [V L R IHl IHr] using ExprNode_tree_ind. intros Result HR.
  cbn [TraverseCountTreeNodes_Impl TraverseTreeNodes_Impl].
  destruct (Token_eqb V T); [|reflexivity].
  rewrite length_app, Nat2Z.inj_add.
  destruct L as [l|], R as [r|]; cbn [length];
    rewrite ?(IHl _ eq_refl) by assumption;
    rewrite ?(IHr _ eq_refl) by (assumption || apply wrap32_Int32);
    rewrite ?wrap32_add_l; rewrite ?Z.add_0_r; try (f_equal; lia).
  symmetry. apply wrap32_id. exact HR.
Qed.

(** X25.  [TraverseCountTreeNodes] counts what [TraverseTreeNodes]
    collects: as long as the count fits an [int], it is the number of nodes
    in the list that [TraverseTreeNodes] builds for the same node and
    token. *)
Theorem TraverseCountTreeNodes_length (pNode : option ExprNode) (T : Token) :
  Z.of_nat (length (TraverseTreeNodes pNode T)) <= Int32_max ->
  TraverseCountTreeNodes pNode T = Z.of_nat (length (TraverseTreeNodes pNode T)).
Proof.
  intros H. destruct pNode as [p|]; [|reflexivity].
  cbn [TraverseCountTreeNodes TraverseTreeNodes] in *.
  rewrite TraverseCountTreeNodes_Impl_length by (unfold Int32, Int32_min, Int32_max; lia).
  apply wrap32_id. unfold Int32, Int32_min, Int32_max in *. lia.
Qed.

(** The three factors of [(x * 2) * y]. *)
Lemma TraverseCountTreeNodes_length_witness :
  TraverseCountTreeNodes (Some (BinOp MUL (BinOp MUL (Var 0) (Const 2)) (Var 1))) MUL
  = Z.of_nat (length (TraverseTreeNodes
                        (Some (BinOp MUL (BinOp MUL (Var 0) (Const 2)) (Var 1))) MUL)).
Proof. apply TraverseCountTreeNodes_length. vm_compute. discriminate. Defined.

(** ** The value that [ExtractConst] extracts *)

Lemma Qc_of_int_mul a b : Qc_of_int (a * b) = (Qc_of_int a * Qc_of_int b)%Qc.
Proof.
  unfold Qc_of_int. apply Qc_is_canon. cbn [this Qcmult Q2Qc].
  rewrite !Qred_correct. rewrite inject_Z_mult. reflexivity.
Qed.

Lemma Qc_of_int_add a b : Qc_of_int (a + b) = (Qc_of_int a + Qc_of_int b)%Qc.
Proof.
  unfold Qc_of_int. apply Qc_is_canon. cbn [this Qcplus Q2Qc].
  rewrite !Qred_correct. rewrite inject_Z_plus. reflexivity.
Qed.

Lemma Qc_of_int_sub a b : Qc_of_int (a - b) = (Qc_of_int a - Qc_of_int b)%Qc.
Proof.
  unfold Qc_of_int. apply Qc_is_canon. unfold Qcminus. cbn [this Qcplus Qcopp Q2Qc].
  rewrite !Qred_correct. unfold Z.sub. rewrite inject_Z_plus, inject_Z_opp. reflexivity.
Qed.

Lemma Qc_of_int_inj a b : Qc_of_int a = Qc_of_int b -> a = b.
Proof.
  unfold Qc_of_int. intros H. apply (f_equal this) in H. cbn [this Q2Qc] in H.
  apply inject_Z_injective. rewrite <- (Qred_correct (inject_Z a)), <- (Qred_correct (inject_Z b)).
  rewrite H. reflexivity.
Qed.

Lemma Qc_of_int_nz a : a <> 0 -> Qc_of_int a <> Q2Qc 0.
Proof.
  intros H E. apply H. apply Qc_of_int_inj. rewrite E.
  apply Qc_is_canon. reflexivity.
Qed.

Lemma Qc_mul_cancel_r (a b c : Qc) : c <> Q2Qc 0 -> (a * c = b * c)%Qc -> a = b.
Proof.
  intros Hc H.
  assert (E : ((a - b) * c = Q2Qc 0)%Qc).
  { replace ((a - b) * c)%Qc with (a * c - b * c)%Qc by ring. rewrite H. ring. }
  apply Qcmult_integral in E as [E|E]; [|contradiction].
  replace a with ((a - b) + b)%Qc by ring. rewrite E. ring.
Qed.

Lemma magnitude_pos p : 1 <= magnitude p.
Proof.
  induction p as [V L R IHl IHr] using ExprNode_tree_ind. cbn [magnitude].
  destruct (TokenType_eqb _ _); [|lia].
  assert (1 <= match L with Some l => magnitude l | None => 1 end)
    by (destruct L as [l|]; [exact (IHl l eq_refl)|lia]).
  assert (1 <= match R with Some r => magnitude r | None => 1 end)
    by (destruct R as [r|]; [exact (IHr r eq_refl)|lia]).
  destruct (_ || _); nia.
Qed.

(** The constructor on a numerator and a non-zero denominator that stand
    for [v]: the fraction it builds stands for [v], within the same
    bound, and the globals are left as they are. *)
Lemma Fraction_make_is v B N D g :
  Int32 N -> Int32 D -> D <> 0 -> Z.abs N <= B -> Z.abs D <= B -> 1 <= B ->
  (v * Qc_of_int D)%Qc = Qc_of_int N ->
  (Fraction_make N D g).2 = g /\ Fraction_is v B (Fraction_make N D g).1.
Proof.
  intros HN HD D0 BN BD B1 Hv.
  destruct (Fraction_make_constructed N D g HN HD) as [_ C].
  destruct (C D0) as (Eg & G1 & Cross & _).
  split; [exact Eg|].
  set (F := (Fraction_make N D g).1) in *. clearbody F.
  destruct F as [N' D']. cbn [Fraction_N Fraction_D] in *.
  assert (D'0 : D' <> 0).
  { intros ->. rewrite Z.mul_0_r in Cross. symmetry in Cross.
    apply Z.mul_eq_0 in Cross as [->|]; [|contradiction]. discriminate G1. }
  assert (DD : (D' | D)).
  { apply (Z.gauss D' N' D); [|rewrite Z.gcd_comm; exact G1].
    exists N. lia. }
  assert (ND : (N' | N * D')) by (exists D; lia).
  unfold Fraction_is. cbn [Fraction_N Fraction_D].
  split; [exact D'0|]. split; [|split].
  - destruct (Z.eq_dec N 0) as [->|N0].
    + assert (N' = 0) by nia. subst. lia.
    + assert (NN : (N' | N)).
      { apply (Z.gauss N' D' N); [|exact G1]. rewrite Z.mul_comm. exact ND. }
      apply Z.divide_abs_l, Z.divide_abs_r in NN.
      apply Z.divide_pos_le in NN; lia.
  - apply Z.divide_abs_l, Z.divide_abs_r in DD.
    apply Z.divide_pos_le in DD; lia.
  - apply (f_equal Qc_of_int) in Cross. rewrite !Qc_of_int_mul in Cross.
    apply (Qc_mul_cancel_r _ _ (Qc_of_int D)); [apply Qc_of_int_nz; exact D0|].
    rewrite <- Cross, <- Hv. ring.
Qed.

Lemma ExtractConst_operator V l r g Fa g1 Fb g2 :
  Ty V = Token_Operator ->
  ExtractConst l g = Some (Fa, g1) -> ExtractConst r g1 = Some (Fb, g2) ->
  ExtractConst (Node V (Some l) (Some r)) g
  = if ID V =? char_code "+" then Some (Fraction_apply Fraction_plus Fa Fb g2)
    else if ID V =? char_code "-" then Some (Fraction_apply Fraction_minus Fa Fb g2)
    else if ID V =? char_code "*" then Some (Fraction_apply Fraction_times Fa Fb g2)
    else if ID V =? char_code "/" then Some (Fraction_apply Fraction_over Fa Fb g2)
    else Some (Fraction_of_int 0, g).
Proof.
  intros HT Ea Eb. cbn [ExtractConst]. rewrite HT.
  change (TokenType_eqb Token_Operator Token_Operator) with true. cbv iota.
  repeat (destruct (ID V =? _);
          [unfold mbind, Run_bind; rewrite Ea; cbn beta iota; rewrite Eb; reflexivity|]).
  reflexivity.
Qed.

Lemma abs_mul_le x y m n : Z.abs x <= m -> Z.abs y <= n -> Z.abs (x * y) <= m * n.
Proof.
  intros Hx Hy. rewrite Z.abs_mul.
  pose proof (Z.abs_nonneg x). pose proof (Z.abs_nonneg y). nia.
Qed.

Lemma abs_Int32 z : Z.abs z <= Int32_max -> Int32 z.
Proof. unfold Int32, Int32_min, Int32_max. lia. Qed.

Lemma IsConstII_operator V L R :
  Ty V = Token_Operator -> IsConstII (Node V L R) = true ->
  match L with Some l => IsConstII l = true | None => True end /\
  match R with Some r => IsConstII r = true | None => True end.
Proof.
  intros HT. cbn [IsConstII]. rewrite HT. destruct (ID V =? _); [discriminate|].
  intros H. apply andb_prop in H as [Hl Hr].
  destruct L, R; split; trivial.
Qed.

Lemma magnitude_operator V l r :
  Ty V = Token_Operator ->
  magnitude (Node V (Some l) (Some r))
  = if (ID V =? char_code "+") || (ID V =? char_code "-")
    then 2 * magnitude l * magnitude r else magnitude l * magnitude r.
Proof.
  intros HT. cbn [magnitude]. rewrite HT. reflexivity.
Qed.

(** X26. On a tree of integers under [+], [-], [*] and [/] whose value is
    defined (no divisor is zero) and whose [magnitude] fits in an [int],
    [ExtractConst] returns a fraction with a non-zero denominator that is
    exactly that value, and reports nothing: the state is the one it was
    called in. *)
Theorem ExtractConst_value (rho : Z -> Qc) (p : ExprNode) (v : Qc) (g : Globals) :
  IsConstII p = true -> value rho p = Some v -> magnitude p <= Int32_max ->
  exists F, ExtractConst p g = Some (F, g) /\ Fraction_is v (magnitude p) F.
Proof.
  revert v. induction p as [V L R IHl IHr] using ExprNode_tree_ind. intros v HC Hv HM.
  destruct (Ty V) eqn:HT.
  - destruct (value_leaf rho V L R v ltac:(congruence) Hv) as [-> ->].
    cbn [value] in Hv. rewrite HT in Hv. injection Hv as <-.
    exists (Fraction_of_int (ID V)). split.
    + cbn [ExtractConst]. rewrite HT. reflexivity.
    + cbn [magnitude]. rewrite HT.
      change (TokenType_eqb Token_Int Token_Operator) with false. cbv iota.
      unfold Fraction_is, Fraction_of_int. cbn [Fraction_N Fraction_D].
      split; [discriminate|]. split; [lia|]. split; [cbn; lia|].
      change (Q2Qc (inject_Z (ID V))) with (Qc_of_int (ID V)).
      unfold Qc_of_int at 2. rewrite Q2Qc_1. ring.
  - cbn [IsConstII] in HC. rewrite HT in HC. discriminate HC.
  - cbn [IsConstII] in HC. rewrite HT in HC. discriminate HC.
  - destruct (value_operator rho V L R v HT Hv) as (l & r & a & b & -> & -> & Ea & Eb).
    destruct (IsConstII_operator V _ _ HT HC) as [Cl Cr].
    rewrite (magnitude_operator V l r HT) in *.
    pose proof (magnitude_pos l) as Pl. pose proof (magnitude_pos r) as Pr.
    assert (Ml : magnitude l <= Int32_max) by (destruct (_ || _); nia).
    assert (Mr : magnitude r <= Int32_max) by (destruct (_ || _); nia).
    destruct (IHl l eq_refl a Cl Ea Ml) as (Fa & Xa & Da0 & BNa & BDa & Va).
    destruct (IHr r eq_refl b Cr Eb Mr) as (Fb & Xb & Db0 & BNb & BDb & Vb).
    rewrite (ExtractConst_operator V l r g Fa g Fb g HT Xa Xb).
    rewrite (value_node rho V l r a b HT Ea Eb) in Hv.
    destruct Fa as [Na Da], Fb as [Nb Db]. cbn [Fraction_N Fraction_D] in *.
    pose proof (abs_mul_le _ _ _ _ BNa BDb) as P1.
    pose proof (abs_mul_le _ _ _ _ BNb BDa) as P2.
    pose proof (abs_mul_le _ _ _ _ BDa BDb) as P3.
    pose proof (abs_mul_le _ _ _ _ BNa BNb) as P4.
    pose proof (abs_mul_le _ _ _ _ BDa BNb) as P5.
    assert (Finish : forall op N D,
              Fraction_raw op (mkFraction Na Da) (mkFraction Nb Db) = (N, D) ->
              Int32 N -> Int32 D -> D <> 0 ->
              Z.abs N <= (if (ID V =? char_code "+") || (ID V =? char_code "-")
                          then 2 * magnitude l * magnitude r
                          else magnitude l * magnitude r) ->
              Z.abs D <= (if (ID V =? char_code "+") || (ID V =? char_code "-")
                          then 2 * magnitude l * magnitude r
                          else magnitude l * magnitude r) ->
              (v * Qc_of_int D)%Qc = Qc_of_int N ->
              exists F, Some (Fraction_apply op (mkFraction Na Da) (mkFraction Nb Db) g)
                        = Some (F, g) /\
                        Fraction_is v (if (ID V =? char_code "+") || (ID V =? char_code "-")
                                       then 2 * magnitude l * magnitude r
                                       else magnitude l * magnitude r) F).
    { intros op N D Eraw IN ID D0 BN BD EV.
      unfold Fraction_apply. rewrite Eraw. cbn [fst snd].
      destruct (Fraction_make_is v _ N D g IN ID D0 BN BD
                  ltac:(destruct (_ || _); nia) EV) as [Eg Hf].
      exists (Fraction_make N D g).1. split; [|exact Hf].
      f_equal. rewrite <- Eg at 3. destruct (Fraction_make N D g). reflexivity. }
    destruct (ID V =? char_code "+") eqn:E1.
    { injection Hv as <-. cbn [orb] in *.
      apply (Finish Fraction_plus (Na * Db + Nb * Da) (Da * Db)).
      - unfold Fraction_raw. cbn [Fraction_N Fraction_D].
        repeat rewrite (wrap32_id (_ * _)) by (apply abs_Int32; lia).
        rewrite ?wrap32_id by (apply abs_Int32; lia). reflexivity.
      - apply abs_Int32. lia.
      - apply abs_Int32. lia.
      - nia.
      - lia.
      - lia.
      - rewrite Qc_of_int_add, !Qc_of_int_mul, <- Va, <- Vb. ring. }
    destruct (ID V =? char_code "-") eqn:E2.
    { injection Hv as <-. cbn [orb] in *.
      apply (Finish Fraction_minus (Na * Db - Nb * Da) (Da * Db)).
      - unfold Fraction_raw. cbn [Fraction_N Fraction_D].
        repeat rewrite (wrap32_id (_ * _)) by (apply abs_Int32; lia).
        rewrite ?wrap32_id by (apply abs_Int32; lia). reflexivity.
      - apply abs_Int32. lia.
      - apply abs_Int32. lia.
      - nia.
      - lia.
      - lia.
      - rewrite Qc_of_int_sub, !Qc_of_int_mul, <- Va, <- Vb. ring. }
    cbn [orb] in *.
    destruct (ID V =? char_code "*") eqn:E3.
    { injection Hv as <-.
      apply (Finish Fraction_times (Na * Nb) (Da * Db)).
      - unfold Fraction_raw. cbn [Fraction_N Fraction_D].
        repeat rewrite (wrap32_id (_ * _)) by (apply abs_Int32; lia).
        rewrite ?wrap32_id by (apply abs_Int32; lia). reflexivity.
      - apply abs_Int32. lia.
      - apply abs_Int32. lia.
      - nia.
      - lia.
      - lia.
      - rewrite !Qc_of_int_mul, <- Va, <- Vb. ring. }
    destruct (ID V =? char_code "/") eqn:E4; [|discriminate Hv].
    destruct (Qc_eq_dec b (Q2Qc 0)) as [|Nb0]; [discriminate Hv|]. injection Hv as <-.
    assert (HNb : Nb <> 0).
    { intros ->. change (Qc_of_int 0) with (Q2Qc (inject_Z 0)) in Vb. rewrite Q2Qc_0 in Vb.
      apply Qcmult_integral in Vb as [Vb|Vb]; [contradiction|].
      apply (Qc_of_int_nz Db Db0). exact Vb. }
    apply (Finish Fraction_over (Na * Db) (Da * Nb)).
    + unfold Fraction_raw. cbn [Fraction_N Fraction_D].
      rewrite !wrap32_id by (apply abs_Int32; lia). reflexivity.
    + apply abs_Int32. lia.
    + apply abs_Int32. lia.
    + nia.
    + lia.
    + lia.
    + rewrite !Qc_of_int_mul, <- Va, <- Vb. field. exact Nb0.
Qed.

(** [(1/2 + 1/3) / (5 - 7)], which is [-5/12]. *)
Lemma ExtractConst_value_witness :
  exists F,
    ExtractConst
      (BinOp DIV (BinOp ADD (BinOp DIV (Const 1) (Const 2)) (BinOp DIV (Const 1) (Const 3)))
                 (BinOp SUB (Const 5) (Const 7))) Globals_fresh
    = Some (F, Globals_fresh) /\
    Fraction_is (Q2Qc (-5 # 12))
      (magnitude
         (BinOp DIV (BinOp ADD (BinOp DIV (Const 1) (Const 2)) (BinOp DIV (Const 1) (Const 3)))
                    (BinOp SUB (Const 5) (Const 7)))) F.
Proof.
  apply (ExtractConst_value (fun _ => Q2Qc 0)).
  - reflexivity.
  - vm_compute. reflexivity.
  - vm_compute. discriminate.
Defined.

(** ** The common factor that [ExtractGCD] extracts *)

Lemma gcd_of_divide l : forall n0,
  (gcd_of l n0 | n0) /\ Forall (fun C => (gcd_of l n0 | Fraction_N C)) l.
Proof.
  induction l as [|C l IH]; intros n0; cbn [gcd_of fold_left].
  - split; [reflexivity|constructor].
  - destruct (IH (Z.gcd n0 (Fraction_N C))) as [H1 H2]. fold (gcd_of l) in *.
    split; [|constructor; [|exact H2]].
    + etransitivity; [exact H1|apply Z.gcd_divide_l].
    + etransitivity; [exact H1|apply Z.gcd_divide_r].
Qed.

Lemma gcd_of_greatest l d : forall n0,
  (d | n0) -> Forall (fun C => (d | Fraction_N C)) l -> (d | gcd_of l n0).
Proof.
  induction l as [|C l IH]; intros n0 H0 Hl; cbn [gcd_of fold_left]; [exact H0|].
  inversion Hl; subst. apply IH; [|assumption]. apply Z.gcd_greatest; assumption.
Qed.

Lemma gcd_of_nonneg l : forall n0, 0 <= n0 -> 0 <= gcd_of l n0.
Proof.
  induction l as [|C l IH]; intros n0 H; cbn [gcd_of fold_left]; [exact H|].
  apply IH, Z.gcd_nonneg.
Qed.

Lemma lcm_of_divide l : forall d0,
  (d0 | lcm_of l d0) /\ Forall (fun C => (Fraction_D C | lcm_of l d0)) l.
Proof.
  induction l as [|C l IH]; intros d0; cbn [lcm_of fold_left].
  - split; [reflexivity|constructor].
  - destruct (IH (Z.lcm d0 (Fraction_D C))) as [H1 H2]. fold (lcm_of l) in *.
    split; [|constructor; [|exact H2]].
    + etransitivity; [apply Z.divide_lcm_l|exact H1].
    + etransitivity; [apply Z.divide_lcm_r|exact H1].
Qed.

Lemma lcm_of_least l M : forall d0,
  (d0 | M) -> Forall (fun C => (Fraction_D C | M)) l -> (lcm_of l d0 | M).
Proof.
  induction l as [|C l IH]; intros d0 H0 Hl; cbn [lcm_of fold_left]; [exact H0|].
  inversion Hl; subst. apply IH; [|assumption]. apply Z.lcm_least; assumption.
Qed.

Lemma lcm_of_pos l : forall d0,
  0 < d0 -> Forall (fun C => 0 < Fraction_D C) l -> 0 < lcm_of l d0.
Proof.
  induction l as [|C l IH]; intros d0 H0 Hl; cbn [lcm_of fold_left]; [exact H0|].
  inversion Hl; subst. apply IH; [|assumption].
  pose proof (Z.lcm_nonneg d0 (Fraction_D C)).
  assert (Z.lcm d0 (Fraction_D C) <> 0); [|lia].
  intros E. apply Z.lcm_eq_0 in E. lia.
Qed.

Lemma coprime_divide a m d : Z.gcd a m = 1 -> (d | m) -> Z.gcd a d = 1.
Proof.
  intros H Hd. apply Z.divide_1_r_nonneg; [apply Z.gcd_nonneg|].
  rewrite <- H. apply Z.gcd_greatest; [apply Z.gcd_divide_l|].
  etransitivity; [apply Z.gcd_divide_r|exact Hd].
Qed.

Lemma coprime_mul a b c : Z.gcd a b = 1 -> Z.gcd a c = 1 -> Z.gcd a (b * c) = 1.
Proof.
  intros Hb Hc. apply Z.divide_1_r_nonneg; [apply Z.gcd_nonneg|].
  rewrite <- Hc. apply Z.gcd_greatest; [apply Z.gcd_divide_l|].
  apply Z.gauss with (m := b); [apply Z.gcd_divide_r|].
  rewrite Z.gcd_comm. apply coprime_divide with (m := a); [rewrite Z.gcd_comm; exact Hb|].
  apply Z.gcd_divide_l.
Qed.

Lemma lcm_divide_mul a b : (Z.lcm a b | a * b).
Proof.
  apply Z.lcm_least; [apply Z.divide_factor_l|apply Z.divide_factor_r].
Qed.

Lemma lcm_of_coprime G l : forall d0,
  Z.gcd G d0 = 1 -> Forall (fun C => Z.gcd G (Fraction_D C) = 1) l ->
  Z.gcd G (lcm_of l d0) = 1.
Proof.
  induction l as [|C l IH]; intros d0 H0 Hl; cbn [lcm_of fold_left]; [exact H0|].
  inversion Hl; subst. apply IH; [|assumption].
  apply coprime_divide with (m := d0 * Fraction_D C); [|apply lcm_divide_mul].
  apply coprime_mul; assumption.
Qed.

Lemma gcd_le a b B : Z.abs a <= B -> Z.abs b <= B -> 0 <= Z.gcd a b <= B.
Proof.
  intros Ha Hb. split; [apply Z.gcd_nonneg|].
  destruct (Z.eq_dec a 0) as [->|Na].
  - rewrite Z.gcd_0_l. exact Hb.
  - transitivity (Z.abs a); [|exact Ha].
    apply Z.divide_pos_le; [lia|]. apply Z.divide_abs_r, Z.gcd_divide_l.
Qed.

Lemma ExtractGCD_fold B M l : forall n0 d0,
  0 <= B <= Int32_max -> 0 < M <= Int32_max ->
  Z.abs n0 <= B -> 0 < d0 -> (d0 | M) ->
  Forall (fun C => Z.abs (Fraction_N C) <= B /\ 0 < Fraction_D C /\ (Fraction_D C | M)) l ->
  fold_left (fun '(n0, d0) p => (std_gcd n0 (Fraction_N p), std_lcm d0 (Fraction_D p)))
    l (n0, d0)
  = (gcd_of l n0, lcm_of l d0).
Proof.
  induction l as [|C l IH]; intros n0 d0 HB HM Hn Hd HdM Hl; [reflexivity|].
  inversion Hl as [|? ? (HN & HD & HDM) Hl']; subst.
  cbn [fold_left gcd_of lcm_of].
  pose proof (gcd_le n0 (Fraction_N C) B Hn HN) as Hg.
  assert (Hlcm : 0 < Z.lcm d0 (Fraction_D C) <= M).
  { pose proof (Z.lcm_nonneg d0 (Fraction_D C)).
    assert (Z.lcm d0 (Fraction_D C) <> 0) by (intros E; apply Z.lcm_eq_0 in E; lia).
    split; [lia|]. apply Z.divide_pos_le; [lia|]. apply Z.lcm_least; assumption. }
  unfold std_gcd, std_lcm.
  rewrite !wrap32_id by (unfold Int32, Int32_min; lia).
  apply IH; try assumption; try lia.
  apply Z.lcm_least; assumption.
Qed.

Lemma quot_mul_l a b : a <> 0 -> Z.quot (a * b) a = b.
Proof. intros H. rewrite Z.mul_comm. apply Z.quot_mul. exact H. Qed.

(** X27.  The common factor divides every coefficient.  For coefficients
    in lowest terms with positive denominators, not all zero, whose
    numerators are bounded by [B] and whose denominators divide [M], with
    [B * M] in the range of [int]: [ExtractGCD] returns a positive fraction
    [Tg] and reports nothing; the numerator of [Tg] is the greatest common
    divisor of the numerators (it divides each of them and every common
    divisor of them divides it) and its denominator the least common
    multiple of the denominators (each of them divides it and it divides
    every common multiple of them); and [C / Tg] is an integer [k/1] with
    [C = k * Tg] for every coefficient [C]. *)
Theorem ExtractGCD_divides (B M : Z) (Coefficients : list Fraction) (g : Globals) :
  0 < M -> B * M <= Int32_max ->
  Forall (fun C => 0 < Fraction_D C /\ Z.gcd (Fraction_N C) (Fraction_D C) = 1 /\
                   Z.abs (Fraction_N C) <= B /\ (Fraction_D C | M)) Coefficients ->
  Exists (fun C => Fraction_N C <> 0) Coefficients ->
  exists Tg m,
    ExtractGCD Coefficients = Some m /\ m g = (Tg, g) /\
    0 < Fraction_N Tg /\ 0 < Fraction_D Tg /\
    (Forall (fun C => (Fraction_N Tg | Fraction_N C)) Coefficients /\
     forall d, Forall (fun C => (d | Fraction_N C)) Coefficients -> (d | Fraction_N Tg)) /\
    (Forall (fun C => (Fraction_D C | Fraction_D Tg)) Coefficients /\
     forall m', Forall (fun C => (Fraction_D C | m')) Coefficients -> (Fraction_D Tg | m')) /\
    Forall (fun C => exists k,
              Fraction_apply Fraction_over C Tg g = (mkFraction k 1, g) /\
              Fraction_N C * Fraction_D Tg = k * Fraction_N Tg * Fraction_D C)
      Coefficients.
Proof.
  intros HM HBM HF HE.
  destruct Coefficients as [|Begin rest]; [inversion HE|].
  set (Cs := Begin :: rest) in *.
  set (G := gcd_of Cs (Fraction_N Begin)). set (L := lcm_of Cs (Fraction_D Begin)).
  assert (HBegin : 0 < Fraction_D Begin /\ Z.abs (Fraction_N Begin) <= B /\
                   (Fraction_D Begin | M)).
  { inversion HF as [|? ? (? & ? & ? & ?) ?]; subst. auto. }
  destruct HBegin as (HD0 & HN0 & HDM0).
  destruct (gcd_of_divide Cs (Fraction_N Begin)) as [_ HGdiv]. fold G in HGdiv.
  destruct (lcm_of_divide Cs (Fraction_D Begin)) as [_ HLdiv]. fold L in HLdiv.
  assert (HG0 : 0 <= G).
  { unfold G, Cs. cbn [gcd_of fold_left]. apply gcd_of_nonneg, Z.gcd_nonneg. }
  assert (HGB : 0 < G <= B).
  { apply Exists_exists in HE as (C & HC & HNC).
    rewrite Forall_forall in HGdiv, HF.
    specialize (HGdiv C HC). destruct (HF C HC) as (_ & _ & HNB & _).
    assert (G <> 0) by (intros E; rewrite E in HGdiv; apply Z.divide_0_l in HGdiv; lia).
    split; [lia|]. transitivity (Z.abs (Fraction_N C)); [|exact HNB].
    apply Z.divide_pos_le; [lia|]. apply Z.divide_abs_r. exact HGdiv. }
  assert (HLM : 0 < L <= M).
  { assert (0 < L).
    { apply lcm_of_pos; [exact HD0|]. eapply Forall_impl; [exact HF|].
      intros C (? & _). assumption. }
    split; [assumption|]. apply Z.divide_pos_le; [lia|].
    apply lcm_of_least; [exact HDM0|]. eapply Forall_impl; [exact HF|].
    intros C (_ & _ & _ & ?). assumption. }
  assert (HBM1 : B <= Int32_max /\ M <= Int32_max) by nia.
  assert (HGL : Z.gcd G L = 1).
  { assert (Hco : Forall (fun C => Z.gcd G (Fraction_D C) = 1) Cs).
    { rewrite Forall_forall in *. intros C HC. destruct (HF C HC) as (_ & Hlow & _).
      rewrite Z.gcd_comm. apply coprime_divide with (m := Fraction_N C);
        [rewrite Z.gcd_comm; exact Hlow|apply HGdiv, HC]. }
    apply lcm_of_coprime; [|exact Hco]. inversion Hco; subst. assumption. }
  assert (HTg : Fraction_make (wrap32 (Z.abs G)) (wrap32 (Z.abs L)) g = (mkFraction G L, g)).
  { rewrite !Z.abs_eq by lia. rewrite !wrap32_id by (unfold Int32, Int32_min; lia).
    unfold Fraction_make, Fraction_Simplify. cbn [Fraction_N Fraction_D].
    destruct (Z.eqb_spec L 0); [lia|]. destruct (Z.eqb_spec G 0); [lia|].
    unfold std_gcd, int_div. rewrite HGL. change (wrap32 1) with 1.
    rewrite !Z.quot_1_r. rewrite !wrap32_id by (unfold Int32, Int32_min; lia).
    reflexivity. }
  exists (mkFraction G L), (Fraction_make (wrap32 (Z.abs G)) (wrap32 (Z.abs L))).
  split.
  { unfold ExtractGCD, Cs.
    rewrite (ExtractGCD_fold B M (Begin :: rest) (Fraction_N Begin) (Fraction_D Begin));
      try assumption; try lia.
    - reflexivity.
    - eapply Forall_impl; [exact HF|]. intros C (? & _ & ? & ?). auto. }
  split; [exact HTg|]. cbn [Fraction_N Fraction_D].
  split; [lia|]. split; [lia|].
  split.
  { split; [exact HGdiv|]. intros d Hd. unfold G.
    apply gcd_of_greatest; [|exact Hd]. inversion Hd; subst. assumption. }
  split.
  { split; [exact HLdiv|]. intros m' Hm. unfold L.
    apply lcm_of_least; [|exact Hm]. inversion Hm; subst. assumption. }
  rewrite Forall_forall in *. intros C HC.
  destruct (HF C HC) as (HDC & _ & HNC & _).
  destruct (HGdiv C HC) as [n Hn]. destruct (HLdiv C HC) as [l Hl].
  assert (HDL : Fraction_D C <= L) by (apply Z.divide_pos_le; [lia|apply HLdiv, HC]).
  assert (HNL : Z.abs (Fraction_N C * L) <= B * M).
  { rewrite Z.abs_mul, (Z.abs_eq L) by lia. pose proof (Z.abs_nonneg (Fraction_N C)). nia. }
  assert (HDG : 0 < Fraction_D C * G <= B * M) by nia.
  unfold Fraction_apply, Fraction_raw. cbn [Fraction_N Fraction_D fst snd].
  rewrite !wrap32_id by (apply abs_Int32; lia).
  unfold Fraction_make, Fraction_Simplify. cbn [Fraction_N Fraction_D].
  destruct (Z.eqb_spec (Fraction_D C * G) 0); [lia|].
  destruct (Z.eqb_spec (Fraction_N C * L) 0) as [E0|E0].
  - exists 0. rewrite E0. split; [reflexivity|]. lia.
  - exists (n * l).
    assert (EN : Fraction_N C * L = (Fraction_D C * G) * (n * l)) by (rewrite Hn, Hl at 1; ring).
    split; [|rewrite EN; ring].
    unfold std_gcd, int_div.
    assert (Egcd : Z.gcd (Fraction_N C * L) (Fraction_D C * G) = Fraction_D C * G).
    { rewrite EN, Z.gcd_comm. apply Z.gcd_mul_diag_l. lia. }
    rewrite Egcd. rewrite (wrap32_id (Fraction_D C * G)) by (apply abs_Int32; lia).
    rewrite Z.quot_same by lia. rewrite EN at 1. rewrite quot_mul_l by lia.
    assert (Z.abs (n * l) <= B * M).
    { rewrite <- HNL. rewrite EN, Z.abs_mul. pose proof (Z.abs_nonneg (n * l)). nia. }
    rewrite (wrap32_id (n * l)) by (apply abs_Int32; lia). reflexivity.
Qed.

(** The coefficients [2/3], [-4/9] and [0/1]: the common factor is [2/9],
    and the quotients are [3], [-2] and [0]. *)
Lemma ExtractGCD_divides_witness :
  exists Tg m,
    ExtractGCD [mkFraction 2 3; mkFraction (-4) 9; mkFraction 0 1] = Some m /\
    m Globals_fresh = (Tg, Globals_fresh) /\
    0 < Fraction_N Tg /\ 0 < Fraction_D Tg /\
    (Forall (fun C => (Fraction_N Tg | Fraction_N C))
       [mkFraction 2 3; mkFraction (-4) 9; mkFraction 0 1] /\
     forall d, Forall (fun C => (d | Fraction_N C))
                 [mkFraction 2 3; mkFraction (-4) 9; mkFraction 0 1] ->
               (d | Fraction_N Tg)) /\
    (Forall (fun C => (Fraction_D C | Fraction_D Tg))
       [mkFraction 2 3; mkFraction (-4) 9; mkFraction 0 1] /\
     forall m', Forall (fun C => (Fraction_D C | m'))
                  [mkFraction 2 3; mkFraction (-4) 9; mkFraction 0 1] ->
                (Fraction_D Tg | m')) /\
    Forall (fun C => exists k,
              Fraction_apply Fraction_over C Tg Globals_fresh
              = (mkFraction k 1, Globals_fresh) /\
              Fraction_N C * Fraction_D Tg = k * Fraction_N Tg * Fraction_D C)
      [mkFraction 2 3; mkFraction (-4) 9; mkFraction 0 1].
Proof.
  apply (ExtractGCD_divides 4 9).
  - lia.
  - vm_compute. discriminate.
  - constructor; [|constructor; [|constructor; [|constructor]]];
      cbn [Fraction_N Fraction_D]; (split; [lia|split; [reflexivity|split; [lia|]]]).
    + exists 3. reflexivity.
    + exists 1. reflexivity.
    + exists 9. reflexivity.
  - constructor. cbn. discriminate.
Defined.

Example ExtractGCD_2_3_m4_9_0 :
  (ExtractGCD [mkFraction 2 3; mkFraction (-4) 9; mkFraction 0 1]
   ≫= fun m => Some (m Globals_fresh))
  = Some (mkFraction 2 9, Globals_fresh).
Proof. vm_compute. reflexivity. Qed.

(** ** The pass [Simplify_TopNeg] *)

Lemma chain_value_app rho l1 : forall l2 w,
  chain_value rho (l1 ++ l2) = Some w <->
  exists w1 w2, chain_value rho l1 = Some w1 /\ chain_value rho l2 = Some w2 /\
                w = (w1 * w2)%Qc.
Proof.
  induction l1 as [|p l1 IH]; intros l2 w; cbn [app chain_value].
  - split.
    + intros H. exists 1%Qc, w. repeat split; [exact H|ring].
    + intros (w1 & w2 & [= <-] & H2 & ->). rewrite H2. f_equal. ring.
  - destruct (value rho p) as [a|]; cbn [mbind option_bind].
    2:{ split; [discriminate|]. intros (w1 & w2 & H & _). discriminate H. }
    split.
    + destruct (chain_value rho (l1 ++ l2)) as [b|] eqn:E; [|discriminate].
      intros [= <-]. apply IH in E as (w1 & w2 & E1 & E2 & ->).
      rewrite E1. exists (a * w1)%Qc, w2. repeat split; [exact E2|ring].
    + intros (w1 & w2 & H1 & H2 & ->).
      destruct (chain_value rho l1) as [b1|] eqn:E1; [|discriminate]. injection H1 as <-.
      assert (E : chain_value rho (l1 ++ l2) = Some (b1 * w2)%Qc).
      { apply IH. exists b1, w2. auto. }
      rewrite E. cbn. f_equal. ring.
Qed.

Lemma app_length_split {A} (new : list A) n1 n2 :
  length new = (n1 + n2)%nat ->
  exists new1 new2, new = new1 ++ new2 /\ length new1 = n1 /\ length new2 = n2.
Proof.
  intros H. exists (firstn n1 new), (skipn n1 new).
  rewrite firstn_skipn, length_firstn, length_skipn. repeat split; lia.
Qed.

(** The value of a product is the product of the values of its factors,
    and stays so when the factors are overwritten. *)
Lemma chain_store_value rho p : forall v,
  value rho p = Some v ->
  chain_value rho (TraverseTreeNodes_Impl p MUL) = Some v /\
  (0 < length (TraverseTreeNodes_Impl p MUL))%nat /\
  forall new rest w,
    length new = length (TraverseTreeNodes_Impl p MUL) ->
    chain_value rho new = Some w ->
    Forall (fun q => Token_eqb (ExprNode_V q) MUL = false) new ->
    (Rewrites.chain_store p MUL (new ++ rest)).2 = rest /\
    value rho (Rewrites.chain_store p MUL (new ++ rest)).1 = Some w /\
    TraverseTreeNodes_Impl (Rewrites.chain_store p MUL (new ++ rest)).1 MUL = new.
Proof.
  induction p as [V L R IHl IHr] using ExprNode_tree_ind. intros v Hv.
  cbn [TraverseTreeNodes_Impl Rewrites.chain_store].
  destruct (Token_eqb V MUL) eqn:EV.
  - apply Token_eqb_eq in EV. subst V.
    destruct (value_inv rho _ L R v Hv) as (l & r & a & b & -> & -> & Ea & Eb & Hc).
    assert (v = (a * b)%Qc) as ->
      by (destruct Hc as [[? _]|[[? _]|[[_ ?]|[? _]]]]; congruence).
    destruct (IHl l eq_refl a Ea) as (Cl & Nl & Sl).
    destruct (IHr r eq_refl b Eb) as (Cr & Nr & Sr).
    split; [apply chain_value_app; eauto|].
    split; [rewrite length_app; lia|].
    intros new rest w Hlen Hw Hnew. rewrite length_app in Hlen.
    destruct (app_length_split new _ _ Hlen) as (new1 & new2 & -> & H1 & H2).
    apply chain_value_app in Hw as (w1 & w2 & Hw1 & Hw2 & ->).
    apply Forall_app in Hnew as [Hn1 Hn2].
    rewrite <- app_assoc.
    destruct (Sl new1 (new2 ++ rest) w1 H1 Hw1 Hn1) as (Rl & Vl & Tl).
    destruct (Rewrites.chain_store l MUL (new1 ++ new2 ++ rest)) as [l' s1]. cbn [fst snd] in *.
    subst s1.
    destruct (Sr new2 rest w2 H2 Hw2 Hn2) as (Rr & Vr & Tr).
    destruct (Rewrites.chain_store r MUL (new2 ++ rest)) as [r' s2]. cbn [fst snd] in *.
    split; [exact Rr|]. split; [apply value_MUL; assumption|].
    cbn [TraverseTreeNodes_Impl]. change (Token_eqb MUL MUL) with true. cbv iota.
    rewrite Tl, Tr. reflexivity.
  - split; [cbn [chain_value]; rewrite Hv; cbn; f_equal; ring|].
    split; [cbn; lia|].
    intros new rest w Hlen Hw Hnew.
    destruct new as [|q [|? ?]]; try discriminate Hlen.
    cbn [app fst snd]. split; [reflexivity|].
    cbn [chain_value] in Hw. destruct (value rho q) as [a|] eqn:Eq; [|discriminate].
    cbn in Hw. injection Hw as <-. split; [rewrite ?Eq; f_equal; ring|].
    inversion Hnew as [|? ? Hq _]; subst. destruct q as [Vq Lq Rq].
    cbn [TraverseTreeNodes_Impl]. cbn [ExprNode_V] in Hq. rewrite Hq. reflexivity.
Qed.

Lemma TraverseTreeNodes_Impl_other p T :
  Forall (fun q => Token_eqb (ExprNode_V q) T = false) (TraverseTreeNodes_Impl p T).
Proof.
  induction p as [V L R IHl IHr] using ExprNode_tree_ind.
  cbn [TraverseTreeNodes_Impl]. destruct (Token_eqb V T) eqn:EV.
  - apply Forall_app. split.
    + destruct L as [l|]; [apply (IHl l eq_refl)|constructor].
    + destruct R as [r|]; [apply (IHr r eq_refl)|constructor].
  - constructor; [exact EV|constructor].
Qed.

Lemma chain_store_same p T : forall rest,
  Rewrites.chain_store p T (TraverseTreeNodes_Impl p T ++ rest) = (p, rest).
Proof.
  induction p as [V L R IHl IHr] using ExprNode_tree_ind. intros rest.
  cbn [TraverseTreeNodes_Impl Rewrites.chain_store]. destruct (Token_eqb V T); [|reflexivity].
  rewrite <- app_assoc.
  destruct L as [l|], R as [r|]; cbn [app];
    rewrite ?(IHl _ eq_refl), ?(IHr _ eq_refl); reflexivity.
Qed.

Lemma set_ID_int_value rho p a :
  is_minus_one p = true -> value rho p = Some a ->
  a = (- (1))%Qc /\ value rho (Rewrites.set_ID_int p 1) = Some 1%Qc /\
  Token_eqb (ExprNode_V (Rewrites.set_ID_int p 1)) MUL = false /\
  is_minus_one (Rewrites.set_ID_int p 1) = false.
Proof.
  destruct p as [V L R]. unfold is_minus_one. cbn [ExprNode_V Rewrites.set_ID_int].
  intros H Hv. apply andb_prop in H as [HT HI]. apply Z.eqb_eq in HI.
  destruct (Ty V) eqn:ET; try discriminate HT.
  destruct (value_leaf rho V L R a ltac:(congruence) Hv) as [-> ->].
  cbn [value] in *. rewrite ET, HI in Hv. injection Hv as <-. cbn [Ty ID].
  split; [apply Q2Qc_m1|]. split; [rewrite Q2Qc_1; reflexivity|]. split; reflexivity.
Qed.

Lemma TopNeg_loop_S rho : forall l i Neg FirstNeg Changed w,
  chain_value rho l = Some w ->
  Forall (fun q => Token_eqb (ExprNode_V q) MUL = false) l ->
  exists l' Neg' Changed',
    Rewrites.TopNeg_loop (S i) l Neg FirstNeg Changed = (l', (Neg', FirstNeg, Changed')) /\
    length l' = length l /\
    Forall (fun q => Token_eqb (ExprNode_V q) MUL = false) l' /\
    Forall (fun q => is_minus_one q = false) l' /\
    chain_value rho l' = Some (if xorb Neg Neg' then (- w)%Qc else w) /\
    (Changed = true -> Changed' = true) /\
    (Changed' = false -> l' = l /\ Neg' = Neg).
Proof.
  induction l as [|p l IH]; intros i Neg FirstNeg Changed w Hw Hl.
  - exists [], Neg, Changed. cbn [Rewrites.TopNeg_loop]. rewrite xorb_nilpotent.
    split; [reflexivity|]. split; [reflexivity|]. split; [constructor|].
    split; [constructor|]. split; [exact Hw|]. split; [tauto|]. intros _. split; reflexivity.
  - cbn [chain_value] in Hw. destruct (value rho p) as [a|] eqn:Ea; [|discriminate].
    destruct (chain_value rho l) as [b|] eqn:Eb; [|discriminate].
    cbn in Hw. injection Hw as <-. inversion Hl as [|? ? Hp Hl']; subst.
    cbn [Rewrites.TopNeg_loop]. fold (is_minus_one p).
    destruct (is_minus_one p) eqn:Em.
    + destruct (set_ID_int_value rho p a Em Ea) as (-> & V1 & M1 & N1).
      destruct (IH (S i) (negb Neg) FirstNeg true b eq_refl Hl')
        as (l' & Neg' & Changed' & -> & Hlen & HM & HN & HV & HT & HC).
      exists (Rewrites.set_ID_int p 1 :: l'), Neg', Changed'.
      split; [reflexivity|]. split; [cbn; lia|]. split; [constructor; assumption|].
      split; [constructor; assumption|]. split; [|split].
      * cbn [chain_value]. rewrite V1, HV. cbn.
        f_equal. destruct Neg, Neg'; cbn; ring.
      * intros _. apply HT. reflexivity.
      * intros E. rewrite (HT eq_refl) in E. discriminate E.
    + destruct (IH (S i) Neg FirstNeg Changed b eq_refl Hl')
        as (l' & Neg' & Changed' & -> & Hlen & HM & HN & HV & HT & HC).
      exists (p :: l'), Neg', Changed'.
      split; [reflexivity|]. split; [cbn; lia|]. split; [constructor; assumption|].
      split; [constructor; assumption|]. split; [|split].
      * cbn [chain_value]. rewrite Ea, HV. cbn.
        f_equal. destruct (xorb Neg Neg'); ring.
      * exact HT.
      * intros E. destruct (HC E) as [-> ->]. split; reflexivity.
Qed.

(** X28.  [Simplify_TopNeg] keeps the value of an arithmetic tree, under
    every valuation for which it is defined; afterwards no factor of the
    product other than the first is the constant -1; and when it returns
    false the tree is the one it was given. *)
Theorem Simplify_TopNeg_value (rho : Z -> Qc) (p : ExprNode) (v : Qc) :
  value rho p = Some v ->
  exists p' Changed,
    Rewrites.Simplify_TopNeg p = Some (p', Changed) /\
    value rho p' = Some v /\
    Forall (fun q => is_minus_one q = false) (tail (TraverseTreeNodes_Impl p' MUL)) /\
    (Changed = false -> p' = p).
Proof.
  intros Hv. unfold Rewrites.Simplify_TopNeg.
  destruct (Token_eqb (ExprNode_V p) MUL) eqn:EV.
  2:{ exists p, false. split; [reflexivity|]. split; [exact Hv|]. split; [|reflexivity].
      destruct p as [V L R]. cbn [ExprNode_V] in EV.
      cbn [TraverseTreeNodes_Impl]. rewrite EV. constructor. }
  destruct (chain_store_value rho p v Hv) as (HC & Hlen & Store).
  pose proof (TraverseTreeNodes_Impl_other p MUL) as Hother.
  pose proof (chain_store_same p MUL []) as Hsame. rewrite app_nil_r in Hsame.
  destruct (TraverseTreeNodes_Impl p MUL) as [|h t] eqn:ES; [cbn in Hlen; lia|].
  cbn [chain_value] in HC. destruct (value rho h) as [a|] eqn:Ea; [|discriminate].
  destruct (chain_value rho t) as [b|] eqn:Eb; [|discriminate].
  cbn in HC. injection HC as <-. inversion Hother as [|? ? Hh Ht]; subst.
  assert (Stored : forall new w,
            length new = length (h :: t) -> chain_value rho new = Some w ->
            Forall (fun q => Token_eqb (ExprNode_V q) MUL = false) new ->
            value rho (Rewrites.chain_store p MUL new).1 = Some w /\
            TraverseTreeNodes_Impl (Rewrites.chain_store p MUL new).1 MUL = new).
  { intros new w H1 H2 H3. destruct (Store new [] w H1 H2 H3) as (_ & H4 & H5).
    rewrite app_nil_r in *. split; assumption. }
  cbn [Rewrites.TopNeg_loop]. fold (is_minus_one h).
  destruct (is_minus_one h) eqn:Em.
  - destruct (set_ID_int_value rho h a Em Ea) as (-> & V1 & M1 & N1).
    destruct (TopNeg_loop_S rho t 0 false true false b Eb Ht)
      as (t' & Neg' & Changed' & -> & Hl & HM & HN & HV & _ & HCh).
    destruct Neg'; cbn [xorb] in HV.
    + exists (Rewrites.chain_store p MUL (Rewrites.set_ID_int h 1 :: t')).1, Changed'.
      split; [reflexivity|].
      destruct (Stored (Rewrites.set_ID_int h 1 :: t') (- (1) * b)%Qc) as [SV ST].
      * cbn [length]. lia.
      * cbn [chain_value]. rewrite V1, HV. cbn. f_equal. ring.
      * constructor; assumption.
      * split; [exact SV|]. split; [rewrite ST; exact HN|].
        intros E. destruct (HCh E) as [_ ?]. discriminate.
    + exists (Rewrites.chain_store p MUL (h :: t')).1, Changed'.
      split; [reflexivity|].
      destruct (Stored (h :: t') (- (1) * b)%Qc) as [SV ST].
      * cbn [length]. lia.
      * cbn [chain_value]. rewrite Ea, HV. reflexivity.
      * constructor; assumption.
      * split; [exact SV|]. split; [rewrite ST; exact HN|].
        intros E. destruct (HCh E) as [-> _]. rewrite Hsame. reflexivity.
  - destruct (TopNeg_loop_S rho t 0 false false false b Eb Ht)
      as (t' & Neg' & Changed' & -> & Hl & HM & HN & HV & _ & HCh).
    destruct Neg'; cbn [xorb] in HV.
    + exists (BinOp MUL (Const (-1)) (Rewrites.chain_store p MUL (h :: t')).1), Changed'.
      split; [reflexivity|].
      destruct (Stored (h :: t') (a * - b)%Qc) as [SV ST].
      * cbn [length]. lia.
      * cbn [chain_value]. rewrite Ea, HV. reflexivity.
      * constructor; assumption.
      * split.
        { unfold BinOp, CreateNode2.
          rewrite (value_MUL rho _ _ (- (1))%Qc (a * - b)%Qc); [f_equal; ring| |exact SV].
          rewrite <- Q2Qc_m1. reflexivity. }
        split.
        { unfold BinOp, CreateNode2. cbn [TraverseTreeNodes_Impl].
          change (Token_eqb MUL MUL) with true. cbv iota.
          rewrite ST. cbn. constructor; assumption. }
        intros E. destruct (HCh E) as [_ ?]. discriminate.
    + exists (Rewrites.chain_store p MUL (h :: t')).1, Changed'.
      split; [reflexivity|].
      destruct (Stored (h :: t') (a * b)%Qc) as [SV ST].
      * cbn [length]. lia.
      * cbn [chain_value]. rewrite Ea, HV. reflexivity.
      * constructor; assumption.
      * split; [exact SV|]. split; [rewrite ST; exact HN|].
        intros E. destruct (HCh E) as [-> _]. rewrite Hsame. reflexivity.
Qed.

(** The product [-1 * x * -1 * y * -1]: the second and the third [-1]
    become 1 and the first is kept. *)
Lemma Simplify_TopNeg_value_witness :
  exists p' Changed,
    Rewrites.Simplify_TopNeg
      (BinOp MUL (BinOp MUL (BinOp MUL (BinOp MUL (Const (-1)) (CreateNode (Token_of_var 0)))
                                       (Const (-1)))
                            (CreateNode (Token_of_var 1)))
                 (Const (-1)))
    = Some (p', Changed) /\
    value (fun x => Q2Qc (inject_Z (x + 2))) p' = Some (Q2Qc (inject_Z (-6))) /\
    Forall (fun q => is_minus_one q = false) (tail (TraverseTreeNodes_Impl p' MUL)) /\
    (Changed = false ->
     p' = BinOp MUL (BinOp MUL (BinOp MUL (BinOp MUL (Const (-1)) (CreateNode (Token_of_var 0)))
                                          (Const (-1)))
                               (CreateNode (Token_of_var 1)))
                    (Const (-1))).
Proof.
  apply Simplify_TopNeg_value. vm_compute. reflexivity.
Defined.
